(** * Skillz: skill registry and resource resolution

    A shallow embedding of [src/utils.ts], [src/resources.ts] and
    [src/registry.ts].  JavaScript strings are sequences of UTF-16 code
    units, buffers are sequences of octets, the two [Map] indexes of the
    registry are finite maps, and the file system, the archive reader, the
    YAML loader and the host's case mapping are an explicit environment. *)

From Stdlib Require Import ZArith NArith List Lia Bool Ascii String Sorted
  Permutation.
From stdpp Require Import gmap list.
Import ListNotations.

Set Warnings "-register-all".

Local Open Scope N_scope.
Local Open Scope list_scope.

(** ** JavaScript strings *)

(** A string is its sequence of UTF-16 code units. *)
Abbreviation jsstring := (list N).
(** A [Buffer] is its sequence of octets. *)
Abbreviation bytes := (list N).

(** String literals of the source, written as Rocq strings. *)
Definition js (s : string) : jsstring :=
  List.map N_of_ascii (list_ascii_of_string s).
Arguments js : simpl never.

Definition between (lo hi c : N) : bool := (lo <=? c) && (c <=? hi).

Definition is_digit (c : N) : bool := between 48 57 c.
Definition is_upper (c : N) : bool := between 65 90 c.
Definition is_lower (c : N) : bool := between 97 122 c.
(** The character class [a-zA-Z0-9]. *)
Definition is_alnum (c : N) : bool := is_lower c || is_upper c || is_digit c.

Definition HYPHEN : N := 45.
Definition DOT : N := 46.
Definition SLASH : N := 47.
Definition PERCENT : N := 37.
Definition LF : N := 10.
Definition COMMA : N := 44.

Definition is_hyphen (c : N) : bool := c =? HYPHEN.

(** WhiteSpace and LineTerminator of ECMAScript: what [trim] strips and
    what [\s] matches. *)
Definition is_js_space (c : N) : bool :=
  between 9 13 c || (c =? 32) || (c =? 160) || (c =? 5760)
  || between 8192 8202 c || (c =? 8232) || (c =? 8233) || (c =? 8239)
  || (c =? 8287) || (c =? 12288) || (c =? 65279).

Fixpoint jsstring_eqb (a b : jsstring) : bool :=
  match a, b with
  | [], [] => true
  | x :: a', y :: b' => (x =? y) && jsstring_eqb a' b'
  | _, _ => false
  end.

(** [s.startsWith(p)] *)
Fixpoint startsWith (p s : jsstring) : bool :=
  match p, s with
  | [], _ => true
  | x :: p', y :: s' => (x =? y) && startsWith p' s'
  | _ :: _, [] => false
  end.

(** [s.includes(p)] *)
Fixpoint includes (p s : jsstring) : bool :=
  startsWith p s ||
  match s with
  | [] => false
  | _ :: s' => includes p s'
  end.

(** [s.endsWith(p)] *)
Definition endsWith (p s : jsstring) : bool := startsWith (rev p) (rev s).

(** [s.slice(n)] *)
Definition slice_from (n : nat) (s : jsstring) : jsstring := skipn n s.

(** [s.trimStart()] *)
Fixpoint trimStart (s : jsstring) : jsstring :=
  match s with
  | [] => []
  | c :: t => if is_js_space c then trimStart t else s
  end.

(** [s.trimEnd()] *)
Fixpoint trimEnd (s : jsstring) : jsstring :=
  match s with
  | [] => []
  | c :: t =>
      match trimEnd t with
      | [] => if is_js_space c then [] else [c]
      | t' => c :: t'
      end
  end.

(** [s.trim()] *)
Definition trim (s : jsstring) : jsstring := trimEnd (trimStart s).

(** [s.split(sep)] for a one-unit separator: never the empty array. *)
Fixpoint split (sep : N) (s : jsstring) : list jsstring :=
  match s with
  | [] => [[]]
  | c :: t =>
      if c =? sep then [] :: split sep t
      else match split sep t with
           | w :: ws => (c :: w) :: ws
           | [] => [[c]]
           end
  end.

(** [parts.join(sep)] *)
Fixpoint join (sep : jsstring) (parts : list jsstring) : jsstring :=
  match parts with
  | [] => []
  | [w] => w
  | w :: ws => w ++ sep ++ join sep ws
  end.

(** ** slugify *)

(** [.replace(/[^a-zA-Z0-9]+/g, "-")]: the scanner is either inside a run of
    excluded units (its hyphen is already emitted) or not. *)
Fixpoint replace_runs (in_run : bool) (s : jsstring) : jsstring :=
  match s with
  | [] => []
  | c :: t =>
      if is_alnum c then c :: replace_runs false t
      else if in_run then replace_runs true t
      else HYPHEN :: replace_runs true t
  end.

Fixpoint drop_hyphens (s : jsstring) : jsstring :=
  match s with
  | [] => []
  | c :: t => if is_hyphen c then drop_hyphens t else s
  end.

Definition all_hyphens (s : jsstring) : bool := forallb is_hyphen s.

(** The alternative [-+$]: a hyphen from which only hyphens follow. *)
Fixpoint cut_final_hyphens (s : jsstring) : jsstring :=
  match s with
  | [] => []
  | c :: t => if is_hyphen c && all_hyphens t then [] else c :: cut_final_hyphens t
  end.

(** [.replace(/^-+|-+$/g, "")]: the first alternative can only match at
    index 0, the second one from there on. *)
Definition strip_hyphens (s : jsstring) : jsstring :=
  cut_final_hyphens (drop_hyphens s).

Definition FALLBACK_SLUG : jsstring := js "skill".

(** The host environment: what the program calls and the repository does not
    define. *)
Class Host := {
  (** [String.prototype.toLowerCase] (Unicode default case conversion) *)
  toLowerCase : jsstring -> jsstring;
  (** [path.join] of two segments, [path.resolve] and [path.dirname] *)
  path_join : jsstring -> jsstring -> jsstring;
  path_resolve : jsstring -> jsstring;
  path_dirname : jsstring -> jsstring;
}.

(** What the proofs use of the host's case conversion. *)
Class HostLaws (H : Host) : Prop := {
  (** on ASCII text only the letters A-Z change *)
  toLowerCase_ascii :
    forall s, Forall (fun c => c < 128) s ->
      toLowerCase s =
      List.map (fun c => if is_upper c then c + 32 else c) s;
  (** no code point has an ASCII capital as its lower case *)
  toLowerCase_no_upper :
    forall s, Forall (fun c => is_upper c = false) (toLowerCase s);
}.

Section Slug.
Context {H : Host}.

Definition slugify (value : jsstring) : jsstring :=
  let cleaned :=
    strip_hyphens (replace_runs false (toLowerCase (trim value))) in
  match cleaned with
  | [] => FALLBACK_SLUG
  | _ => cleaned
  end.

End Slug.

(** ** Exceptions *)

Inductive ErrorKind :=
| URIError              (* thrown by decodeURIComponent / encodeURIComponent *)
| SkillError            (* types.ts *)
| SkillValidationError  (* types.ts *)
| TypeError             (* thrown by the language itself *)
| SystemError           (* thrown by fs *)
| LibraryError.         (* thrown by js-yaml or JSZip *)

Record JsError := mkError { err_kind : ErrorKind; err_message : jsstring }.

(** A call either returns or throws. *)
Inductive Res (A : Type) :=
| Ok (a : A)
| Throw (e : JsError).
Arguments Ok {A} a.
Arguments Throw {A} e.

Definition res_bind {A B} (m : Res A) (k : A -> Res B) : Res B :=
  match m with
  | Ok a => k a
  | Throw e => Throw e
  end.

Definition kind_name (k : ErrorKind) : jsstring :=
  match k with
  | URIError => js "URIError"
  | SkillError => js "SkillError"
  | SkillValidationError => js "SkillValidationError"
  | TypeError => js "TypeError"
  | SystemError => js "Error"
  | LibraryError => js "Error"
  end.

(** The text of an error interpolated in a template literal. *)
Definition error_toString (e : JsError) : jsstring :=
  kind_name (err_kind e) ++ js ": " ++ err_message e.

(** ** UTF-8, UTF-16 and base64 *)

Definition REPLACEMENT : N := 65533.

Definition is_high_surrogate (c : N) : bool := between 55296 56319 c.
Definition is_low_surrogate (c : N) : bool := between 56320 57343 c.

(** UTF16EncodeCodePoint *)
Definition utf16_encode (cp : N) : jsstring :=
  if cp <=? 65535 then [cp]
  else [55296 + (cp - 65536) / 1024; 56320 + (cp - 65536) mod 1024].

(** The code point of a surrogate pair. *)
Definition utf16_pair (hi lo : N) : N :=
  (hi - 55296) * 1024 + (lo - 56320) + 65536.

Definition utf8_encode (cp : N) : bytes :=
  if cp <? 128 then [cp]
  else if cp <? 2048 then [192 + cp / 64; 128 + cp mod 64]
  else if cp <? 65536 then
    [224 + cp / 4096; 128 + (cp / 64) mod 64; 128 + cp mod 64]
  else
    [240 + cp / 262144; 128 + (cp / 4096) mod 64;
     128 + (cp / 64) mod 64; 128 + cp mod 64].

(** The state of a UTF-8 decoder between the octets of one sequence. *)
Record Utf8State := mkUtf8 {
  u_cp : N;          (* bits gathered so far *)
  u_needed : nat;    (* continuation octets still expected *)
  u_lower : N;       (* bounds of the next continuation octet *)
  u_upper : N;
}.

(** The first octet of a sequence: a unit to emit, a state, or an error. *)
Inductive Utf8Lead :=
| LeadUnit (c : N)
| LeadState (s : Utf8State)
| LeadInvalid.

Definition utf8_lead (b : N) : Utf8Lead :=
  if b <=? 127 then LeadUnit b
  else if between 194 223 b then LeadState (mkUtf8 (b - 192) 1 128 191)
  else if between 224 239 b then
    LeadState (mkUtf8 (b - 224) 2 (if b =? 224 then 160 else 128)
                      (if b =? 237 then 159 else 191))
  else if between 240 244 b then
    LeadState (mkUtf8 (b - 240) 3 (if b =? 240 then 144 else 128)
                      (if b =? 244 then 143 else 191))
  else LeadInvalid.

(** [buf.toString("utf-8")]: ill-formed sequences become U+FFFD, and the
    octet that broke a sequence is read again as a first octet. *)
Fixpoint utf8_decode_lossy (st : option Utf8State) (bs : bytes) : jsstring :=
  match bs with
  | [] => match st with None => [] | Some _ => [REPLACEMENT] end
  | b :: t =>
      let fresh :=
        match utf8_lead b with
        | LeadUnit c => c :: utf8_decode_lossy None t
        | LeadState s => utf8_decode_lossy (Some s) t
        | LeadInvalid => REPLACEMENT :: utf8_decode_lossy None t
        end in
      match st with
      | None => fresh
      | Some s =>
          if between (u_lower s) (u_upper s) b then
            let cp := u_cp s * 64 + (b - 128) in
            match u_needed s with
            | S (S n) => utf8_decode_lossy (Some (mkUtf8 cp (S n) 128 191)) t
            | _ => utf16_encode cp ++ utf8_decode_lossy None t
            end
          else REPLACEMENT :: fresh
      end
  end.

(** A strict decoder: [None] on the first ill-formed sequence. *)
Fixpoint utf8_decode_strict (st : option Utf8State) (bs : bytes)
  : option jsstring :=
  match bs with
  | [] => match st with None => Some [] | Some _ => None end
  | b :: t =>
      match st with
      | None =>
          match utf8_lead b with
          | LeadUnit c => option_map (cons c) (utf8_decode_strict None t)
          | LeadState s => utf8_decode_strict (Some s) t
          | LeadInvalid => None
          end
      | Some s =>
          if between (u_lower s) (u_upper s) b then
            let cp := u_cp s * 64 + (b - 128) in
            match u_needed s with
            | S (S n) => utf8_decode_strict (Some (mkUtf8 cp (S n) 128 191)) t
            | _ => option_map (app (utf16_encode cp)) (utf8_decode_strict None t)
            end
          else None
      end
  end.

(** Well-formed UTF-8. *)
Definition utf8_valid (bs : bytes) : bool :=
  match utf8_decode_strict None bs with Some _ => true | None => false end.

(** [Buffer.prototype.toString("utf-8")].  It has no failing case. *)
Definition Buffer_toString_utf8 (b : bytes) : Res jsstring :=
  Ok (utf8_decode_lossy None b).

Definition base64_digit (n : N) : N :=
  if n <? 26 then 65 + n
  else if n <? 52 then 71 + n
  else if n <? 62 then n - 4
  else if n =? 62 then 43 else 47.

Definition PAD : N := 61.

(** [buf.toString("base64")] *)
Fixpoint Buffer_toString_base64 (bs : bytes) : jsstring :=
  match bs with
  | [] => []
  | [a] => [base64_digit (a / 4); base64_digit ((a mod 4) * 16); PAD; PAD]
  | [a; b] =>
      [base64_digit (a / 4); base64_digit ((a mod 4) * 16 + b / 16);
       base64_digit ((b mod 16) * 4); PAD]
  | a :: b :: c :: t =>
      base64_digit (a / 4) :: base64_digit ((a mod 4) * 16 + b / 16)
      :: base64_digit ((b mod 16) * 4 + c / 64) :: base64_digit (c mod 64)
      :: Buffer_toString_base64 t
  end.

(** utils.ts *)
Definition isValidUtf8 (buffer : bytes) : bool :=
  match Buffer_toString_utf8 buffer with
  | Ok _ => true
  | Throw _ => false
  end.

Definition encodeBase64 (content : bytes) : jsstring :=
  Buffer_toString_base64 content.

(** ** encodeURIComponent and decodeURIComponent *)

Definition hex_digit (n : N) : N := if n <? 10 then 48 + n else 55 + n.

Definition hex_value (c : N) : option N :=
  if is_digit c then Some (c - 48)
  else if between 65 70 c then Some (c - 55)
  else if between 97 102 c then Some (c - 87)
  else None.

(** ParseHexOctet *)
Definition parse_hex_octet (h l : N) : option N :=
  match hex_value h, hex_value l with
  | Some a, Some b => Some (a * 16 + b)
  | _, _ => None
  end.

Definition percent_octet (b : N) : jsstring :=
  [PERCENT; hex_digit (b / 16); hex_digit (b mod 16)].

Definition percent_octets (bs : bytes) : jsstring :=
  flat_map percent_octet bs.

(** uriUnescaped: letters, digits and the marks [-_.!~*'()]. *)
Definition uri_unescaped (c : N) : bool :=
  is_alnum c || (c =? 45) || (c =? 95) || (c =? 46) || (c =? 33)
  || (c =? 126) || (c =? 42) || (c =? 39) || (c =? 40) || (c =? 41).

(** Encode of ECMAScript with the unescaped set of encodeURIComponent;
    [None] is the URIError of an unpaired surrogate. *)
Fixpoint uri_encode (s : jsstring) : option jsstring :=
  match s with
  | [] => Some []
  | c :: t =>
      if uri_unescaped c then option_map (cons c) (uri_encode t)
      else if is_high_surrogate c then
        match t with
        | d :: t' =>
            if is_low_surrogate d then
              option_map (app (percent_octets (utf8_encode (utf16_pair c d))))
                         (uri_encode t')
            else None
        | [] => None
        end
      else if is_low_surrogate c then None
      else option_map (app (percent_octets (utf8_encode c))) (uri_encode t)
  end.

Definition uri_malformed : JsError := mkError URIError (js "URI malformed").

Definition encodeURIComponent (s : jsstring) : Res jsstring :=
  match uri_encode s with
  | Some r => Ok r
  | None => Throw uri_malformed
  end.

(** Decode of ECMAScript with an empty set of preserved escapes.  Between the
    escapes of one multi-octet sequence the decoder carries the UTF-8 state;
    [None] is the URIError. *)
Fixpoint uri_decode (st : option Utf8State) (s : jsstring) : option jsstring :=
  match st, s with
  | None, [] => Some []
  | Some _, [] => None
  | None, c :: t =>
      if c =? PERCENT then
        match t with
        | h :: l :: r =>
            match parse_hex_octet h l with
            | None => None
            | Some b =>
                match utf8_lead b with
                | LeadUnit u => option_map (cons u) (uri_decode None r)
                | LeadState s' => uri_decode (Some s') r
                | LeadInvalid => None
                end
            end
        | _ => None
        end
      else option_map (cons c) (uri_decode None t)
  | Some u, c :: t =>
      if c =? PERCENT then
        match t with
        | h :: l :: r =>
            match parse_hex_octet h l with
            | None => None
            | Some b =>
                if between (u_lower u) (u_upper u) b then
                  let cp := u_cp u * 64 + (b - 128) in
                  match u_needed u with
                  | S (S n) => uri_decode (Some (mkUtf8 cp (S n) 128 191)) r
                  | _ => option_map (app (utf16_encode cp)) (uri_decode None r)
                  end
                else None
            end
        | _ => None
        end
      else None
  end.

Definition decodeURIComponent (s : jsstring) : Res jsstring :=
  match uri_decode None s with
  | Some r => Ok r
  | None => Throw uri_malformed
  end.

(** [.replace(/%2F/g, "/")]: [skip] counts the units of a match still to be
    passed over. *)
Fixpoint replace_escaped_slashes (skip : nat) (s : jsstring) : jsstring :=
  match s with
  | [] => []
  | c :: t =>
      match skip with
      | S k => replace_escaped_slashes k t
      | O =>
          if startsWith (js "%2F") s
          then SLASH :: replace_escaped_slashes 2 t
          else c :: replace_escaped_slashes 0 t
      end
  end.

Definition unescape_slashes (s : jsstring) : jsstring :=
  replace_escaped_slashes 0 s.

(** ** Values of the YAML header *)

(** The largest integer below which every integer is a Number and prints
    with all its digits: 2^53 - 1. *)
Definition MAX_SAFE_INTEGER : Z := 9007199254740991.

Definition is_safe_integer (z : Z) : bool :=
  (Z.abs z <=? MAX_SAFE_INTEGER)%Z.

(** Numbers as the header can hold them.  The parser sees a number through
    ToBoolean and String only: a safe integer is held by its value (zero
    stands for both zeros), any other finite number (a fraction, or an
    integer beyond the safe range, which prints rounded or in exponent form)
    by the text String gives for it; such a number is not zero. *)
Inductive JsNumber :=
| NumInt (z : Z) (safe : is_safe_integer z = true)
| NumNaN
| NumInfinity (negative : bool)
| NumOther (text : jsstring).

(** What [yaml.load] can return.  [JObj] is a plain object, its prototype
    Object.prototype, with its own properties in the order of
    Object.entries, the values never functions; [JOther] is an object of
    another class (the Date of a timestamp, the typed array of binary
    data): String gives [text], Object.entries gives [entries], and none of
    the keys the parser reads is a property of it. *)
Inductive JsValue :=
| JUndefined
| JNull
| JBool (b : bool)
| JNum (n : JsNumber)
| JStr (s : jsstring)
| JArr (items : list JsValue)
| JObj (props : list (jsstring * JsValue))
| JOther (text : jsstring) (entries : list (jsstring * JsValue)).

Fixpoint uint_digits (d : Decimal.uint) : jsstring :=
  match d with
  | Decimal.Nil => []
  | Decimal.D0 r => 48 :: uint_digits r
  | Decimal.D1 r => 49 :: uint_digits r
  | Decimal.D2 r => 50 :: uint_digits r
  | Decimal.D3 r => 51 :: uint_digits r
  | Decimal.D4 r => 52 :: uint_digits r
  | Decimal.D5 r => 53 :: uint_digits r
  | Decimal.D6 r => 54 :: uint_digits r
  | Decimal.D7 r => 55 :: uint_digits r
  | Decimal.D8 r => 56 :: uint_digits r
  | Decimal.D9 r => 57 :: uint_digits r
  end.

Definition N_toString (n : N) : jsstring := uint_digits (N.to_uint n).

Definition Number_toString (n : JsNumber) : jsstring :=
  match n with
  | NumInt z _ =>
      if (z <? 0)%Z then HYPHEN :: N_toString (Z.abs_N z)
      else N_toString (Z.abs_N z)
  | NumNaN => js "NaN"
  | NumInfinity false => js "Infinity"
  | NumInfinity true => js "-Infinity"
  | NumOther text => text
  end.

(** ToBoolean *)
Definition truthy (v : JsValue) : bool :=
  match v with
  | JUndefined | JNull => false
  | JBool b => b
  | JNum (NumInt z _) => negb (z =? 0)%Z
  | JNum NumNaN => false
  | JNum (NumInfinity _) => true
  | JNum (NumOther _) => true
  | JStr s => match s with [] => false | _ => true end
  | JArr _ | JObj _ | JOther _ _ => true
  end.

(** [a || b] *)
Definition js_or (a b : JsValue) : JsValue := if truthy a then a else b.

(** The object has a property of its own under [key]. *)
Definition has_own_property (key : jsstring)
  (props : list (jsstring * JsValue)) : bool :=
  existsb (fun '(k, _) => jsstring_eqb k key) props.

(** The TypeError of a conversion that finds no method to call. *)
Definition conversion_error : JsError :=
  mkError TypeError (js "Cannot convert object to primitive value").

(** [String(v)].  An array joins the texts of its elements, nothing for
    [undefined] and [null].  A plain object is converted by the method found
    under [toString]: that of Object.prototype, unless the object has a
    property of its own there, whose value is no function; then [valueOf]
    gives no primitive value either and the conversion throws. *)
Fixpoint ToString (v : JsValue) : Res jsstring :=
  match v with
  | JUndefined => Ok (js "undefined")
  | JNull => Ok (js "null")
  | JBool true => Ok (js "true")
  | JBool false => Ok (js "false")
  | JNum n => Ok (Number_toString n)
  | JStr s => Ok s
  | JArr items =>
      res_bind
        ((fix elements (l : list JsValue) : Res (list jsstring) :=
            match l with
            | [] => Ok []
            | x :: rest =>
                res_bind (match x with
                          | JUndefined | JNull => Ok []
                          | _ => ToString x
                          end)
                  (fun text =>
                     res_bind (elements rest) (fun texts => Ok (text :: texts)))
            end) items)
        (fun texts => Ok (join [COMMA] texts))
  | JObj props =>
      if has_own_property (js "toString") props then Throw conversion_error
      else Ok (js "[object Object]")
  | JOther text _ => Ok text
  end.

(** [typeof v] *)
Definition typeof (v : JsValue) : jsstring :=
  match v with
  | JUndefined => js "undefined"
  | JBool _ => js "boolean"
  | JNum _ => js "number"
  | JStr _ => js "string"
  | JNull | JArr _ | JObj _ | JOther _ _ => js "object"
  end.

Fixpoint lookup_prop (key : jsstring) (props : list (jsstring * JsValue))
  : JsValue :=
  match props with
  | [] => JUndefined
  | (k, v) :: rest => if jsstring_eqb k key then v else lookup_prop key rest
  end.

(** [data[key]] for the keys the parser reads. *)
Definition get_prop (data : JsValue) (key : jsstring) : JsValue :=
  match data with
  | JObj props => lookup_prop key props
  | _ => JUndefined
  end.

(** [Object.entries(data)] *)
Definition Object_entries (data : JsValue) : list (jsstring * JsValue) :=
  match data with
  | JObj props => props
  | JArr items =>
      List.map (fun '(i, v) => (N_toString (N.of_nat i), v))
               (combine (seq 0 (List.length items)) items)
  | JOther _ entries => entries
  | _ => []
  end.

(** ** The front matter pattern

    The pattern is: start of input, three hyphens, white space, a line
    feed, a lazy group of any units, a line feed, three hyphens, white space,
    a line feed, and a greedy group of any units.  The functions below are
    the backtracking matcher run on it. *)

(** White space and a line feed before a part that always matches: the greedy star stops at the
    last line feed of the white space. *)
Fixpoint greedy_space_lf (s : jsstring) : option jsstring :=
  match s with
  | [] => None
  | c :: t =>
      if is_js_space c then
        match greedy_space_lf t with
        | Some r => Some r
        | None => if c =? LF then Some t else None
        end
      else None
  end.

(** The closing marker line and the greedy group, anchored at the head of
    [s]. *)
Definition closing_marker (s : jsstring) : option jsstring :=
  if startsWith (LF :: js "---") s then greedy_space_lf (skipn 4 s) else None.

(** The lazy group followed by the closing marker: the lazy star grows one
    unit at a time. *)
Fixpoint lazy_header (s : jsstring) : option (jsstring * jsstring) :=
  match closing_marker s with
  | Some body => Some ([], body)
  | None =>
      match s with
      | [] => None
      | c :: t =>
          match lazy_header t with
          | Some (fm, body) => Some (c :: fm, body)
          | None => None
          end
      end
  end.

(** White space and a line feed followed by the rest of the pattern: the longest white space
    first, then shorter ones. *)
Fixpoint opening_space (s : jsstring) : option (jsstring * jsstring) :=
  match s with
  | [] => None
  | c :: t =>
      if is_js_space c then
        match opening_space t with
        | Some r => Some r
        | None => if c =? LF then lazy_header t else None
        end
      else None
  end.

(** [FRONT_MATTER_PATTERN.exec(content)]: the two groups. *)
Definition FRONT_MATTER_PATTERN_exec (content : jsstring)
  : option (jsstring * jsstring) :=
  if startsWith (js "---") content then opening_space (skipn 3 content)
  else None.

(** ** parseSkillMd *)

Record SkillMetadata := mkMetadata {
  name : jsstring;
  description : jsstring;
  license : option jsstring;
  allowedTools : list jsstring;
  extra : list (jsstring * JsValue);
}.

Record ParsedSkillMd := mkParsed {
  parsed_metadata : SkillMetadata;
  parsed_body : jsstring;
}.

Definition SKILL_MARKDOWN : jsstring := js "SKILL.md".

Definition validation_error (msg : jsstring) : JsError :=
  mkError SkillValidationError msg.

(** [filePath || "SKILL.md"] *)
Definition source_label (filePath : option jsstring) : jsstring :=
  match filePath with
  | Some (c :: p) => c :: p
  | _ => SKILL_MARKDOWN
  end.

Definition nonempty (s : jsstring) : bool :=
  match s with [] => false | _ => true end.

(** [items.map(f)] for an [f] that may throw. *)
Fixpoint Array_map {A B} (f : A -> Res B) (items : list A) : Res (list B) :=
  match items with
  | [] => Ok []
  | item :: rest =>
      res_bind (f item) (fun b =>
      res_bind (Array_map f rest) (fun bs => Ok (b :: bs)))
  end.

Definition parse_allowed_tools (allowed : JsValue) : Res (list jsstring) :=
  match allowed with
  | JStr s => Ok (List.filter nonempty (List.map trim (split COMMA s)))
  | JArr items =>
      res_bind
        (Array_map (fun item => res_bind (ToString item)
                                  (fun text => Ok (trim text))) items)
        (fun texts => Ok (List.filter nonempty texts))
  | _ => Ok []
  end.

Definition known_keys : list jsstring :=
  [js "name"; js "description"; js "license"; js "allowed-tools";
   js "allowed_tools"].

(** The properties of [extra] after the loop.  An assignment under the key
    [__proto__] reaches the setter of Object.prototype and adds no property
    to the object. *)
Definition collect_extra (data : JsValue) : list (jsstring * JsValue) :=
  List.filter (fun '(key, _) =>
                 negb (existsb (jsstring_eqb key) known_keys)
                 && negb (jsstring_eqb key (js "__proto__")))
              (Object_entries data).

(** An entry of [zip.files]: the directory flag and what [async] yields. *)
Record ZipObject := mkZipObject {
  zip_dir : bool;
  zip_async : Res bytes;
}.

(** [zip.files], in the order of [Object.keys]. *)
Abbreviation ZipFiles := (list (jsstring * ZipObject)).

(** The libraries the program loads. *)
Class Libraries := {
  (** [yaml.load] of js-yaml *)
  yaml_load : jsstring -> Res JsValue;
  (** [JSZip.loadAsync] *)
  JSZip_loadAsync : bytes -> Res ZipFiles;
}.

Section Parser.
Context {L : Libraries}.

Definition parseSkillMd (content : jsstring) (filePath : option jsstring)
  : Res ParsedSkillMd :=
  let label := source_label filePath in
  match FRONT_MATTER_PATTERN_exec content with
  | None =>
      Throw (validation_error
        (label ++ js " must begin with YAML front matter delimited by '---'."))
  | Some (frontMatter, body) =>
      match yaml_load frontMatter with
      | Throw error =>
          Throw (validation_error
            (js "Unable to parse YAML in " ++ label ++ js ": "
             ++ error_toString error))
      | Ok loaded =>
          let data := js_or loaded (JObj []) in
          match data with
          | JObj _ | JArr _ | JOther _ _ =>
              res_bind (ToString (js_or (get_prop data (js "name")) (JStr [])))
                (fun nameText =>
              let name := trim nameText in
              res_bind
                (ToString (js_or (get_prop data (js "description")) (JStr [])))
                (fun descriptionText =>
              let description := trim descriptionText in
              if negb (nonempty name) then
                Throw (validation_error
                  (js "Front matter in " ++ label ++ js " is missing 'name'."))
              else if negb (nonempty description) then
                Throw (validation_error
                  (js "Front matter in " ++ label
                   ++ js " is missing 'description'."))
              else
                let allowed :=
                  js_or (get_prop data (js "allowed-tools"))
                    (js_or (get_prop data (js "allowed_tools"))
                       (js_or (get_prop data (js "allowed-tools")) (JArr []))) in
                res_bind (parse_allowed_tools allowed) (fun allowedTools =>
                let extra := collect_extra data in
                let lic := get_prop data (js "license") in
                res_bind
                  (if truthy lic
                   then res_bind (ToString lic)
                          (fun text => Ok (Some (trim text)))
                   else Ok None)
                  (fun license =>
                Ok (mkParsed
                      (mkMetadata name description license allowedTools extra)
                      (trimStart body))))))
          | _ =>
              Throw (validation_error
                (js "Front matter in " ++ label
                 ++ js " must define a mapping, not " ++ typeof data ++ js "."))
          end
      end
  end.

End Parser.

(** ** The file system and the effects of a call *)

Inductive FileKind := IsFile | IsDirectory | IsOther.

(** What the [fs] calls of the program answer. *)
Record FileSystem := mkFileSystem {
  fs_existsSync : jsstring -> bool;
  fs_statSync : jsstring -> Res FileKind;
  fs_readFileSync : jsstring -> Res bytes;
  fs_readdirSync : jsstring -> Res (list jsstring);
}.

(** File-system and archive accesses, in the order they are made. *)
Inductive Event :=
| EvExists (p : jsstring)
| EvStat (p : jsstring)
| EvReadFile (p : jsstring)
| EvReaddir (p : jsstring)
| EvZipOpen
| EvZipRead (member : jsstring).

Inductive Outcome (A : Type) :=
| Returned (a : A)
| Raised (e : JsError)
| OutOfFuel.
Arguments Returned {A} a.
Arguments Raised {A} e.
Arguments OutOfFuel {A}.

(** An effectful call: the accesses it makes and how it ends. *)
Definition IO (A : Type) : Type := list Event * Outcome A.

Definition ret {A} (a : A) : IO A := ([], Returned a).
Definition raise {A} (e : JsError) : IO A := ([], Raised e).
Definition out_of_fuel {A} : IO A := ([], OutOfFuel).

Definition bind {A B} (m : IO A) (k : A -> IO B) : IO B :=
  match m with
  | (t, Returned a) => let '(t', r) := k a in (t ++ t', r)
  | (t, Raised e) => (t, Raised e)
  | (t, OutOfFuel) => (t, OutOfFuel)
  end.

(** [try { m } catch (error) { handler }] *)
Definition try_catch {A} (m : IO A) (handler : JsError -> IO A) : IO A :=
  match m with
  | (t, Raised e) => let '(t', r) := handler e in (t ++ t', r)
  | _ => m
  end.

Definition lift {A} (ev : Event) (r : Res A) : IO A :=
  match r with
  | Ok a => ([ev], Returned a)
  | Throw e => ([ev], Raised e)
  end.

Definition pure_call {A} (r : Res A) : IO A :=
  match r with
  | Ok a => ret a
  | Throw e => raise e
  end.

Declare Scope io_scope.
Delimit Scope io_scope with io.
Notation "x <- m ;; k" := (bind m (fun x => k))
  (at level 90, m at next level, right associativity) : io_scope.
Notation "m ;;; k" := (bind m (fun _ => k))
  (at level 90, right associativity) : io_scope.
Local Open Scope io_scope.

Section Effects.
Variable fs : FileSystem.

(** utils.ts: the wrappers around [fs]. *)
Definition existsSync (p : jsstring) : IO bool :=
  ([EvExists p], Returned (fs_existsSync fs p)).

Definition isDirectory (p : jsstring) : IO bool :=
  k <- lift (EvStat p) (fs_statSync fs p) ;;
  ret (match k with IsDirectory => true | _ => false end).

Definition isFile (p : jsstring) : IO bool :=
  k <- lift (EvStat p) (fs_statSync fs p) ;;
  ret (match k with IsFile => true | _ => false end).

Definition readFileBytesSync (p : jsstring) : IO bytes :=
  lift (EvReadFile p) (fs_readFileSync fs p).

(** [fs.readFileSync(p, "utf-8")] *)
Definition readFileSync (p : jsstring) : IO jsstring :=
  b <- readFileBytesSync p ;; ret (utf8_decode_lossy None b).

Definition readdirSync (p : jsstring) : IO (list jsstring) :=
  lift (EvReaddir p) (fs_readdirSync fs p).

(** [existsSync(p) && isFile(p)] *)
Definition exists_and_isFile (p : jsstring) : IO bool :=
  e <- existsSync p ;; if e then isFile p else ret false.

End Effects.

(** ** Paths, sorting and file types *)

(** Code-unit order, the default order of [Array.prototype.sort]. *)
Fixpoint str_leb (a b : jsstring) : bool :=
  match a, b with
  | [], _ => true
  | _ :: _, [] => false
  | x :: a', y :: b' =>
      if x <? y then true else if y <? x then false else str_leb a' b'
  end.

Fixpoint sort_insert (x : jsstring) (l : list jsstring) : list jsstring :=
  match l with
  | [] => [x]
  | y :: l' => if str_leb x y then x :: l else y :: sort_insert x l'
  end.

(** [entries.sort()] *)
Fixpoint Array_sort (l : list jsstring) : list jsstring :=
  match l with
  | [] => []
  | x :: l' => sort_insert x (Array_sort l')
  end.

Fixpoint drop_slashes (s : jsstring) : jsstring :=
  match s with
  | [] => []
  | c :: t => if c =? SLASH then drop_slashes t else s
  end.

(** The suffix of [s] that starts at its last dot. *)
Fixpoint from_last_dot (s : jsstring) : option jsstring :=
  match s with
  | [] => None
  | c :: t =>
      match from_last_dot t with
      | Some e => Some e
      | None => if c =? DOT then Some s else None
      end
  end.

(** [path.extname] (POSIX): the extension of the last component; a component
    that only starts with its dot, or is [..], has none. *)
Definition path_extname (p : jsstring) : jsstring :=
  let comp := List.last (split SLASH (rev (drop_slashes (rev p)))) [] in
  match from_last_dot comp with
  | None => []
  | Some e =>
      if (List.length e =? List.length comp)%nat then []
      else if jsstring_eqb comp [DOT; DOT] then []
      else e
  end.

Definition mimeTypes : list (jsstring * jsstring) :=
  [ (js ".txt", js "text/plain"); (js ".md", js "text/markdown");
    (js ".py", js "text/x-python"); (js ".js", js "text/javascript");
    (js ".ts", js "text/typescript"); (js ".json", js "application/json");
    (js ".yaml", js "text/yaml"); (js ".yml", js "text/yaml");
    (js ".xml", js "text/xml"); (js ".html", js "text/html");
    (js ".css", js "text/css"); (js ".sh", js "application/x-sh");
    (js ".bin", js "application/octet-stream");
    (js ".dat", js "application/octet-stream"); (js ".png", js "image/png");
    (js ".jpg", js "image/jpeg"); (js ".jpeg", js "image/jpeg");
    (js ".gif", js "image/gif"); (js ".svg", js "image/svg+xml");
    (js ".pdf", js "application/pdf") ].

Fixpoint table_lookup (key : jsstring) (t : list (jsstring * jsstring))
  : option jsstring :=
  match t with
  | [] => None
  | (k, v) :: rest => if jsstring_eqb k key then Some v else table_lookup key rest
  end.

Section FileTypes.
Context {H : Host}.

Definition detectMimeType (filePath : jsstring) : option jsstring :=
  table_lookup (toLowerCase (path_extname filePath)) mimeTypes.

Definition isZipFile (filePath : jsstring) : bool :=
  let ext := toLowerCase (path_extname filePath) in
  jsstring_eqb ext (js ".zip") || jsstring_eqb ext (js ".skill").

End FileTypes.

(** ** Skills and the registry *)

Record Skill := mkSkill {
  slug : jsstring;
  directory : jsstring;
  instructionsPath : jsstring;
  metadata : SkillMetadata;
  resources : list jsstring;
  zipPath : option jsstring;
  zipRootPrefix : option jsstring;
}.

(** The two [Map] indexes of [SkillRegistry]. *)
Record SkillRegistry := mkRegistry {
  root : jsstring;
  skillsBySlug : gmap jsstring Skill;
  skillsByName : gmap jsstring Skill;
}.

(** [registry.skills] *)
Definition skills (reg : SkillRegistry) : list Skill :=
  (map_to_list (skillsBySlug reg)).*2.

(** [map.has(key)] *)
Definition Map_has (m : gmap jsstring Skill) (key : jsstring) : bool :=
  match m !! key with Some _ => true | None => false end.

(** The two [set] calls that end a registration. *)
Definition register (reg : SkillRegistry) (skill : Skill) : SkillRegistry :=
  mkRegistry (root reg)
    (<[slug skill := skill]> (skillsBySlug reg))
    (<[name (metadata skill) := skill]> (skillsByName reg)).

(** A [for (const x of l)] loop over a state. *)
Fixpoint for_of {A S : Type} (l : list A) (loop_body : A -> S -> IO S) (s : S)
  : IO S :=
  match l with
  | [] => ret s
  | x :: rest => s' <- loop_body x s ;; for_of rest loop_body s'
  end.

(** [zip.files[member]] *)
Fixpoint zip_file (zip : ZipFiles) (member : jsstring) : option ZipObject :=
  match zip with
  | [] => None
  | (k, o) :: rest => if jsstring_eqb k member then Some o else zip_file rest member
  end.

(** The names of the entries that are not directories. *)
Definition zip_file_names (zip : ZipFiles) : list jsstring :=
  List.map fst (List.filter (fun '(_, o) => negb (zip_dir o)) zip).

(** [files.includes(member)] *)
Definition Array_includes (l : list jsstring) (x : jsstring) : bool :=
  existsb (jsstring_eqb x) l.

(** [set.add(x)] on a [Set] kept in insertion order. *)
Definition Set_add (x : jsstring) (set : list jsstring) : list jsstring :=
  if Array_includes set x then set else set ++ [x].

(** The first path segment of every entry name that holds a slash. *)
Definition topLevelDirs (zip : ZipFiles) : list jsstring :=
  fold_left
    (fun set entry_name =>
       if includes [SLASH] entry_name
       then Set_add (hd [] (split SLASH entry_name)) set
       else set)
    (List.map fst zip) [].

(** Where [tryRegisterZipSkill] finds SKILL.md: the member and the root
    prefix, or nothing. *)
Definition locate_skill_md (zip : ZipFiles) : option (jsstring * jsstring) :=
  let files := zip_file_names zip in
  if Array_includes files SKILL_MARKDOWN then Some (SKILL_MARKDOWN, [])
  else
    match topLevelDirs zip with
    | [topDir] =>
        let candidate := topDir ++ [SLASH] ++ SKILL_MARKDOWN in
        if Array_includes files candidate
        then Some (candidate, topDir ++ [SLASH])
        else None
    | _ => None
    end.

Definition type_error : JsError :=
  mkError TypeError (js "Cannot read properties of undefined").

Section Registry.
Context {H : Host} {L : Libraries}.
Variable fs : FileSystem.

(** utils.ts [getAllFiles]; the recursion of [traverse] is bounded by
    [fuel]. *)
Fixpoint traverse (fuel : nat) (exclude : jsstring -> bool)
  (currentPath : jsstring) (files : list jsstring) : IO (list jsstring) :=
  match fuel with
  | O => out_of_fuel
  | S n =>
      entries <- readdirSync fs currentPath ;;
      for_of entries
        (fun entry files =>
           let fullPath := path_join currentPath entry in
           if exclude fullPath then ret files
           else
             d <- isDirectory fs fullPath ;;
             if d then traverse n exclude fullPath files
             else
               f <- isFile fs fullPath ;;
               ret (if f then files ++ [fullPath] else files))
        files
  end.

Definition getAllFiles (fuel : nat) (dirPath : jsstring)
  (exclude : jsstring -> bool) : IO (list jsstring) :=
  traverse fuel exclude dirPath [].

Definition collectResources (fuel : nat) (directory : jsstring)
  : IO (list jsstring) :=
  let skillMdPath := path_join directory SKILL_MARKDOWN in
  getAllFiles fuel directory (fun filePath => jsstring_eqb filePath skillMdPath).

Definition registerDirSkill (fuel : nat) (reg : SkillRegistry)
  (directory skillMdPath : jsstring) : IO SkillRegistry :=
  try_catch
    (content <- readFileSync fs skillMdPath ;;
     parsed <- pure_call (parseSkillMd content (Some skillMdPath)) ;;
     let metadata := parsed_metadata parsed in
     let slug := slugify (name metadata) in
     if Map_has (skillsBySlug reg) slug then ret reg
     else if Map_has (skillsByName reg) (name metadata) then ret reg
     else
       resources <- collectResources fuel directory ;;
       ret (register reg
              (mkSkill slug (path_resolve directory) (path_resolve skillMdPath)
                       metadata resources None None)))
    (fun _ => ret reg).

Definition tryRegisterZipSkill (reg : SkillRegistry) (zipPath : jsstring)
  : IO SkillRegistry :=
  try_catch
    (zipData <- readFileBytesSync fs zipPath ;;
     zip <- lift EvZipOpen (JSZip_loadAsync zipData) ;;
     match locate_skill_md zip with
     | None => ret reg
     | Some (skillMdPath, zipRootPrefix) =>
         skillMdFile <- pure_call (match zip_file zip skillMdPath with
                                   | Some o => Ok o
                                   | None => Throw type_error
                                   end) ;;
         skillMdBytes <- lift (EvZipRead skillMdPath) (zip_async skillMdFile) ;;
         let skillMdText := utf8_decode_lossy None skillMdBytes in
         parsed <- pure_call (parseSkillMd skillMdText (Some skillMdPath)) ;;
         let metadata := parsed_metadata parsed in
         let slug := slugify (name metadata) in
         if Map_has (skillsBySlug reg) slug then ret reg
         else if Map_has (skillsByName reg) (name metadata) then ret reg
         else
           ret (register reg
                  (mkSkill slug (path_resolve (path_dirname zipPath))
                           (path_resolve zipPath) metadata []
                           (Some (path_resolve zipPath)) (Some zipRootPrefix)))
     end)
    (fun _ => ret reg).

(** The first loop of [scanDirectory]: the subdirectories. *)
Definition scan_subdirectories
  (scan : SkillRegistry -> jsstring -> IO SkillRegistry)
  (directory : jsstring) (entries : list jsstring) (reg : SkillRegistry)
  : IO SkillRegistry :=
  for_of entries
    (fun entry reg =>
       let fullPath := path_join directory entry in
       d <- isDirectory fs fullPath ;;
       if d then scan reg fullPath else ret reg)
    reg.

(** The second loop of [scanDirectory]: the archives. *)
Definition scan_archives (directory : jsstring) (entries : list jsstring)
  (reg : SkillRegistry) : IO SkillRegistry :=
  for_of entries
    (fun entry reg =>
       let fullPath := path_join directory entry in
       f <- exists_and_isFile fs fullPath ;;
       if f && isZipFile fullPath then tryRegisterZipSkill reg fullPath
       else ret reg)
    reg.

Fixpoint scanDirectory (fuel : nat) (reg : SkillRegistry) (directory : jsstring)
  : IO SkillRegistry :=
  match fuel with
  | O => out_of_fuel
  | S n =>
      let skillMdPath := path_join directory SKILL_MARKDOWN in
      is_skill <- exists_and_isFile fs skillMdPath ;;
      if is_skill then registerDirSkill n reg directory skillMdPath
      else
        listing <- try_catch
                     (entries <- readdirSync fs directory ;; ret (Some entries))
                     (fun _ => ret None) ;;
        match listing with
        | None => ret reg
        | Some entries =>
            let sorted := Array_sort entries in
            reg' <- scan_subdirectories (scanDirectory n) directory sorted reg ;;
            scan_archives directory sorted reg'
        end
  end.

Definition load (fuel : nat) (reg : SkillRegistry) : IO SkillRegistry :=
  e <- existsSync fs (root reg) ;;
  ok <- (if e then isDirectory fs (root reg) else ret false) ;;
  if negb ok then
    raise (mkError SkillError
             (js "Skills root " ++ root reg
              ++ js " does not exist or is not a directory."))
  else
    let cleared := mkRegistry (root reg) ∅ ∅ in
    scanDirectory fuel cleared (path_resolve (root reg)).

(** [registry.get(slug)] *)
Definition registry_get (reg : SkillRegistry) (key : jsstring) : Res Skill :=
  match skillsBySlug reg !! key with
  | Some skill => Ok skill
  | None =>
      Throw (mkError SkillError (js "Unknown skill '" ++ key ++ js "'"))
  end.

(** [registry.has(slug)] *)
Definition registry_has (reg : SkillRegistry) (key : jsstring) : bool :=
  Map_has (skillsBySlug reg) key.

End Registry.

(** ** Resources *)

Definition URI_PREFIX : jsstring := js "resource://skillz/".

(** What [fetchResource] resolves to. *)
Record Resource := mkResource {
  r_uri : jsstring;
  r_name : jsstring;
  r_mimeType : option jsstring;
  r_content : jsstring;
  r_encoding : jsstring;
}.

Definition buildResourceUri (skill : Skill) (relativePath : jsstring)
  : Res jsstring :=
  res_bind (encodeURIComponent (slug skill)) (fun encodedSlug =>
  res_bind (encodeURIComponent relativePath) (fun encoded =>
  let encodedPath := unescape_slashes encoded in
  Ok (URI_PREFIX ++ encodedSlug ++ [SLASH] ++ encodedPath))).

Definition getResourceName (skill : Skill) (relativePath : jsstring)
  : jsstring :=
  slug skill ++ [SLASH] ++ relativePath.

Definition makeErrorResource (resourceUri message : jsstring) : Resource :=
  let name :=
    if startsWith URI_PREFIX resourceUri then
      match slice_from (List.length URI_PREFIX) resourceUri with
      | [] => js "invalid resource"
      | pathPart => pathPart
      end
    else js "invalid resource" in
  mkResource resourceUri name (Some (js "text/plain"))
             (js "Error: " ++ message) (js "utf-8").

(** The slug segment and the path remainder that [fetchResource] splits a
    remainder into: [parts[0]] and [parts.slice(1).join("/")], when the
    format checks pass. *)
Definition split_remainder (remainder : jsstring)
  : option (jsstring * jsstring) :=
  match remainder with
  | [] => None
  | _ =>
      let parts := split SLASH remainder in
      let rest := join [SLASH] (tl parts) in
      if (List.length parts <? 2)%nat || negb (nonempty (hd [] parts))
         || negb (nonempty rest)
      then None
      else Some (hd [] parts, rest)
  end.

Definition PATH_TRAVERSAL : jsstring :=
  js "invalid path: path traversal not allowed".

(** [skill.zipPath] when it is set and not empty. *)
Definition zip_backed (skill : Skill) : option jsstring :=
  match zipPath skill with
  | Some (c :: p) => Some (c :: p)
  | _ => None
  end.

(** [skill.zipRootPrefix ? skill.zipRootPrefix + rel : rel] *)
Definition zip_member_path (skill : Skill) (rel : jsstring) : jsstring :=
  match zipRootPrefix skill with
  | Some (c :: p) => (c :: p) ++ rel
  | _ => rel
  end.

Section Resources.
Context {H : Host} {L : Libraries}.
Variable fs : FileSystem.

(** The body of the [try] block of [fetchResource]: the octets of the
    resource, or the error resource it returns early. *)
Definition read_resource (resourceUri : jsstring) (skill : Skill)
  (relPathStr : jsstring) : IO (Resource + bytes) :=
  match zip_backed skill with
  | Some zipPath =>
      zipData <- readFileBytesSync fs zipPath ;;
      zip <- lift EvZipOpen (JSZip_loadAsync zipData) ;;
      let zipMemberPath := zip_member_path skill relPathStr in
      match zip_file zip zipMemberPath with
      | None =>
          ret (inl (makeErrorResource resourceUri
                      (js "resource not found: " ++ relPathStr)))
      | Some file =>
          if zip_dir file then
            ret (inl (makeErrorResource resourceUri
                        (js "resource not found: " ++ relPathStr)))
          else
            data <- lift (EvZipRead zipMemberPath) (zip_async file) ;;
            ret (inr data)
      end
  | None =>
      let resourcePath := path_join (directory skill) relPathStr in
      let resolvedResourcePath := path_resolve resourcePath in
      let resolvedSkillDir := path_resolve (directory skill) in
      if negb (startsWith resolvedSkillDir resolvedResourcePath) then
        ret (inl (makeErrorResource resourceUri PATH_TRAVERSAL))
      else
        e <- existsSync fs resourcePath ;;
        f <- (if e then isFile fs resourcePath else ret false) ;;
        if negb f then
          ret (inl (makeErrorResource resourceUri
                      (js "resource not found: " ++ relPathStr)))
        else
          data <- readFileBytesSync fs resourcePath ;;
          ret (inr data)
  end.

(** [fetchResource] from the traversal check on, once the slug and the
    relative path are known. *)
Definition fetch_located (registry : SkillRegistry)
  (resourceUri slug relPathStr : jsstring) : IO Resource :=
  if includes [DOT; DOT] relPathStr || startsWith [SLASH] relPathStr then
    ret (makeErrorResource resourceUri PATH_TRAVERSAL)
  else
    match registry_get registry slug with
    | Throw _ =>
        ret (makeErrorResource resourceUri (js "skill not found: " ++ slug))
    | Ok skill =>
        read <- try_catch (read_resource resourceUri skill relPathStr)
                  (fun error =>
                     ret (inl (makeErrorResource resourceUri
                                 (js "failed to read resource: "
                                  ++ error_toString error)))) ;;
        match read with
        | inl error_resource => ret error_resource
        | inr data =>
            let mimeType := detectMimeType relPathStr in
            let '(content, encoding) :=
              if isValidUtf8 data
              then (utf8_decode_lossy None data, js "utf-8")
              else (encodeBase64 data, js "base64") in
            ret (mkResource resourceUri (getResourceName skill relPathStr)
                   mimeType content encoding)
        end
    end.

Definition fetchResource (registry : SkillRegistry) (resourceUri : jsstring)
  : IO Resource :=
  if negb (startsWith URI_PREFIX resourceUri) then
    ret (makeErrorResource resourceUri
           (js "unsupported URI prefix. Expected resource://skillz/{skill-slug}/{path}"))
  else
    let remainder := slice_from (List.length URI_PREFIX) resourceUri in
    match split_remainder remainder with
    | None => ret (makeErrorResource resourceUri (js "invalid resource URI format"))
    | Some (rawSlug, relPathStr) =>
        slug <- pure_call (decodeURIComponent rawSlug) ;;
        fetch_located registry resourceUri slug relPathStr
    end.

(** The slug and the relative path that [fetchResource] reads off a URI:
    the lines from the prefix test to [relPathStr]. *)
Definition parseResourceUri (resourceUri : jsstring)
  : Res (option (jsstring * jsstring)) :=
  if negb (startsWith URI_PREFIX resourceUri) then Ok None
  else
    match split_remainder (slice_from (List.length URI_PREFIX) resourceUri) with
    | None => Ok None
    | Some (rawSlug, relPathStr) =>
        res_bind (decodeURIComponent rawSlug) (fun slug =>
        Ok (Some (slug, relPathStr)))
    end.

End Resources.

(** ** A concrete environment

    A small host, table-driven libraries and a table-driven file system, on
    which the definitions above run. *)

Module Demo.

(** Lower case of one code unit: ASCII, Latin-1, and two letters whose
    lower case is ASCII text (U+0130 and the Kelvin sign). *)
Definition lower_unit (c : N) : jsstring :=
  if is_upper c then [c + 32]
  else if between 192 222 c && negb (c =? 215) then [c + 32]
  else if c =? 304 then [105; 775]
  else if c =? 8490 then [107]
  else [c].

Definition lower (s : jsstring) : jsstring := flat_map lower_unit s.

Fixpoint before_last_slash (s : jsstring) : option jsstring :=
  match s with
  | [] => None
  | c :: t =>
      match before_last_slash t with
      | Some d => Some (c :: d)
      | None => if c =? SLASH then Some [] else None
      end
  end.

(** Paths are kept absolute and normal, so joining is concatenation. *)
Definition host : Host := {|
  toLowerCase := lower;
  path_join := fun d e => d ++ [SLASH] ++ e;
  path_resolve := fun p => p;
  path_dirname := fun p => match before_last_slash p with
                           | Some d => d
                           | None => [DOT]
                           end;
|}.

Fixpoint table_get {A : Type} (t : list (jsstring * A)) (key : jsstring)
  : option A :=
  match t with
  | [] => None
  | (k, v) :: rest => if jsstring_eqb k key then Some v else table_get rest key
  end.

(** A library call answered from a table; inputs outside it are rejected. *)
Definition table_call {A : Type} (t : list (jsstring * A)) (input : jsstring)
  : Res A :=
  match table_get t input with
  | Some v => Ok v
  | None => Throw (mkError LibraryError (js "unsupported input"))
  end.

Definition libraries (yaml : list (jsstring * JsValue))
  (zips : list (bytes * ZipFiles)) : Libraries := {|
  yaml_load := table_call yaml;
  JSZip_loadAsync := table_call zips;
|}.

Inductive FsNode :=
| NodeFile (data : bytes)
| NodeDir (entries : list jsstring).

Definition enoent : JsError :=
  mkError SystemError (js "ENOENT: no such file or directory").

Definition file_system (t : list (jsstring * FsNode)) : FileSystem := {|
  fs_existsSync := fun p => match table_get t p with Some _ => true | None => false end;
  fs_statSync := fun p =>
    match table_get t p with
    | Some (NodeFile _) => Ok IsFile
    | Some (NodeDir _) => Ok IsDirectory
    | None => Throw enoent
    end;
  fs_readFileSync := fun p =>
    match table_get t p with
    | Some (NodeFile d) => Ok d
    | _ => Throw enoent
    end;
  fs_readdirSync := fun p =>
    match table_get t p with
    | Some (NodeDir es) => Ok es
    | _ => Throw enoent
    end;
|}.

Definition text_lines (ls : list jsstring) : jsstring := join [LF] ls.

(** SKILL.md documents and what js-yaml loads from their headers. *)
Definition header (nm descr : string) : jsstring :=
  text_lines [js "name: " ++ js nm; js "description: " ++ js descr].

Definition skill_md (nm descr : string) : jsstring :=
  text_lines [js "---"; header nm descr; js "---"; js "Body"].

Definition yaml_table : list (jsstring * JsValue) :=
  [ (header "Foo" "does foo",
     JObj [(js "name", JStr (js "Foo")); (js "description", JStr (js "does foo"))]);
    (header "foo" "again",
     JObj [(js "name", JStr (js "foo")); (js "description", JStr (js "again"))]);
    (header "Nested" "inner",
     JObj [(js "name", JStr (js "Nested")); (js "description", JStr (js "inner"))]);
    (header "Bar" "does bar",
     JObj [(js "name", JStr (js "Bar")); (js "description", JStr (js "does bar"))]);
    (header "0" "zero",
     JObj [(js "name", JNum (NumInt 0 eq_refl));
           (js "description", JStr (js "zero"))]);
    (header "{toString: 1}" "odd",
     JObj [(js "name", JObj [(js "toString", JNum (NumInt 1 eq_refl))]);
           (js "description", JStr (js "odd"))]) ].

(** An archive with a loose file at its root next to its only directory. *)
Definition archive : ZipFiles :=
  [ (js "README.txt", mkZipObject false (Ok (js "read me")));
    (js "top/", mkZipObject true (Ok []));
    (js "top/SKILL.md", mkZipObject false (Ok (skill_md "Bar" "does bar")));
    (js "top/run.py", mkZipObject false (Ok (js "print(1)"))) ].

Definition libs : Libraries := libraries yaml_table [([80; 75; 3; 4], archive)].

(** The skills root [/r]: a skill directory [a] with a nested one, a
    directory [c] that declares the slug of [a] again, and an archive. *)
Definition tree : list (jsstring * FsNode) :=
  [ (js "/r", NodeDir [js "t.zip"; js "c"; js "a"]);
    (js "/r/a", NodeDir [js "SKILL.md"; js "my file.txt"; js "logo.png"; js "sub"]);
    (js "/r/a/SKILL.md", NodeFile (skill_md "Foo" "does foo"));
    (js "/r/a/my file.txt", NodeFile (js "hello"));
    (js "/r/a/logo.png", NodeFile [255; 216; 255]);
    (js "/r/a/sub", NodeDir [js "SKILL.md"]);
    (js "/r/a/sub/SKILL.md", NodeFile (skill_md "Nested" "inner"));
    (js "/r/c", NodeDir [js "SKILL.md"]);
    (js "/r/c/SKILL.md", NodeFile (skill_md "foo" "again"));
    (js "/r/t.zip", NodeFile [80; 75; 3; 4]) ].

Definition disk : FileSystem := file_system tree.

Definition empty_registry : SkillRegistry := mkRegistry (js "/r") ∅ ∅.

(** The load of [/r]. *)
Definition loaded : IO SkillRegistry :=
  @load host libs disk 10 empty_registry.

Definition skill_foo : Skill :=
  mkSkill (js "foo") (js "/r/a") (js "/r/a/SKILL.md")
    (mkMetadata (js "Foo") (js "does foo") None [] [])
    [js "/r/a/my file.txt"; js "/r/a/logo.png"; js "/r/a/sub/SKILL.md"]
    None None.

Definition skill_bar : Skill :=
  mkSkill (js "bar") (js "/r") (js "/r/t.zip")
    (mkMetadata (js "Bar") (js "does bar") None [] []) []
    (Some (js "/r/t.zip")) (Some (js "top/")).

(** The registry that the load is to build. *)
Definition expected : SkillRegistry :=
  register (register empty_registry skill_foo) skill_bar.

End Demo.

(** ** Vocabulary of the properties *)

(** The fields of a string between its units outside [a-zA-Z0-9]. *)
Fixpoint alnum_fields (s : jsstring) : list jsstring :=
  match s with
  | [] => [[]]
  | c :: t =>
      if is_alnum c then
        match alnum_fields t with
        | w :: ws => (c :: w) :: ws
        | [] => [[c]]
        end
      else [] :: alnum_fields t
  end.

(** The words of a string: its maximal runs of letters and digits. *)
Definition alnum_words (s : jsstring) : list jsstring :=
  List.filter nonempty (alnum_fields s).

(** The slug as the specification words it: the words of the trimmed,
    lower-cased name joined by single hyphens, or the fallback. *)
Definition slugify_spec {H : Host} (value : jsstring) : jsstring :=
  match alnum_words (toLowerCase (trim value)) with
  | [] => FALLBACK_SLUG
  | ws => join [HYPHEN] ws
  end.

Definition is_slug_unit (c : N) : bool := is_lower c || is_digit c || is_hyphen c.

(** Non-empty, lower-case letters, digits and hyphens only, no hyphen at
    either end. *)
Record well_formed_slug (s : jsstring) : Prop := {
  slug_nonempty : s <> [];
  slug_units : Forall (fun c => is_slug_unit c = true) s;
  slug_first : hd HYPHEN s <> HYPHEN;
  slug_last : List.last s HYPHEN <> HYPHEN;
}.

(** A word: a non-empty run of letters and digits. *)
Definition is_word (w : jsstring) : Prop :=
  w <> [] /\ Forall (fun c => is_alnum c = true) w.

Section RegistryVocabulary.
Context {H : Host}.

(** The two indexes hold the same skills, each under its own slug and its
    own raw name, and every slug is the slug of the name. *)
Record registry_ok (reg : SkillRegistry) : Prop := {
  by_slug_key : forall k s, skillsBySlug reg !! k = Some s -> slug s = k;
  by_slug_name : forall k s,
    skillsBySlug reg !! k = Some s ->
    skillsByName reg !! name (metadata s) = Some s;
  by_name_key : forall n s,
    skillsByName reg !! n = Some s -> name (metadata s) = n;
  by_name_slug : forall n s,
    skillsByName reg !! n = Some s -> skillsBySlug reg !! slug s = Some s;
  slug_derived : forall k s,
    skillsBySlug reg !! k = Some s -> slug s = slugify (name (metadata s));
}.

(** Every skill registered in [reg] is registered unchanged in [reg']. *)
Definition retains (reg reg' : SkillRegistry) : Prop :=
  skillsBySlug reg ⊆ skillsBySlug reg' /\ skillsByName reg ⊆ skillsByName reg'.

(** A skill whose slug and raw name are both unused in [reg]. *)
Definition fresh_in (reg : SkillRegistry) (skill : Skill) : Prop :=
  skillsBySlug reg !! slug skill = None
  /\ skillsByName reg !! name (metadata skill) = None
  /\ slug skill = slugify (name (metadata skill)).

(** What one registration attempt does: nothing, or it adds one fresh skill
    that satisfies [P]. *)
Definition registers (P : Skill -> Prop) (reg reg' : SkillRegistry) : Prop :=
  reg' = reg
  \/ exists skill, fresh_in reg skill /\ P skill /\ reg' = register reg skill.

(** [reg'] is [reg] after some registrations of skills that satisfy [P]. *)
Inductive extends (P : Skill -> Prop) (reg : SkillRegistry)
  : SkillRegistry -> Prop :=
| extends_refl : extends P reg reg
| extends_step mid skill :
    extends P reg mid -> fresh_in mid skill -> P skill ->
    extends P reg (register mid skill).

End RegistryVocabulary.

Section TraversalVocabulary.
Context {H : Host} {L : Libraries}.
Variable fs : FileSystem.



End TraversalVocabulary.

(** The first path segment of an entry name. *)
Definition first_segment (entry_name : jsstring) : jsstring :=
  hd [] (split SLASH entry_name).

(** [topDir] is the first segment of every entry name that holds a slash,
    and there is such a name. *)
Definition only_top_level_dir (zip : ZipFiles) (topDir : jsstring) : Prop :=
  (exists n, In n (List.map fst zip) /\ includes [SLASH] n = true)
  /\ forall n, In n (List.map fst zip) -> includes [SLASH] n = true ->
               first_segment n = topDir.

(** All entries of the archive lie under [topDir]. *)
Definition common_top_level_dir (zip : ZipFiles) (topDir : jsstring) : Prop :=
  forall n, In n (List.map fst zip) -> startsWith (topDir ++ [SLASH]) n = true.

(** SKILL.md is a file at the root of the archive (empty prefix) or, failing
    that, a file of its only top-level directory. *)
Definition skill_md_location (zip : ZipFiles) (prefix : jsstring) : Prop :=
  (prefix = [] /\ In SKILL_MARKDOWN (zip_file_names zip))
  \/ (~ In SKILL_MARKDOWN (zip_file_names zip)
      /\ exists topDir,
           only_top_level_dir zip topDir
           /\ prefix = topDir ++ [SLASH]
           /\ In (prefix ++ SKILL_MARKDOWN) (zip_file_names zip)).

(** Code-unit order as a relation. *)
Definition str_le (a b : jsstring) : Prop := str_leb a b = true.

(** ** Vocabulary of the parser's failures *)

Definition all_space (ws : jsstring) : Prop :=
  Forall (fun c => is_js_space c = true) ws.

(** The document starts with a marker line, the header [fm], a second marker
    line, and goes on with [rest]; a marker line is three hyphens, white space
    and a line feed. *)
Definition marker_block (content fm rest : jsstring) : Prop :=
  exists ws1 ws2,
    all_space ws1 /\ all_space ws2
    /\ content = js "---" ++ ws1 ++ [LF] ++ fm ++ [LF] ++ js "---" ++ ws2
                 ++ [LF] ++ rest.

Definition is_mapping (v : JsValue) : Prop :=
  match v with JObj _ => True | _ => False end.

(** The key is absent from the mapping or has no value. *)
Definition field_missing (data : JsValue) (key : jsstring) : Prop :=
  get_prop data key = JUndefined \/ get_prop data key = JNull.

(** The text of the value is empty or white space. *)
Definition field_blank (data : JsValue) (key : jsstring) : Prop :=
  exists text, ToString (get_prop data key) = Ok text /\ trim text = [].

(** The value is one that JavaScript takes for false: no value, [false],
    zero, NaN or the empty string. *)
Definition field_falsy (data : JsValue) (key : jsstring) : Prop :=
  truthy (get_prop data key) = false.

(** What passes the test [typeof data !== "object" || data === null]. *)
Definition is_object (data : JsValue) : bool :=
  match data with
  | JObj _ | JArr _ | JOther _ _ => true
  | _ => false
  end.

(** String gives a text for the value.  It gives none for a mapping with a
    key [toString], nor for a list that holds such a mapping, directly or in
    a list inside it. *)
Definition converts (v : JsValue) : bool :=
  match ToString v with
  | Ok _ => true
  | Throw _ => false
  end.

(** The value of [allowed-tools], under either spelling. *)
Definition allowed_tools_value (data : JsValue) : JsValue :=
  js_or (get_prop data (js "allowed-tools"))
    (js_or (get_prop data (js "allowed_tools"))
       (js_or (get_prop data (js "allowed-tools")) (JArr []))).

(** String gives a text for every value of the header it is applied to: the
    name, the description, the license and the entries of a list of allowed
    tools. *)
Definition fields_convert (data : JsValue) : bool :=
  converts (get_prop data (js "name"))
  && converts (get_prop data (js "description"))
  && converts (get_prop data (js "license"))
  && match allowed_tools_value data with
     | JArr items => forallb converts items
     | _ => true
     end.

Section ParserVocabulary.
Context {L : Libraries}.

(** The header of the document, when it has one that loads, holds only
    values that String converts where the parser applies it. *)
Definition header_converts (content : jsstring) : bool :=
  match FRONT_MATTER_PATTERN_exec content with
  | Some (frontMatter, _) =>
      match yaml_load frontMatter with
      | Ok loaded => fields_convert loaded
      | Throw _ => true
      end
  | None => true
  end.

(** When the parser must fail, with [unusable] saying which values of [name]
    and [description] are not accepted. *)
Definition failure_condition (unusable : JsValue -> jsstring -> Prop)
  (content : jsstring) : Prop :=
  (~ exists fm rest, marker_block content fm rest)
  \/ exists fm rest,
       FRONT_MATTER_PATTERN_exec content = Some (fm, rest)
       /\ ((exists e, yaml_load fm = Throw e)
           \/ exists v,
                yaml_load fm = Ok v
                /\ (~ is_mapping v
                    \/ unusable v (js "name")
                    \/ unusable v (js "description"))).

(** The failures the specification lists: missing or blank. *)
Definition stated_failure : jsstring -> Prop :=
  failure_condition (fun v key => field_missing v key \/ field_blank v key).

(** The failures of the parser: missing, blank, or taken for false. *)
Definition parser_failure : jsstring -> Prop :=
  failure_condition
    (fun v key => field_missing v key \/ field_blank v key \/ field_falsy v key).

End ParserVocabulary.

(** ** Listing resources *)

Definition MACOSX_FOLDER : jsstring := js "__MACOSX/".
Definition DS_STORE : jsstring := js ".DS_Store".

(** One round of the loop of [getSkillResourcePaths] over the file names of
    an archive: the path pushed for [entry_name], if any. *)
Definition zip_resource_path (skill : Skill) (entry_name : jsstring)
  : option jsstring :=
  if jsstring_eqb entry_name SKILL_MARKDOWN
     || includes MACOSX_FOLDER entry_name
     || endsWith DS_STORE entry_name
  then None
  else
    let relPath :=
      match zipRootPrefix skill with
      | Some (c :: p) =>
          if startsWith (c :: p) entry_name
          then slice_from (List.length (c :: p)) entry_name
          else entry_name
      | _ => entry_name
      end in
    if jsstring_eqb relPath SKILL_MARKDOWN then None else Some relPath.

(** The [resources] array after the loop over the sorted file names. *)
Definition zip_resource_paths (skill : Skill) (files : list jsstring)
  : list jsstring :=
  fold_left
    (fun resources entry_name =>
       match zip_resource_path skill entry_name with
       | Some relPath => resources ++ [relPath]
       | None => resources
       end)
    (Array_sort files) [].

Section Listing.
Context {H : Host} {L : Libraries}.
Variable fs : FileSystem.
(** [path.relative] *)
Variable path_relative : jsstring -> jsstring -> jsstring.

(** resources.ts *)
Definition getSkillResourcePaths (fuel : nat) (skill : Skill)
  : IO (list jsstring) :=
  match zip_backed skill with
  | Some zipPath =>
      zipData <- readFileBytesSync fs zipPath ;;
      zip <- lift EvZipOpen (JSZip_loadAsync zipData) ;;
      ret (Array_sort (zip_resource_paths skill (zip_file_names zip)))
  | None =>
      allFiles <- getAllFiles fs fuel (directory skill)
                    (fun filePath => jsstring_eqb filePath (instructionsPath skill)) ;;
      ret (Array_sort (List.map (path_relative (directory skill)) allFiles))
  end.

End Listing.

(** ** Vocabulary of the further properties *)

(** A string of code units in which every surrogate is paired. *)
Fixpoint well_formed_utf16 (s : jsstring) : bool :=
  match s with
  | [] => true
  | c :: t =>
      if is_high_surrogate c then
        match t with
        | d :: t' => is_low_surrogate d && well_formed_utf16 t'
        | [] => false
        end
      else negb (is_low_surrogate c) && (c <? 65536) && well_formed_utf16 t
  end.

(** A Unicode scalar value: a code point that is not a surrogate. *)
Definition scalar_value (cp : N) : Prop :=
  cp < 1114112 /\ (cp < 55296 \/ 57343 < cp).

(** The accesses [fetchResource] may make for the path [rel] of [skill]. *)
Definition resource_access {H : Host} (skill : Skill) (rel : jsstring)
  (ev : Event) : Prop :=
  match zip_backed skill with
  | Some archive =>
      ev = EvReadFile archive \/ ev = EvZipOpen
      \/ ev = EvZipRead (zip_member_path skill rel)
  | None =>
      let p := path_join (directory skill) rel in
      startsWith (path_resolve (directory skill)) (path_resolve p) = true
      /\ (ev = EvExists p \/ ev = EvStat p \/ ev = EvReadFile p)
  end.

(** ** The skills of a loaded registry *)

Section SkillVocabulary.
Variable fs : FileSystem.

Definition regular_file (p : jsstring) : Prop := fs_statSync fs p = Ok IsFile.

(** A skill as a scan builds it: named by the trimmed, non-empty name of its
    header, and either backed by a directory, with the regular files found
    under it, or backed by an archive, which is also where its instructions
    are, with no file recorded. *)
Definition scanned_skill (s : Skill) : Prop :=
  name (metadata s) <> []
  /\ trim (name (metadata s)) = name (metadata s)
  /\ description (metadata s) <> []
  /\ ((zipPath s = None /\ zipRootPrefix s = None
       /\ Forall regular_file (resources s))
      \/ (exists archive prefix,
            zipPath s = Some archive /\ instructionsPath s = archive
            /\ zipRootPrefix s = Some prefix /\ resources s = [])).

End SkillVocabulary.

(** ** Vocabulary of the listing *)

(** The path [p] is listed for the entry [entry_name] of an archive: the
    entry is no SKILL.md and no macOS metadata, and [p], which is not
    SKILL.md either, is its name, without the root prefix of the skill when
    the name starts with it. *)
Definition listed_for (skill : Skill) (entry_name p : jsstring) : Prop :=
  entry_name <> SKILL_MARKDOWN
  /\ includes MACOSX_FOLDER entry_name = false
  /\ endsWith DS_STORE entry_name = false
  /\ p <> SKILL_MARKDOWN
  /\ (entry_name = zip_member_path skill p
      \/ (p = entry_name
          /\ forall prefix, zipRootPrefix skill = Some prefix ->
                            startsWith prefix entry_name = true ->
                            prefix = [])).

(** A file system with a directory whose entry [ghost] cannot be examined. *)
Module Dangling.

Definition tree : list (jsstring * Demo.FsNode) :=
  [ (js "/d", Demo.NodeDir [js "z.zip"; js "ghost"; js "a.txt"]);
    (js "/d/a.txt", Demo.NodeFile (js "a"));
    (js "/d/z.zip", Demo.NodeFile [80; 75; 3; 4]) ].

Definition disk : FileSystem := Demo.file_system tree.

End Dangling.

(** * Properties *)

(** ** Character classes *)

Lemma between_spec lo hi c : between lo hi c = true <-> lo <= c <= hi.
Proof. unfold between. rewrite andb_true_iff, !N.leb_le. tauto. Qed.

Lemma between_false lo hi c : between lo hi c = false <-> c < lo \/ hi < c.
Proof.
  unfold between. rewrite andb_false_iff, !N.leb_gt. tauto.
Qed.

Ltac unfold_classes :=
  unfold is_slug_unit, is_alnum, is_lower, is_upper, is_digit, is_hyphen,
    is_js_space, HYPHEN, SLASH, DOT, PERCENT, LF, COMMA in *.

(** Decide a fact about the classes of one code unit by arithmetic. *)
Ltac classes :=
  unfold_classes;
  repeat match goal with
         | H : _ && _ = true |- _ => apply andb_true_iff in H; destruct H
         | H : _ || _ = false |- _ => apply orb_false_iff in H; destruct H
         | H : negb _ = true |- _ => apply negb_true_iff in H
         | H : negb _ = false |- _ => apply negb_false_iff in H
         end;
  repeat match goal with
         | H : between _ _ _ = true |- _ => apply between_spec in H
         | H : between _ _ _ = false |- _ => apply between_false in H
         | H : (_ =? _) = true |- _ => apply N.eqb_eq in H
         | H : (_ =? _) = false |- _ => apply N.eqb_neq in H
         | H : _ || _ = true |- _ => apply orb_true_iff in H; destruct H
         | H : _ && _ = false |- _ => apply andb_false_iff in H; destruct H
         end;
  repeat match goal with
         | |- context [between ?a ?b ?c] =>
             let E := fresh "E" in
             destruct (between a b c) eqn:E;
             [apply between_spec in E | apply between_false in E]
         | |- context [?a =? ?b] =>
             let E := fresh "E" in
             destruct (a =? b) eqn:E;
             [apply N.eqb_eq in E | apply N.eqb_neq in E]
         end;
  simpl; try reflexivity; try discriminate; try lia.

Lemma alnum_not_hyphen c : is_alnum c = true -> is_hyphen c = false.
Proof. intros Hc. classes. Qed.

Lemma alnum_range c : is_alnum c = true -> 48 <= c <= 122.
Proof. intros Hc. classes. Qed.

Lemma alnum_not_space c : is_alnum c = true -> is_js_space c = false.
Proof.
  intros Hc. apply alnum_range in Hc. unfold is_js_space.
  repeat match goal with
         | |- context [between ?a ?b c] =>
             replace (between a b c) with false
               by (symmetry; apply between_false; lia)
         | |- context [c =? ?k] =>
             replace (c =? k) with false by (symmetry; apply N.eqb_neq; lia)
         end.
  reflexivity.
Qed.

Lemma hyphen_not_alnum c : is_hyphen c = true -> is_alnum c = false.
Proof. intros Hc. classes. Qed.

Lemma alnum_lower_slug c :
  is_alnum c = true -> is_upper c = false -> is_slug_unit c = true.
Proof. intros Hc Hu. classes. Qed.

Lemma slug_unit_ascii c : is_slug_unit c = true -> c < 128.
Proof. intros Hc. classes. Qed.

Lemma slug_unit_not_upper c : is_slug_unit c = true -> is_upper c = false.
Proof. intros Hc. classes. Qed.

Lemma slug_unit_cases c :
  is_slug_unit c = true -> is_alnum c = true \/ c = HYPHEN.
Proof. intros Hc. classes; (left; reflexivity) || (right; reflexivity) || lia. Qed.

(** ** Joining and splitting words *)

Lemma join_cons sep w ws :
  ws <> [] -> join sep (w :: ws) = w ++ sep ++ join sep ws.
Proof. destruct ws; [congruence | reflexivity]. Qed.

Lemma join_cons_unit sep c w ws :
  join sep ((c :: w) :: ws) = c :: join sep (w :: ws).
Proof. destruct ws; reflexivity. Qed.

Lemma alnum_fields_nonnil s : alnum_fields s <> [].
Proof.
  destruct s as [|c t]; simpl; [discriminate|].
  destruct (is_alnum c); [destruct (alnum_fields t)|]; discriminate.
Qed.

Lemma alnum_fields_cons_alnum c t :
  is_alnum c = true ->
  exists w ws, alnum_fields t = w :: ws /\ alnum_fields (c :: t) = (c :: w) :: ws.
Proof.
  intros Hc. simpl. rewrite Hc.
  destruct (alnum_fields t) as [|w ws] eqn:E.
  - exfalso. eapply alnum_fields_nonnil; eauto.
  - eauto.
Qed.

Lemma alnum_words_cons_other c t :
  is_alnum c = false -> alnum_words (c :: t) = alnum_words t.
Proof. intros Hc. unfold alnum_words. simpl. rewrite Hc. reflexivity. Qed.

(** The head of the first field tells how the string starts. *)
Lemma alnum_fields_head_nil s ws :
  alnum_fields s = [] :: ws ->
  match s with [] => True | c :: _ => is_alnum c = false end.
Proof.
  destruct s as [|c t]; simpl; [trivial|].
  destruct (is_alnum c); [|trivial].
  destruct (alnum_fields t); discriminate.
Qed.

(** ** The two replacements of slugify *)

Lemma replace_runs_alnum b c t :
  is_alnum c = true -> replace_runs b (c :: t) = c :: replace_runs false t.
Proof. intros Hc. simpl. rewrite Hc. reflexivity. Qed.

Lemma replace_runs_true_other c t :
  is_alnum c = false -> replace_runs true (c :: t) = replace_runs true t.
Proof. intros Hc. simpl. rewrite Hc. reflexivity. Qed.

Lemma replace_runs_false_other c t :
  is_alnum c = false ->
  replace_runs false (c :: t) = HYPHEN :: replace_runs true t.
Proof. intros Hc. simpl. rewrite Hc. reflexivity. Qed.

(** Inside a run the output starts with a letter or digit, if at all. *)
Lemma replace_runs_true_head s :
  match replace_runs true s with
  | [] => True
  | c :: _ => is_alnum c = true
  end.
Proof.
  induction s as [|c t IH]; simpl; [trivial|].
  destruct (is_alnum c) eqn:Hc; [exact Hc | exact IH].
Qed.

Lemma replace_runs_true_nil s :
  replace_runs true s = [] <-> alnum_words s = [].
Proof.
  induction s as [|c t IH]; [split; reflexivity|].
  destruct (is_alnum c) eqn:Hc.
  - rewrite replace_runs_alnum by assumption.
    destruct (alnum_fields_cons_alnum c t Hc) as (w & ws & _ & E).
    unfold alnum_words. rewrite E. simpl. split; discriminate.
  - rewrite replace_runs_true_other, alnum_words_cons_other by assumption.
    exact IH.
Qed.

Lemma all_hyphens_replace_runs s :
  all_hyphens (replace_runs true s) = true <-> replace_runs true s = [].
Proof.
  pose proof (replace_runs_true_head s) as Hh.
  destruct (replace_runs true s) as [|c r]; [split; reflexivity|].
  unfold all_hyphens. simpl. rewrite (alnum_not_hyphen c Hh). simpl.
  split; discriminate.
Qed.

Lemma drop_hyphens_replace_runs s :
  drop_hyphens (replace_runs true s) = replace_runs true s.
Proof.
  pose proof (replace_runs_true_head s) as Hh.
  destruct (replace_runs true s) as [|c r]; [reflexivity|].
  simpl. rewrite (alnum_not_hyphen c Hh). reflexivity.
Qed.

Lemma cut_final_hyphens_alnum c r :
  is_alnum c = true -> cut_final_hyphens (c :: r) = c :: cut_final_hyphens r.
Proof. intros Hc. simpl. rewrite (alnum_not_hyphen c Hc). reflexivity. Qed.

(** Inside a run, the two replacements leave the words joined by hyphens. *)
Lemma cut_replace_runs_true s :
  cut_final_hyphens (replace_runs true s) = join [HYPHEN] (alnum_words s).
Proof.
  induction s as [|c t IH]; [reflexivity|].
  destruct (is_alnum c) eqn:Hc.
  2:{ rewrite replace_runs_true_other, alnum_words_cons_other by assumption.
      exact IH. }
  rewrite replace_runs_alnum, cut_final_hyphens_alnum by assumption.
  destruct (alnum_fields_cons_alnum c t Hc) as (w & ws & Et & Ect).
  unfold alnum_words at 1. rewrite Ect. simpl List.filter.
  destruct t as [|d t'].
  { simpl in Et. injection Et as <- <-. reflexivity. }
  destruct (is_alnum d) eqn:Hd.
  - (* the word goes on *)
    assert (replace_runs false (d :: t') = replace_runs true (d :: t')) as ->
      by (rewrite !replace_runs_alnum by assumption; reflexivity).
    rewrite IH. unfold alnum_words. rewrite Et.
    destruct (alnum_fields_cons_alnum d t' Hd) as (w' & ws' & _ & Edt).
    rewrite Edt in Et. injection Et as <- <-. simpl List.filter.
    symmetry. apply join_cons_unit.
  - (* the word ends here *)
    rewrite replace_runs_false_other by assumption.
    rewrite replace_runs_true_other, alnum_words_cons_other in IH by assumption.
    assert (w = [] /\ ws = alnum_fields t') as [-> ->].
    { simpl in Et. rewrite Hd in Et. injection Et as <- <-. auto. }
    fold (alnum_words t').
    simpl cut_final_hyphens.
    destruct (all_hyphens (replace_runs true t')) eqn:Ha.
    + apply all_hyphens_replace_runs, replace_runs_true_nil in Ha.
      rewrite Ha. reflexivity.
    + assert (alnum_words t' <> []) as Hne.
      { intros E. apply replace_runs_true_nil in E.
        apply all_hyphens_replace_runs in E. congruence. }
      rewrite join_cons by assumption. rewrite IH. reflexivity.
Qed.

Lemma strip_replace_runs s :
  strip_hyphens (replace_runs false s) = join [HYPHEN] (alnum_words s).
Proof.
  unfold strip_hyphens. destruct s as [|c t]; [reflexivity|].
  destruct (is_alnum c) eqn:Hc.
  - assert (replace_runs false (c :: t) = replace_runs true (c :: t)) as ->
      by (rewrite !replace_runs_alnum by assumption; reflexivity).
    rewrite drop_hyphens_replace_runs. apply cut_replace_runs_true.
  - rewrite replace_runs_false_other, alnum_words_cons_other by assumption.
    simpl drop_hyphens. rewrite drop_hyphens_replace_runs.
    apply cut_replace_runs_true.
Qed.

(** ** Words *)

Lemma alnum_fields_alnum s :
  Forall (Forall (fun c => is_alnum c = true)) (alnum_fields s).
Proof.
  induction s as [|c t IH]; simpl; [repeat constructor|].
  destruct (is_alnum c) eqn:Hc.
  - destruct (alnum_fields t) as [|w ws]; [repeat constructor; assumption|].
    inversion IH; subst. constructor; [constructor|]; assumption.
  - constructor; [constructor | assumption].
Qed.

Lemma alnum_fields_units s :
  Forall (fun w => forall c, In c w -> In c s) (alnum_fields s).
Proof.
  induction s as [|c t IH]; simpl.
  { constructor; [|constructor]. intros c []. }
  destruct (is_alnum c) eqn:Hc.
  - destruct (alnum_fields t) as [|w ws].
    + constructor; [|constructor]. intros x [->|[]]. now left.
    + inversion IH; subst. constructor.
      * intros x [->|Hx]; [now left | right; auto].
      * eapply Forall_impl; [eassumption|]. simpl. intros w' Hw x Hx. right; auto.
  - constructor; [intros x []|].
    eapply Forall_impl; [eassumption|]. simpl. intros w' Hw x Hx. right; auto.
Qed.

Lemma Forall_filter_keep {A} (P : A -> Prop) f (l : list A) :
  Forall P l -> Forall P (List.filter f l).
Proof.
  induction 1; simpl; [constructor|]. destruct (f x); [constructor|]; assumption.
Qed.

Lemma Forall_filter_true {A} (f : A -> bool) (l : list A) :
  Forall (fun x => f x = true) (List.filter f l).
Proof.
  induction l as [|x l IH]; simpl; [constructor|].
  destruct (f x) eqn:E; [constructor|]; assumption.
Qed.

Lemma nonempty_true s : nonempty s = true <-> s <> [].
Proof. destruct s; simpl; split; congruence. Qed.

Lemma alnum_words_are_words s : Forall is_word (alnum_words s).
Proof.
  unfold alnum_words, is_word.
  apply Forall_and; split.
  - eapply Forall_impl; [apply Forall_filter_true|].
    intros w. apply nonempty_true.
  - apply Forall_filter_keep, alnum_fields_alnum.
Qed.

Lemma alnum_words_units s :
  Forall (fun w => forall c, In c w -> In c s) (alnum_words s).
Proof. apply Forall_filter_keep, alnum_fields_units. Qed.

Lemma alnum_fields_app_word w r :
  Forall (fun c => is_alnum c = true) w ->
  exists f fs, alnum_fields r = f :: fs /\ alnum_fields (w ++ r) = (w ++ f) :: fs.
Proof.
  induction 1 as [|c w Hc Hw IH]; simpl.
  - destruct (alnum_fields r) as [|f fs] eqn:E; [|eauto].
    exfalso. eapply alnum_fields_nonnil; eauto.
  - destruct IH as (f & fs & Er & Ewr). rewrite Hc, Ewr. eauto.
Qed.

(** The words of hyphen-joined words are these words. *)
Lemma alnum_words_join ws :
  Forall is_word ws -> alnum_words (join [HYPHEN] ws) = ws.
Proof.
  induction 1 as [|w ws [Hne Hw] Hws IH]; [reflexivity|].
  destruct ws as [|w' ws'].
  - simpl join.
    destruct (alnum_fields_app_word w [] Hw) as (f & fs & Er & Ewr).
    simpl in Er. injection Er as <- <-.
    rewrite !app_nil_r in Ewr. unfold alnum_words. rewrite Ewr. simpl.
    apply nonempty_true in Hne. rewrite Hne. reflexivity.
  - rewrite join_cons by discriminate.
    remember (join [HYPHEN] (w' :: ws')) as j eqn:Ej.
    destruct (alnum_fields_app_word w ([HYPHEN] ++ j) Hw) as (f & fs & Er & Ewr).
    change (alnum_fields ([HYPHEN] ++ j)) with ([] :: alnum_fields j) in Er.
    injection Er as <- <-.
    unfold alnum_words in *. rewrite Ewr, app_nil_r.
    apply nonempty_true in Hne. simpl. rewrite Hne, IH. reflexivity.
Qed.

Lemma join_words_nonnil w ws : is_word w -> join [HYPHEN] (w :: ws) <> [].
Proof.
  intros [Hne _]. destruct w; [congruence|].
  rewrite join_cons_unit. discriminate.
Qed.

Lemma hd_join_words w ws d :
  is_word w -> hd d (join [HYPHEN] (w :: ws)) = hd d w.
Proof.
  intros [Hne _]. destruct w; [congruence|]. rewrite join_cons_unit. reflexivity.
Qed.

Lemma last_app_nonnil {A} (a b : list A) d :
  b <> [] -> List.last (a ++ b) d = List.last b d.
Proof.
  intros Hb. induction a as [|x a IH]; [reflexivity|].
  simpl. destruct (a ++ b) eqn:E; [|assumption].
  apply app_eq_nil in E. tauto.
Qed.

Lemma last_join_words ws w d :
  Forall is_word (w :: ws) ->
  exists w', In w' (w :: ws) /\ List.last (join [HYPHEN] (w :: ws)) d = List.last w' d.
Proof.
  revert w. induction ws as [|w2 ws IH]; intros w Hall.
  - exists w. simpl. auto.
  - inversion Hall as [|? ? Hw Hrest]; subst.
    destruct (IH w2 Hrest) as (w' & Hin & El).
    exists w'. split; [right; assumption|].
    rewrite join_cons by discriminate.
    rewrite app_assoc, last_app_nonnil; [assumption|].
    inversion Hrest; subst. now apply join_words_nonnil.
Qed.

Lemma last_In {A} (l : list A) d : l <> [] -> In (List.last l d) l.
Proof.
  induction l as [|x l IH]; [congruence|]. intros _.
  destruct l as [|y l]; [now left|]. right. apply IH. discriminate.
Qed.

Lemma Forall_join_words (P : N -> Prop) ws :
  P HYPHEN -> Forall (Forall P) ws -> Forall P (join [HYPHEN] ws).
Proof.
  intros Hh. induction 1 as [|w ws Hw Hws IH]; [constructor|].
  destruct ws as [|w2 ws]; [exact Hw|].
  rewrite join_cons by discriminate.
  apply Forall_app; split; [assumption|]. constructor; assumption.
Qed.

(** ** slugify *)

Lemma trimStart_fixed s :
  is_js_space (hd 0 s) = false -> trimStart s = s.
Proof. destruct s as [|c t]; simpl; [reflexivity|]. intros ->. reflexivity. Qed.

Lemma trimEnd_fixed s :
  s <> [] -> is_js_space (List.last s 0) = false -> trimEnd s = s.
Proof.
  induction s as [|c t IH]; [congruence|]. intros _ Hl.
  destruct t as [|d t'].
  - simpl in *. rewrite Hl. reflexivity.
  - change (trimEnd (c :: d :: t'))
      with (match trimEnd (d :: t') with
            | [] => if is_js_space c then [] else [c]
            | t'' => c :: t''
            end).
    rewrite IH; [reflexivity | discriminate | exact Hl].
Qed.

Lemma fallback_is_word : is_word FALLBACK_SLUG.
Proof. split; [discriminate | repeat constructor]. Qed.

Section SlugProperties.
Context {H : Host}.

(** The slug is the hyphen-joined words of the normalised name. *)
Lemma slugify_refines value : slugify value = slugify_spec value.
Proof.
  unfold slugify, slugify_spec. rewrite strip_replace_runs.
  pose proof (alnum_words_are_words (toLowerCase (trim value))) as Hw.
  destruct (alnum_words (toLowerCase (trim value))) as [|w ws]; [reflexivity|].
  inversion Hw; subst.
  destruct (join [HYPHEN] (w :: ws)) eqn:E; [|reflexivity].
  exfalso. eapply join_words_nonnil; eauto.
Qed.

Context {HL : HostLaws H}.

(** Every slug is a non-empty list of lower-case words joined by hyphens. *)
Lemma slugify_words value :
  exists w ws,
    slugify value = join [HYPHEN] (w :: ws)
    /\ Forall is_word (w :: ws)
    /\ Forall (Forall (fun c => is_upper c = false)) (w :: ws).
Proof.
  rewrite slugify_refines. unfold slugify_spec.
  pose proof (alnum_words_are_words (toLowerCase (trim value))) as Hw.
  pose proof (alnum_words_units (toLowerCase (trim value))) as Hu.
  destruct (alnum_words (toLowerCase (trim value))) as [|w ws].
  - exists FALLBACK_SLUG, []. split; [reflexivity|].
    split; repeat constructor. apply fallback_is_word.
  - exists w, ws. split; [reflexivity|]. split; [assumption|].
    eapply Forall_impl; [exact Hu|]. simpl. intros w' Hin.
    apply List.Forall_forall. intros c Hc.
    pose proof (toLowerCase_no_upper (trim value)) as Hn.
    rewrite List.Forall_forall in Hn. auto.
Qed.

Lemma word_units_slug w :
  is_word w -> Forall (fun c => is_upper c = false) w ->
  Forall (fun c => is_slug_unit c = true) w.
Proof.
  intros [_ Ha] Hu. rewrite List.Forall_forall in *.
  intros c Hc. apply alnum_lower_slug; auto.
Qed.

Lemma joined_words_well_formed w ws :
  Forall is_word (w :: ws) ->
  Forall (Forall (fun c => is_upper c = false)) (w :: ws) ->
  well_formed_slug (join [HYPHEN] (w :: ws)).
Proof.
  intros Hw Hu. split.
  - inversion Hw; subst. now apply join_words_nonnil.
  - apply Forall_join_words; [reflexivity|].
    rewrite List.Forall_forall in *. intros w' Hin.
    apply word_units_slug; auto.
  - inversion Hw as [|? ? Hw1 _]; subst. rewrite hd_join_words by assumption.
    destruct Hw1 as [Hne Ha]. destruct w as [|c w]; [congruence|].
    inversion Ha; subst. simpl. intros E.
    assert (is_hyphen c = true) as Hh by (rewrite E; reflexivity).
    apply hyphen_not_alnum in Hh. congruence.
  - destruct (last_join_words ws w HYPHEN Hw) as (w' & Hin & ->).
    rewrite List.Forall_forall in Hw. destruct (Hw w' Hin) as [Hne Ha].
    pose proof (last_In w' HYPHEN Hne) as Hl.
    rewrite List.Forall_forall in Ha. specialize (Ha _ Hl). intros E.
    assert (is_hyphen (List.last w' HYPHEN) = true) as Hh by (rewrite E; reflexivity).
    apply hyphen_not_alnum in Hh. congruence.
Qed.

Lemma slugify_well_formed value : well_formed_slug (slugify value).
Proof.
  destruct (slugify_words value) as (w & ws & -> & Hw & Hu).
  now apply joined_words_well_formed.
Qed.

(** A list of hyphen-joined lower-case words is its own slug. *)
Lemma slugify_joined_words w ws :
  Forall is_word (w :: ws) ->
  Forall (Forall (fun c => is_upper c = false)) (w :: ws) ->
  slugify (join [HYPHEN] (w :: ws)) = join [HYPHEN] (w :: ws).
Proof.
  intros Hw Hu.
  destruct (joined_words_well_formed w ws Hw Hu) as [Hne Hunits Hfirst Hlast].
  set (t := join [HYPHEN] (w :: ws)) in *.
  assert (trim t = t) as Etrim.
  { unfold trim.
    assert (is_js_space (hd 0 t) = false) as Hs.
    { destruct t as [|c r]; [congruence|]. simpl in *.
      inversion Hunits; subst.
      destruct (slug_unit_cases c) as [Ha | ->]; [assumption| |congruence].
      now apply alnum_not_space. }
    rewrite trimStart_fixed by assumption.
    apply trimEnd_fixed; [assumption|].
    pose proof (last_In t 0 Hne) as Hin.
    rewrite List.Forall_forall in Hunits.
    destruct (slug_unit_cases _ (Hunits _ Hin)) as [Ha | E].
    - now apply alnum_not_space.
    - exfalso. apply Hlast.
      assert (forall d, List.last t d = List.last t 0) as Hd.
      { intros d. clear -Hne. induction t as [|x t IH]; [congruence|].
        destruct t; [reflexivity|]. apply IH. discriminate. }
      rewrite Hd. exact E. }
  assert (toLowerCase t = t) as Elow.
  { rewrite toLowerCase_ascii.
    - clear -Hunits. induction Hunits as [|c r Hc Hr IH]; [reflexivity|].
      simpl. rewrite (slug_unit_not_upper c Hc), IH. reflexivity.
    - eapply Forall_impl; [exact Hunits|]. apply slug_unit_ascii. }
  rewrite slugify_refines. unfold slugify_spec.
  rewrite Etrim, Elow. unfold t. rewrite alnum_words_join by assumption.
  reflexivity.
Qed.

(** C10.  slugify is idempotent: the slug of a slug is the slug itself; in
    particular the fallback slug and every normalised slug are unchanged by
    a second pass. *)
Theorem slugify_idempotent (value : jsstring) :
  slugify (slugify value) = slugify value
  /\ slugify FALLBACK_SLUG = FALLBACK_SLUG.
Proof.
  split.
  - destruct (slugify_words value) as (w & ws & -> & Hw & Hu).
    now apply slugify_joined_words.
  - apply (slugify_joined_words FALLBACK_SLUG []).
    + repeat constructor. apply fallback_is_word.
    + repeat constructor.
Qed.

End SlugProperties.

(** ** Effects *)

Lemma bind_returned {A B} (m : IO A) (k : A -> IO B) t b :
  bind m k = (t, Returned b) ->
  exists t1 a t2, m = (t1, Returned a) /\ k a = (t2, Returned b) /\ t = t1 ++ t2.
Proof.
  destruct m as [t1 [a|e|]]; simpl; [|discriminate..].
  destruct (k a) as [t2 r] eqn:E. intros [= <- ->]. eauto 6.
Qed.

Lemma for_of_nil {A S} (f : A -> S -> IO S) s : for_of [] f s = ret s.
Proof. reflexivity. Qed.

Lemma for_of_cons {A S} x l (f : A -> S -> IO S) s :
  for_of (x :: l) f s = bind (f x s) (fun s' => for_of l f s').
Proof. reflexivity. Qed.

(** A loop whose every round keeps a preorder keeps it. *)
Lemma for_of_preorder {A S} (R : S -> S -> Prop) (f : A -> S -> IO S) l s t s' :
  for_of l f s = (t, Returned s') ->
  (forall s, R s s) ->
  (forall a b c, R a b -> R b c -> R a c) ->
  (forall x s t s', In x l -> f x s = (t, Returned s') -> R s s') ->
  R s s'.
Proof.
  intros E Hrefl Htrans. revert s t s' E.
  induction l as [|x l IH]; intros s t s' E Hstep.
  - injection E as <- <-. apply Hrefl.
  - rewrite for_of_cons in E.
    apply bind_returned in E as (t1 & s1 & t2 & E1 & E2 & ->).
    eapply Htrans.
    + eapply Hstep; [now left | eassumption].
    + eapply IH; [eassumption|]. intros; eapply Hstep; [right|]; eassumption.
Qed.

(** ** Registrations *)

Section RegistryProperties.
Context {H : Host} {L : Libraries}.
Variable fs : FileSystem.

Lemma retains_refl reg : retains reg reg.
Proof. split; reflexivity. Qed.

Lemma retains_trans a b c : retains a b -> retains b c -> retains a c.
Proof. intros [? ?] [? ?]. split; etrans; eassumption. Qed.

Lemma register_retains reg skill :
  fresh_in reg skill -> retains reg (register reg skill).
Proof.
  intros (Hs & Hn & _). split; simpl; now apply insert_subseteq.
Qed.

Lemma register_ok reg skill :
  registry_ok reg -> fresh_in reg skill -> registry_ok (register reg skill).
Proof.
  intros [K1 K2 K3 K4 K5] (Hs & Hn & Hd).
  split; simpl; intros k s Hk.
  - apply lookup_insert_Some in Hk as [[<- <-]|[_ Hk]]; eauto.
  - apply lookup_insert_Some in Hk as [[<- <-]|[Hne Hk]].
    + apply lookup_insert_eq.
    + rewrite lookup_insert_ne; [eauto|].
      intros E. apply K2 in Hk. rewrite <- E in Hk. congruence.
  - apply lookup_insert_Some in Hk as [[<- <-]|[_ Hk]]; eauto.
  - apply lookup_insert_Some in Hk as [[<- <-]|[Hne Hk]].
    + apply lookup_insert_eq.
    + rewrite lookup_insert_ne; [eauto|].
      intros E. apply K4 in Hk. rewrite <- E in Hk. congruence.
  - apply lookup_insert_Some in Hk as [[<- <-]|[_ Hk]]; eauto.
Qed.

Lemma registers_extends P reg reg' : registers P reg reg' -> extends P reg reg'.
Proof.
  intros [->|(skill & Hf & HP & ->)]; [constructor|].
  apply extends_step; [constructor | assumption..].
Qed.

Lemma extends_trans P a b c : extends P a b -> extends P b c -> extends P a c.
Proof. intros Hab Hbc. induction Hbc; [assumption|]. now apply extends_step. Qed.

Lemma extends_weaken (P Q : Skill -> Prop) a b :
  (forall s, P s -> Q s) -> extends P a b -> extends Q a b.
Proof. intros HPQ Hab. induction Hab; [constructor|]. apply extends_step; auto. Qed.

Lemma extends_ok P reg reg' :
  extends P reg reg' -> registry_ok reg -> registry_ok reg'.
Proof. induction 1; [trivial|]. intros Hok. apply register_ok; auto. Qed.

Lemma extends_retains P reg reg' : extends P reg reg' -> retains reg reg'.
Proof.
  induction 1; [apply retains_refl|].
  eapply retains_trans; [eassumption|]. now apply register_retains.
Qed.

(** A skill of the extended registry is an old one or satisfies [P]. *)
Lemma extends_new P reg reg' k s :
  extends P reg reg' ->
  skillsBySlug reg' !! k = Some s ->
  skillsBySlug reg !! k = Some s \/ P s.
Proof.
  induction 1 as [|mid skill Hext IH Hf HP]; [auto|].
  simpl. intros Hk.
  apply lookup_insert_Some in Hk as [[<- <-]|[_ Hk]]; auto.
Qed.

Lemma Map_has_false m k : Map_has m k = false -> m !! k = None.
Proof. unfold Map_has. destruct (m !! k); [discriminate | reflexivity]. Qed.

Lemma Map_has_true m k : Map_has m k = true <-> is_Some (m !! k).
Proof.
  unfold Map_has. destruct (m !! k); split; intros Hx;
    try reflexivity; try discriminate; eauto.
  destruct Hx; discriminate.
Qed.

(** A directory registration ends normally (unless the walk over its files
    ran out of fuel) and registers at most one skill, backed by that
    directory. *)
Lemma registerDirSkill_registers fuel reg dir skillMdPath t out :
  registerDirSkill fs fuel reg dir skillMdPath = (t, out) ->
  out = OutOfFuel
  \/ exists reg',
       out = Returned reg'
       /\ registers (fun s => directory s = path_resolve dir /\ zipPath s = None)
                    reg reg'.
Proof.
  unfold registerDirSkill, readFileSync, readFileBytesSync, registers.
  destruct (fs_readFileSync fs skillMdPath) as [data|e]; simpl;
    [|intros [= <- <-]; eauto].
  destruct (parseSkillMd _ _) as [parsed|e]; simpl; [|intros [= <- <-]; eauto].
  destruct (Map_has (skillsBySlug reg) _) eqn:Hs; simpl;
    [intros [= <- <-]; eauto|].
  destruct (Map_has (skillsByName reg) _) eqn:Hn; simpl;
    [intros [= <- <-]; eauto|].
  destruct (collectResources fs fuel dir) as [tc [res|e|]]; simpl;
    intros [= <- <-]; eauto.
  right. eexists. split; [reflexivity|]. right. eexists.
  split; [|split; [|reflexivity]].
  - repeat split; simpl; auto using Map_has_false.
  - simpl. auto.
Qed.

(** An archive registration always ends normally and registers at most one
    skill, backed by that archive. *)
Lemma tryRegisterZipSkill_registers reg archive t out :
  tryRegisterZipSkill fs reg archive = (t, out) ->
  exists reg',
    out = Returned reg'
    /\ registers (fun s => zipPath s = Some (path_resolve archive)) reg reg'.
Proof.
  unfold tryRegisterZipSkill, readFileBytesSync, registers.
  destruct (fs_readFileSync fs archive) as [data|e]; simpl;
    [|intros [= <- <-]; eauto].
  destruct (JSZip_loadAsync data) as [zip|e]; simpl; [|intros [= <- <-]; eauto].
  destruct (locate_skill_md zip) as [[member prefix]|]; simpl;
    [|intros [= <- <-]; eauto].
  destruct (zip_file zip member) as [file|]; simpl; [|intros [= <- <-]; eauto].
  destruct (zip_async file) as [text|e]; simpl; [|intros [= <- <-]; eauto].
  destruct (parseSkillMd _ _) as [parsed|e]; simpl; [|intros [= <- <-]; eauto].
  destruct (Map_has (skillsBySlug reg) _) eqn:Hs; simpl;
    [intros [= <- <-]; eauto|].
  destruct (Map_has (skillsByName reg) _) eqn:Hn; simpl;
    intros [= <- <-]; [eauto|].
  eexists. split; [reflexivity|]. right. eexists.
  split; [|split; [|reflexivity]].
  - repeat split; simpl; auto using Map_has_false.
  - reflexivity.
Qed.

Lemma scan_archives_extends dir entries reg t reg' :
  scan_archives fs dir entries reg = (t, Returned reg') ->
  extends (fun s => zipPath s <> None) reg reg'.
Proof.
  unfold scan_archives. intros Hloop.
  eapply (for_of_preorder (extends (fun s => zipPath s <> None)));
    [exact Hloop|..].
  - constructor.
  - apply extends_trans.
  - intros entry s t' s' _ E.
    apply bind_returned in E as (t1 & f & t2 & _ & E & _).
    destruct (f && isZipFile (path_join dir entry)).
    + apply tryRegisterZipSkill_registers in E as (r & [= <-] & Hr).
      apply registers_extends.
      destruct Hr as [->|(sk & ? & Hz & ->)]; [now left|].
      right. exists sk. split; [assumption|]. split; [|reflexivity].
      rewrite Hz. discriminate.
    + injection E as _ <-. constructor.
Qed.

(** Scanning only ever adds fresh skills. *)
Lemma scanDirectory_extends fuel :
  forall reg dir t reg',
    scanDirectory fs fuel reg dir = (t, Returned reg') ->
    extends (fun _ => True) reg reg'.
Proof.
  induction fuel as [|n IH]; intros reg dir t reg' E; [discriminate|].
  simpl in E.
  apply bind_returned in E as (t0 & is_skill & t1 & _ & E & _).
  destruct is_skill.
  - apply registerDirSkill_registers in E as [[=]|(r & [= <-] & Hr)].
    eapply extends_weaken; [|apply registers_extends; eassumption]. auto.
  - apply bind_returned in E as (t2 & listing & t3 & _ & E & _).
    destruct listing as [entries|]; [|injection E as _ <-; constructor].
    apply bind_returned in E as (t4 & reg1 & t5 & E1 & E2 & _).
    eapply extends_trans.
    + unfold scan_subdirectories in E1.
      eapply (for_of_preorder (extends (fun _ => True))); [exact E1|..].
      * constructor.
      * apply extends_trans.
      * intros entry s t' s' _ Es.
        apply bind_returned in Es as (t6 & d & t7 & _ & Es & _).
        destruct d; [eapply IH; eassumption|].
        injection Es as _ <-. constructor.
    + eapply extends_weaken; [|eapply scan_archives_extends; eassumption]. auto.
Qed.

Lemma empty_registry_ok r : registry_ok (mkRegistry r ∅ ∅).
Proof. split; simpl; intros k s Hk; rewrite lookup_empty in Hk; discriminate. Qed.

Lemma load_ok fuel reg0 t reg :
  load fs fuel reg0 = (t, Returned reg) -> registry_ok reg.
Proof.
  unfold load. intros E.
  apply bind_returned in E as (t0 & e & t1 & _ & E & _).
  apply bind_returned in E as (t2 & ok & t3 & _ & E & _).
  destruct (negb ok); [discriminate|].
  eapply extends_ok; [eapply scanDirectory_extends; eassumption|].
  apply empty_registry_ok.
Qed.

(** In a consistent registry slugs and raw names identify the skills. *)
Lemma registry_ok_distinct reg :
  registry_ok reg ->
  NoDup (List.map slug (skills reg))
  /\ NoDup (List.map (fun s => name (metadata s)) (skills reg)).
Proof.
  intros [K1 K2 K3 K4 K5]. unfold skills.
  pose proof (NoDup_map_to_list (skillsBySlug reg)) as Hnd.
  split.
  - change (List.map slug (map_to_list (skillsBySlug reg)).*2)
      with (slug <$> (map_to_list (skillsBySlug reg)).*2).
    rewrite <- list_fmap_compose.
    apply NoDup_fmap_2_strong; [|assumption].
    intros [k1 s1] [k2 s2] H1 H2. simpl. intros E.
    apply elem_of_map_to_list in H1, H2.
    pose proof (K1 _ _ H1). pose proof (K1 _ _ H2). simpl in *. subst.
    rewrite E in H1. congruence.
  - change (List.map (fun s => name (metadata s)) (map_to_list (skillsBySlug reg)).*2)
      with ((fun s => name (metadata s)) <$> (map_to_list (skillsBySlug reg)).*2).
    rewrite <- list_fmap_compose.
    apply NoDup_fmap_2_strong; [|assumption].
    intros [k1 s1] [k2 s2] H1 H2. simpl. intros E.
    apply elem_of_map_to_list in H1, H2.
    pose proof (K2 _ _ H1) as N1. pose proof (K2 _ _ H2) as N2.
    rewrite E in N1. assert (s1 = s2) by congruence. subst.
    pose proof (K1 _ _ H1). pose proof (K1 _ _ H2). congruence.
Qed.

End RegistryProperties.

(** ** Sorting *)

Lemma str_leb_total a b : str_leb a b = false -> str_leb b a = true.
Proof.
  revert b. induction a as [|x a IH]; intros [|y b]; simpl; try congruence.
  destruct (x <? y) eqn:Exy; [discriminate|].
  destruct (y <? x) eqn:Eyx; [reflexivity|]. apply IH.
Qed.

Lemma str_leb_trans a b c :
  str_leb a b = true -> str_leb b c = true -> str_leb a c = true.
Proof.
  revert b c. induction a as [|x a IH]; intros [|y b] [|z c]; simpl;
    try congruence.
  destruct (x <? y) eqn:Exy, (y <? x) eqn:Eyx, (y <? z) eqn:Eyz,
    (z <? y) eqn:Ezy, (x <? z) eqn:Exz, (z <? x) eqn:Ezx;
    try reflexivity; try discriminate;
    rewrite ?N.ltb_lt, ?N.ltb_ge in *; try lia.
  apply IH.
Qed.

Lemma sort_insert_perm x l : Permutation (x :: l) (sort_insert x l).
Proof.
  induction l as [|y l IH]; simpl; [reflexivity|].
  destruct (str_leb x y); [reflexivity|].
  rewrite perm_swap. now constructor.
Qed.

Lemma Array_sort_perm l : Permutation l (Array_sort l).
Proof.
  induction l as [|x l IH]; simpl; [constructor|].
  rewrite <- sort_insert_perm. now constructor.
Qed.

Lemma sort_insert_sorted x l :
  StronglySorted str_le l -> StronglySorted str_le (sort_insert x l).
Proof.
  induction 1 as [|y l Hl IH Hy]; simpl; [repeat constructor|].
  destruct (str_leb x y) eqn:E.
  - constructor; [now constructor|].
    constructor; [exact E|].
    eapply Forall_impl; [exact Hy|]. intros z Hz.
    eapply str_leb_trans; eassumption.
  - constructor; [assumption|].
    apply str_leb_total in E.
    rewrite List.Forall_forall in *. intros z Hz.
    apply (Permutation_in _ (Permutation_sym (sort_insert_perm x l))) in Hz.
    destruct Hz as [<-|Hz]; auto.
Qed.

Lemma Array_sort_sorted l : StronglySorted str_le (Array_sort l).
Proof.
  induction l as [|x l IH]; simpl; [constructor|]. now apply sort_insert_sorted.
Qed.

(** ** The trace of a loop *)


(** ** The order of the scan *)

Section Traversal.
Context {H : Host} {L : Libraries}.
Variable fs : FileSystem.




End Traversal.

(** ** Archives *)

Lemma jsstring_eqb_eq a b : jsstring_eqb a b = true <-> a = b.
Proof.
  revert b. induction a as [|x a IH]; intros [|y b]; simpl;
    try (split; congruence).
  rewrite andb_true_iff, N.eqb_eq, IH. split; [intros []|intros [=]]; subst; auto.
Qed.

Lemma jsstring_eqb_refl a : jsstring_eqb a a = true.
Proof. now apply jsstring_eqb_eq. Qed.

Lemma Array_includes_In l x : Array_includes l x = true <-> In x l.
Proof.
  unfold Array_includes. rewrite existsb_exists. split.
  - intros (y & Hy & E). apply jsstring_eqb_eq in E. now subst.
  - intros Hx. exists x. split; [assumption | apply jsstring_eqb_refl].
Qed.

Lemma Array_includes_not_In l x : Array_includes l x = false <-> ~ In x l.
Proof.
  rewrite <- Array_includes_In. destruct (Array_includes l x); split; congruence.
Qed.

Lemma Set_add_In x y set : In y (Set_add x set) <-> y = x \/ In y set.
Proof.
  unfold Set_add. destruct (Array_includes set x) eqn:E.
  - apply Array_includes_In in E. split; [auto|]. intros [->|]; assumption.
  - rewrite in_app_iff. simpl. split; intros [?|?]; auto.
    + destruct H as [<-|[]]. auto.
Qed.

Lemma Set_add_NoDup x set : NoDup set -> NoDup (Set_add x set).
Proof.
  unfold Set_add. intros Hnd. destruct (Array_includes set x) eqn:E; [assumption|].
  apply Array_includes_not_In in E.
  apply NoDup_app. split; [assumption|]. split; [|apply NoDup_singleton].
  intros y Hy Hy'. apply list_elem_of_In in Hy, Hy'.
  destruct Hy' as [<-|[]]. contradiction.
Qed.

(** The set built by the loop over the entry names. *)
Lemma topLevelDirs_fold names acc :
  let result :=
    fold_left
      (fun set entry_name =>
         if includes [SLASH] entry_name
         then Set_add (hd [] (split SLASH entry_name)) set
         else set) names acc in
  (NoDup acc -> NoDup result)
  /\ forall x, In x result <->
               In x acc
               \/ exists n, In n names /\ includes [SLASH] n = true
                            /\ x = first_segment n.
Proof.
  revert acc. induction names as [|n names IH]; intros acc; simpl.
  - split; [auto|]. intros x. split; [auto|]. intros [?|(n & [] & _)]. assumption.
  - destruct (IH (if includes [SLASH] n
                  then Set_add (hd [] (split SLASH n)) acc else acc))
      as [Hnd Hin].
    split.
    + intros Hacc. apply Hnd. destruct (includes [SLASH] n); [|assumption].
      now apply Set_add_NoDup.
    + intros x. rewrite Hin. destruct (includes [SLASH] n) eqn:En.
      * rewrite Set_add_In. split.
        -- intros [[->|Hx]|(m & Hm & Hs & ->)]; eauto 7.
        -- intros [Hx|(m & [<-|Hm] & Hs & ->)]; eauto 7.
      * split.
        -- intros [Hx|(m & Hm & Hs & ->)]; eauto 7.
        -- intros [Hx|(m & [<-|Hm] & Hs & ->)]; eauto 7. congruence.
Qed.

Lemma topLevelDirs_single zip topDir :
  topLevelDirs zip = [topDir] <-> only_top_level_dir zip topDir.
Proof.
  unfold topLevelDirs, only_top_level_dir.
  destruct (topLevelDirs_fold (List.map fst zip) []) as [Hnd Hin].
  specialize (Hnd (NoDup_nil_2)).
  set (tops := fold_left _ _ _) in *. split.
  - intros E. rewrite E in Hin. split.
    + destruct (proj1 (Hin topDir)) as [[]|(n & ? & ? & _)]; [now left|eauto].
    + intros n Hn Hs.
      destruct (proj2 (Hin (first_segment n))) as [E'|[]]; [|now symmetry].
      right. eauto.
  - intros [(n & Hn & Hs) Hall].
    assert (forall x, In x tops <-> x = topDir) as Honly.
    { intros x. rewrite Hin. split.
      - intros [[]|(m & Hm & Hms & ->)]. auto.
      - intros ->. right. exists n. repeat split; auto. symmetry; auto. }
    destruct tops as [|a [|b rest]].
    + exfalso. apply (proj2 (Honly topDir)). reflexivity.
    + f_equal. apply Honly. now left.
    + exfalso. assert (a = topDir) by (apply Honly; now left).
      assert (b = topDir) by (apply Honly; right; now left). subst.
      apply NoDup_cons in Hnd as [Hnot _]. apply Hnot. now left.
Qed.

(** Where the registration looks for SKILL.md. *)
Lemma locate_skill_md_Some zip member prefix :
  locate_skill_md zip = Some (member, prefix) ->
  skill_md_location zip prefix /\ member = prefix ++ SKILL_MARKDOWN.
Proof.
  unfold locate_skill_md, skill_md_location.
  destruct (Array_includes (zip_file_names zip) SKILL_MARKDOWN) eqn:Eroot.
  - intros [= <- <-]. apply Array_includes_In in Eroot. auto.
  - apply Array_includes_not_In in Eroot.
    destruct (topLevelDirs zip) as [|topDir [|? ?]] eqn:Etop; try discriminate.
    destruct (Array_includes _ (topDir ++ _)) eqn:Ecand; [|discriminate].
    intros [= <- <-]. apply Array_includes_In in Ecand.
    apply topLevelDirs_single in Etop.
    split; [|now rewrite <- app_assoc].
    right. split; [assumption|]. exists topDir.
    split; [assumption|]. split; [reflexivity|]. now rewrite <- app_assoc.
Qed.

Lemma locate_skill_md_None zip :
  locate_skill_md zip = None -> forall prefix, ~ skill_md_location zip prefix.
Proof.
  unfold locate_skill_md, skill_md_location.
  destruct (Array_includes (zip_file_names zip) SKILL_MARKDOWN) eqn:Eroot;
    [discriminate|].
  apply Array_includes_not_In in Eroot.
  intros Hnone prefix [[_ Hroot]|(_ & topDir & Honly & -> & Hin)]; [contradiction|].
  apply topLevelDirs_single in Honly. rewrite Honly in Hnone.
  rewrite <- app_assoc in Hin. apply Array_includes_In in Hin.
  simpl in Hin, Hnone. rewrite Hin in Hnone. discriminate.
Qed.

Section ArchiveRegistration.
Context {H : Host} {L : Libraries}.
Variable fs : FileSystem.

(** C9 (amended).  An archive registration always ends normally.  It
    registers a skill only when SKILL.md is a file at the archive root
    (prefix empty) or, failing that, a file of the only top-level directory,
    the first segment shared by all entry names that hold a slash (prefix
    that directory and a slash); entries without a slash are not looked at.
    When neither location has SKILL.md the registry is unchanged. *)
Theorem archive_registration (reg : SkillRegistry) (archive : jsstring)
  (t : list Event) (out : Outcome SkillRegistry) :
  tryRegisterZipSkill fs reg archive = (t, out) ->
  exists reg',
    out = Returned reg'
    /\ (reg' = reg
        \/ exists data zip skill prefix,
             fs_readFileSync fs archive = Ok data
             /\ JSZip_loadAsync data = Ok zip
             /\ skill_md_location zip prefix
             /\ zipRootPrefix skill = Some prefix
             /\ fresh_in reg skill
             /\ reg' = register reg skill)
    /\ (forall data zip,
           fs_readFileSync fs archive = Ok data ->
           JSZip_loadAsync data = Ok zip ->
           (forall prefix, ~ skill_md_location zip prefix) ->
           reg' = reg).
Proof.
  unfold tryRegisterZipSkill, readFileBytesSync.
  destruct (fs_readFileSync fs archive) as [data|e] eqn:Eread; simpl;
    [|intros [= <- <-]; eexists; split; [reflexivity|]; split;
      [now left | intros; discriminate]].
  destruct (JSZip_loadAsync data) as [zip|e] eqn:Ezip; simpl;
    [|intros [= <- <-]; eexists; split; [reflexivity|]; split;
      [now left | intros ? ? [= <-]; congruence]].
  destruct (locate_skill_md zip) as [[member prefix]|] eqn:Eloc; simpl;
    [|intros [= <- <-]; eexists; split; [reflexivity|]; split;
      [now left | intros; reflexivity]].
  apply locate_skill_md_Some in Eloc as [Hloc ->].
  assert (forall r : SkillRegistry,
             forall data0 zip0,
               Ok data = Ok data0 -> JSZip_loadAsync data0 = Ok zip0 ->
               (forall p, ~ skill_md_location zip0 p) -> r = reg) as Hnever.
  { intros r data0 zip0 [= <-] Ez Hno. rewrite Ezip in Ez.
    injection Ez as <-. exfalso. eapply Hno; eassumption. }
  destruct (zip_file zip _) as [file|]; simpl;
    [|intros [= <- <-]; eexists; split; [reflexivity|]; split; [now left|auto]].
  destruct (zip_async file) as [text|e]; simpl;
    [|intros [= <- <-]; eexists; split; [reflexivity|]; split; [now left|auto]].
  destruct (parseSkillMd _ _) as [parsed|e]; simpl;
    [|intros [= <- <-]; eexists; split; [reflexivity|]; split; [now left|auto]].
  destruct (Map_has (skillsBySlug reg) _) eqn:Hs; simpl;
    [intros [= <- <-]; eexists; split; [reflexivity|]; split; [now left|auto]|].
  destruct (Map_has (skillsByName reg) _) eqn:Hn; simpl;
    intros [= <- <-]; eexists; (split; [reflexivity|]);
    (split; [|intros; eapply Hnever; eassumption]).
  { now left. }
  right. exists data, zip. eexists (mkSkill _ _ _ _ _ _ _), prefix.
  split; [reflexivity|]. split; [assumption|]. split; [assumption|].
  split; [reflexivity|].
  split; cycle 1.
  { reflexivity. }
  repeat split; simpl; auto using Map_has_false.
Qed.

End ArchiveRegistration.

(** ** Prefixes, splitting and joining *)

Lemma startsWith_app p r : startsWith p (p ++ r) = true.
Proof. induction p as [|x p IH]; simpl; [reflexivity|]. now rewrite N.eqb_refl. Qed.

Lemma startsWith_prefix p s :
  startsWith p s = true -> exists r, s = p ++ r.
Proof.
  revert s. induction p as [|x p IH]; intros s; simpl; [eauto|].
  destruct s as [|y s]; [discriminate|].
  rewrite andb_true_iff, N.eqb_eq. intros [-> Hp].
  destruct (IH _ Hp) as (r & ->). eauto.
Qed.

Lemma slice_from_app p r : slice_from (List.length p) (p ++ r) = r.
Proof. unfold slice_from. induction p; simpl; auto. Qed.

Lemma includes_app p a b : includes p (a ++ p ++ b) = true.
Proof.
  induction a as [|x a IH]; simpl.
  - destruct (p ++ b) eqn:E; simpl.
    + destruct p; [reflexivity | discriminate].
    + rewrite <- E, startsWith_app. reflexivity.
  - rewrite IH. apply orb_true_r.
Qed.

Lemma split_nonnil sep s : split sep s <> [].
Proof.
  destruct s as [|c t]; simpl; [discriminate|].
  destruct (c =? sep); [discriminate|]. destruct (split sep t); discriminate.
Qed.

Lemma split_no_sep sep s : ~ In sep s -> split sep s = [s].
Proof.
  induction s as [|c t IH]; simpl; [reflexivity|]. intros Hn.
  destruct (c =? sep) eqn:E.
  - apply N.eqb_eq in E. tauto.
  - rewrite IH by tauto. reflexivity.
Qed.

Lemma split_app_sep sep a b :
  ~ In sep a -> split sep (a ++ sep :: b) = a :: split sep b.
Proof.
  induction a as [|c a IH]; simpl; intros Hn.
  - rewrite N.eqb_refl. reflexivity.
  - destruct (c =? sep) eqn:E.
    + apply N.eqb_eq in E. tauto.
    + rewrite IH by tauto. reflexivity.
Qed.

Lemma join_split sep s : join [sep] (split sep s) = s.
Proof.
  induction s as [|c t IH]; simpl; [reflexivity|].
  destruct (c =? sep) eqn:E.
  - apply N.eqb_eq in E. subst c.
    rewrite join_cons by apply split_nonnil. simpl. now rewrite IH.
  - destruct (split sep t) as [|w ws] eqn:Es.
    + exfalso. eapply split_nonnil; eauto.
    + rewrite join_cons_unit, IH. reflexivity.
Qed.

(** The slug segment and the path remainder of [slug/rest]. *)
Lemma split_remainder_segments rawSlug rest :
  ~ In SLASH rawSlug ->
  split_remainder (rawSlug ++ [SLASH] ++ rest) =
  match rawSlug, rest with
  | _ :: _, _ :: _ => Some (rawSlug, rest)
  | _, _ => None
  end.
Proof.
  intros Hn. unfold split_remainder.
  assert (split SLASH (rawSlug ++ [SLASH] ++ rest) = rawSlug :: split SLASH rest)
    as Hs by (apply split_app_sep; assumption).
  assert (exists c t, rawSlug ++ [SLASH] ++ rest = c :: t) as (c & t & Ect)
    by (destruct rawSlug; simpl; eauto).
  rewrite Hs, Ect.
  destruct (split SLASH rest) as [|p ps] eqn:Ep;
    [exfalso; eapply split_nonnil; eauto|].
  cbn [hd tl List.length]. rewrite <- Ep, join_split.
  change (S (S (List.length ps)) <? 2)%nat with false.
  destruct rawSlug, rest; reflexivity.
Qed.

Lemma split_head_no_sep sep x w ws : split sep x = w :: ws -> ~ In sep w.
Proof.
  revert w ws. induction x as [|y x IH]; simpl; intros w ws E.
  - injection E as <- <-. intros [].
  - destruct (y =? sep) eqn:Ey.
    + injection E as <- <-. intros [].
    + apply N.eqb_neq in Ey. destruct (split sep x) as [|w' ws'] eqn:Es.
      * injection E as <- <-. intros [?|[]]. congruence.
      * injection E as <- <-. intros [?|Hin]; [congruence|].
        eapply IH; eauto.
Qed.

(** A remainder that passes the format checks is [slug/rest]. *)
Lemma split_remainder_Some remainder rawSlug rest :
  split_remainder remainder = Some (rawSlug, rest) ->
  remainder = rawSlug ++ [SLASH] ++ rest
  /\ ~ In SLASH rawSlug /\ rawSlug <> [] /\ rest <> [].
Proof.
  unfold split_remainder. destruct remainder as [|c t]; [discriminate|].
  remember (c :: t) as s eqn:Es. clear Es.
  pose proof (join_split SLASH s) as Hj.
  destruct (split SLASH s) as [|w ws] eqn:E; [simpl; discriminate|].
  apply split_head_no_sep in E.
  destruct ws as [|w2 ws]; [simpl; discriminate|].
  rewrite join_cons in Hj by discriminate.
  cbn [hd tl List.length].
  change (S (S (List.length ws)) <? 2)%nat with false.
  destruct w as [|a w]; [simpl; discriminate|].
  destruct (join [SLASH] (w2 :: ws)) as [|b r]; [simpl; discriminate|].
  simpl orb. cbv iota. intros [= <- <-].
  split; [symmetry; exact Hj|]. repeat split; auto; discriminate.
Qed.

(** ** Fetching *)

Section Fetch.
Context {H : Host} {L : Libraries}.
Variable fs : FileSystem.

(** What [fetchResource] does with the URI of a slug segment and a path
    remainder. *)
Lemma fetchResource_segments reg rawSlug rest :
  ~ In SLASH rawSlug ->
  let uri := URI_PREFIX ++ rawSlug ++ [SLASH] ++ rest in
  fetchResource fs reg uri =
  match rawSlug, rest with
  | _ :: _, _ :: _ =>
      slug <- pure_call (decodeURIComponent rawSlug) ;;
      fetch_located fs reg uri slug rest
  | _, _ => ret (makeErrorResource uri (js "invalid resource URI format"))
  end.
Proof.
  intros Hn uri. unfold fetchResource. subst uri.
  rewrite startsWith_app, slice_from_app. cbn [negb].
  rewrite split_remainder_segments by assumption.
  destruct rawSlug, rest; reflexivity.
Qed.

Lemma traversal_nonempty rest :
  includes [DOT; DOT] rest = true \/ startsWith [SLASH] rest = true ->
  rest <> [].
Proof. intros [E|E] ->; discriminate. Qed.

(** C1 (amended).  For a URI made of the prefix, a slug segment, a slash and
    a path remainder that contains [..] or begins with a slash: a non-empty
    slug segment that percent-decodes gets the 'path traversal not allowed'
    payload, an empty slug segment gets the 'invalid resource URI format'
    payload, and in both cases no file-system or archive access is made. *)
Theorem fetch_rejects_traversal (reg : SkillRegistry)
  (rawSlug rest : jsstring) :
  ~ In SLASH rawSlug ->
  includes [DOT; DOT] rest = true \/ startsWith [SLASH] rest = true ->
  let uri := URI_PREFIX ++ rawSlug ++ [SLASH] ++ rest in
  (rawSlug = [] ->
   fetchResource fs reg uri =
   ([], Returned (makeErrorResource uri (js "invalid resource URI format"))))
  /\ (forall slug,
         rawSlug <> [] -> decodeURIComponent rawSlug = Ok slug ->
         fetchResource fs reg uri =
         ([], Returned (makeErrorResource uri PATH_TRAVERSAL))).
Proof.
  intros Hn Ht uri. subst uri.
  rewrite fetchResource_segments by assumption.
  pose proof (traversal_nonempty rest Ht) as Hr.
  split.
  - intros ->. reflexivity.
  - intros slug Hs Hd. destruct rawSlug as [|c s]; [congruence|].
    destruct rest as [|d r]; [congruence|].
    rewrite Hd. unfold fetch_located.
    assert (includes [DOT; DOT] (d :: r) || startsWith [SLASH] (d :: r) = true)
      as -> by (apply orb_true_iff; assumption).
    reflexivity.
Qed.

(** The traversal check comes before every access, whatever the slug. *)
Lemma fetch_traversal_no_access reg rawSlug rest :
  ~ In SLASH rawSlug ->
  includes [DOT; DOT] rest = true \/ startsWith [SLASH] rest = true ->
  (fetchResource fs reg (URI_PREFIX ++ rawSlug ++ [SLASH] ++ rest)).1 = [].
Proof.
  intros Hn Ht. rewrite fetchResource_segments by assumption.
  destruct rawSlug as [|c s]; [reflexivity|].
  destruct rest as [|d r]; [reflexivity|].
  destruct (decodeURIComponent (c :: s)) as [slug|e]; [|reflexivity].
  unfold fetch_located.
  assert (includes [DOT; DOT] (d :: r) || startsWith [SLASH] (d :: r) = true)
    as -> by (apply orb_true_iff; assumption).
  reflexivity.
Qed.

(** C3 (the failing input).  The slug segment [%] is not a percent escape:
    decoding it throws, outside any [try], and the call of [fetchResource]
    ends with that URIError instead of a payload. *)
Theorem fetch_raises_on_malformed_slug (reg : SkillRegistry) :
  fetchResource fs reg (js "resource://skillz/%/a")
  = ([], Raised uri_malformed).
Proof.
  change (js "resource://skillz/%/a")
    with (URI_PREFIX ++ [PERCENT] ++ [SLASH] ++ js "a").
  rewrite fetchResource_segments.
  - reflexivity.
  - intros [E|[]]. discriminate.
Qed.

Lemma makeErrorResource_shape uri message :
  r_encoding (makeErrorResource uri message) = js "utf-8"
  /\ startsWith (js "Error:") (r_content (makeErrorResource uri message)) = true.
Proof. split; reflexivity. Qed.

(** Reading never runs out of fuel, and what it returns early is an error
    payload. *)
Lemma read_resource_outcomes uri skill rel t out :
  read_resource fs uri skill rel = (t, out) ->
  out <> OutOfFuel
  /\ forall er, out = Returned (inl er) -> exists m, er = makeErrorResource uri m.
Proof.
  unfold read_resource.
  assert (forall (tt : list Event) (x : Resource + bytes),
             (exists m, x = inl (makeErrorResource uri m)) \/ (exists d, x = inr d) ->
             (tt, Returned x) = (t, out) ->
             out <> OutOfFuel
             /\ forall er, out = Returned (inl er) ->
                           exists m, er = makeErrorResource uri m) as Hret.
  { intros tt x Hx [= <- <-]. split; [discriminate|].
    intros er [= ->]. destruct Hx as [(m & [= ->])|(d & [=])]. eauto. }
  assert (forall (tt : list Event) e,
             (tt, @Raised (Resource + bytes) e) = (t, out) ->
             out <> OutOfFuel
             /\ forall er, out = Returned (inl er) ->
                           exists m, er = makeErrorResource uri m) as Hraise.
  { intros tt e [= <- <-]. split; discriminate. }
  destruct (zip_backed skill).
  - unfold readFileBytesSync.
    destruct (fs_readFileSync fs _) as [zd|?]; simpl; [|apply Hraise].
    destruct (JSZip_loadAsync zd) as [zip|?]; simpl; [|apply Hraise].
    destruct (zip_file zip _) as [file|]; simpl; [|apply Hret; eauto].
    destruct (zip_dir file); simpl; [apply Hret; eauto|].
    destruct (zip_async file); simpl; [apply Hret; eauto | apply Hraise].
  - destruct (negb _); [apply Hret; eauto|].
    unfold existsSync, isFile, readFileBytesSync. simpl.
    destruct (fs_existsSync fs _); simpl; [|apply Hret; eauto].
    destruct (fs_statSync fs _) as [[]|?]; simpl;
      try (apply Hret; eauto); try apply Hraise.
    destruct (fs_readFileSync fs _); simpl; [apply Hret; eauto | apply Hraise].
Qed.

(** Every payload of [fetch_located] is utf-8, and the call never throws. *)
Lemma fetch_located_returns reg uri slug rel :
  exists t r, fetch_located fs reg uri slug rel = (t, Returned r)
              /\ r_encoding r = js "utf-8".
Proof.
  unfold fetch_located.
  destruct (includes [DOT; DOT] rel || startsWith [SLASH] rel);
    [eexists _, _; split; reflexivity|].
  destruct (registry_get reg slug) as [skill|e];
    [|eexists _, _; split; reflexivity].
  destruct (read_resource fs uri skill rel) as [tr out] eqn:Er.
  destruct (read_resource_outcomes _ _ _ _ _ Er) as [Hfuel Herr].
  destruct out as [[er|data]|e|]; simpl; [| | |congruence].
  - destruct (Herr er eq_refl) as (m & ->).
    eexists _, _; split; reflexivity.
  - eexists _, _; split; reflexivity.
  - eexists _, _; split; reflexivity.
Qed.

(** Every call of [fetchResource] returns a payload, whose encoding is
    utf-8, or ends with the URIError of the slug. *)
Lemma fetchResource_outcomes reg uri :
  (exists t r, fetchResource fs reg uri = (t, Returned r)
               /\ r_encoding r = js "utf-8")
  \/ fetchResource fs reg uri = ([], Raised uri_malformed).
Proof.
  unfold fetchResource.
  destruct (negb (startsWith URI_PREFIX uri));
    [left; eexists _, _; split; reflexivity|].
  destruct (split_remainder _) as [[rawSlug rel]|];
    [|left; eexists _, _; split; reflexivity].
  unfold decodeURIComponent. destruct (uri_decode None rawSlug) as [slug|].
  - left. destruct (fetch_located_returns reg uri slug rel) as (t & r & E & He).
    exists t, r. simpl. rewrite E. auto.
  - right. reflexivity.
Qed.

(** [isValidUtf8] accepts every buffer, so no payload of [fetchResource] is
    ever base64: the octets of a located resource are always returned as
    lossily decoded text. *)
Lemma fetch_never_base64 (reg : SkillRegistry) (uri : jsstring)
  (t : list Event) (r : Resource) :
  fetchResource fs reg uri = (t, Returned r) ->
  r_encoding r = js "utf-8" /\ forall data, isValidUtf8 data = true.
Proof.
  intros E. split; [|reflexivity].
  destruct (fetchResource_outcomes reg uri) as [(t' & r' & E' & He)|E'];
    rewrite E' in E; [|discriminate].
  injection E as _ <-. exact He.
Qed.

(** What [fetchResource] reads off a URI is what [parseResourceUri] yields. *)
Lemma fetchResource_parse reg uri slug rel :
  parseResourceUri uri = Ok (Some (slug, rel)) ->
  fetchResource fs reg uri = fetch_located fs reg uri slug rel.
Proof.
  unfold parseResourceUri, fetchResource.
  destruct (negb (startsWith URI_PREFIX uri)); [discriminate|].
  destruct (split_remainder _) as [[rawSlug rel']|]; [|discriminate].
  destruct (decodeURIComponent rawSlug) as [s|e]; simpl; [|discriminate].
  intros [= <- <-]. destruct (fetch_located fs reg uri s rel'). reflexivity.
Qed.

End Fetch.

(** C5 (the failing input).  The path [my file.txt] of the skill [foo] is
    built into a URI whose path is percent-encoded, and read back without
    decoding: the pair that comes back is not the pair that went in, and the
    file behind the URI is not found. *)
Theorem build_parse_not_inverse :
  let p := js "my file.txt" in
  let uri := js "resource://skillz/foo/my%20file.txt" in
  includes [DOT; DOT] p = false /\ startsWith [SLASH] p = false
  /\ buildResourceUri Demo.skill_foo p = Ok uri
  /\ parseResourceUri uri = Ok (Some (js "foo", js "my%20file.txt"))
  /\ js "my%20file.txt" <> p
  /\ fs_readFileSync Demo.disk (js "/r/a/my file.txt") = Ok (js "hello")
  /\ fetchResource (H := Demo.host) (L := Demo.libs) Demo.disk Demo.expected uri
     = ([EvExists (js "/r/a/my%20file.txt")],
        Returned (makeErrorResource uri
                    (js "resource not found: my%20file.txt"))).
Proof.
  repeat split; try (vm_compute; reflexivity). discriminate.
Qed.

(** ** Strict and lossy decoding *)

(** On well-formed UTF-8 the lossy decoder is the strict one. *)
Lemma utf8_decode_lossy_strict st bs s :
  utf8_decode_strict st bs = Some s -> utf8_decode_lossy st bs = s.
Proof.
  revert st s. induction bs as [|b t IH]; intros st s.
  - destruct st; simpl; [discriminate|]. now intros [= <-].
  - destruct st as [u|]; simpl.
    + destruct (between (u_lower u) (u_upper u) b); [|discriminate].
      destruct (u_needed u) as [|[|n]].
      * destruct (utf8_decode_strict None t) eqn:E; [|discriminate].
        simpl. intros [= <-]. now rewrite (IH _ _ E).
      * destruct (utf8_decode_strict None t) eqn:E; [|discriminate].
        simpl. intros [= <-]. now rewrite (IH _ _ E).
      * apply IH.
    + destruct (utf8_lead b).
      * destruct (utf8_decode_strict None t) eqn:E; [|discriminate].
        simpl. intros [= <-]. now rewrite (IH _ _ E).
      * apply IH.
      * discriminate.
Qed.

(** ** Building and reading URIs of plain paths *)

Lemma unescaped_not_percent c : uri_unescaped c = true -> (c =? PERCENT) = false.
Proof. unfold uri_unescaped. intros Hc. classes. Qed.

Lemma unescaped_not_slash c : uri_unescaped c = true -> c <> SLASH.
Proof. unfold uri_unescaped. intros Hc ->. discriminate. Qed.

Lemma uri_encode_unescaped s :
  Forall (fun c => uri_unescaped c = true) s -> uri_encode s = Some s.
Proof.
  induction 1 as [|c s Hc Hs IH]; [reflexivity|].
  simpl. rewrite Hc, IH. reflexivity.
Qed.

Lemma uri_decode_unescaped s :
  Forall (fun c => uri_unescaped c = true) s -> uri_decode None s = Some s.
Proof.
  induction 1 as [|c s Hc Hs IH]; [reflexivity|].
  simpl. rewrite (unescaped_not_percent c Hc), IH. reflexivity.
Qed.

(** Slashes survive the encoding of a path, and so does every unit that
    needs no escape. *)
Lemma encode_plain_path p :
  Forall (fun c => uri_unescaped c = true \/ c = SLASH) p ->
  exists e, uri_encode p = Some e /\ unescape_slashes e = p.
Proof.
  unfold unescape_slashes.
  induction 1 as [|c p Hc Hp (e & He & Hu)]; [exists []; split; reflexivity|].
  destruct Hc as [Hc| ->].
  - exists (c :: e). split; [simpl; rewrite Hc, He; reflexivity|].
    change (replace_escaped_slashes 0 (c :: e))
      with (if startsWith (js "%2F") (c :: e)
            then SLASH :: replace_escaped_slashes 2 e
            else c :: replace_escaped_slashes 0 e).
    assert (startsWith (js "%2F") (c :: e) = false) as ->.
    { change (startsWith (js "%2F") (c :: e))
        with ((PERCENT =? c) && startsWith [50; 70] e).
      rewrite N.eqb_sym, (unescaped_not_percent c Hc). reflexivity. }
    rewrite Hu. reflexivity.
  - exists (js "%2F" ++ e).
    change (uri_encode (SLASH :: p))
      with (option_map (app (js "%2F")) (uri_encode p)).
    rewrite He. split; [reflexivity|].
    change (replace_escaped_slashes 0 (js "%2F" ++ e))
      with (SLASH :: replace_escaped_slashes 0 e).
    rewrite Hu. reflexivity.
Qed.

(** Building and reading are inverse on the paths that need no escape. *)
Lemma build_parse_plain skill p :
  slug skill <> [] -> p <> [] ->
  Forall (fun c => uri_unescaped c = true) (slug skill) ->
  Forall (fun c => uri_unescaped c = true \/ c = SLASH) p ->
  exists uri,
    buildResourceUri skill p = Ok uri
    /\ parseResourceUri uri = Ok (Some (slug skill, p)).
Proof.
  intros Hs Hp Hslug Hpath.
  destruct (encode_plain_path p Hpath) as (e & He & Hu).
  exists (URI_PREFIX ++ slug skill ++ [SLASH] ++ p). split.
  - unfold buildResourceUri, encodeURIComponent.
    rewrite (uri_encode_unescaped _ Hslug), He. simpl. rewrite Hu. reflexivity.
  - unfold parseResourceUri.
    rewrite startsWith_app, slice_from_app. cbn [negb].
    rewrite split_remainder_segments.
    + destruct (slug skill) as [|c s] eqn:Es; [congruence|].
      destruct p as [|d r]; [congruence|].
      unfold decodeURIComponent. rewrite (uri_decode_unescaped _ Hslug).
      reflexivity.
    + intros Hin. rewrite List.Forall_forall in Hslug.
      apply (unescaped_not_slash _ (Hslug _ Hin)). reflexivity.
Qed.

(** ** The front matter pattern *)

Lemma LF_is_space : is_js_space LF = true.
Proof. reflexivity. Qed.

Lemma greedy_space_lf_sound s r :
  greedy_space_lf s = Some r -> exists ws, all_space ws /\ s = ws ++ [LF] ++ r.
Proof.
  revert r. induction s as [|c t IH]; simpl; intros r; [discriminate|].
  destruct (is_js_space c) eqn:Hc; [|discriminate].
  destruct (greedy_space_lf t) as [r'|].
  - intros [= ->]. destruct (IH r eq_refl) as (ws & Hws & ->).
    exists (c :: ws). split; [constructor; assumption | reflexivity].
  - destruct (c =? LF) eqn:E; [|discriminate]. apply N.eqb_eq in E. subst c.
    intros [= ->]. exists []. split; [constructor | reflexivity].
Qed.

Lemma greedy_space_lf_complete ws r :
  all_space ws -> exists r', greedy_space_lf (ws ++ [LF] ++ r) = Some r'.
Proof.
  induction 1 as [|c ws Hc Hws IH]; simpl.
  - destruct (greedy_space_lf r); eauto.
  - simpl in IH. destruct IH as (r' & E). rewrite Hc, E. eauto.
Qed.

Lemma closing_marker_sound s rest :
  closing_marker s = Some rest ->
  exists ws, all_space ws /\ s = [LF] ++ js "---" ++ ws ++ [LF] ++ rest.
Proof.
  unfold closing_marker.
  destruct (startsWith (LF :: js "---") s) eqn:E; [|discriminate].
  apply startsWith_prefix in E as (r & ->). intros Hg.
  change (skipn 4 ((LF :: js "---") ++ r)) with r in Hg.
  apply greedy_space_lf_sound in Hg as (ws & Hws & ->). eauto.
Qed.

Lemma closing_marker_complete ws rest :
  all_space ws ->
  exists rest', closing_marker ([LF] ++ js "---" ++ ws ++ [LF] ++ rest) = Some rest'.
Proof.
  intros Hws. unfold closing_marker.
  change ([LF] ++ js "---" ++ ws ++ [LF] ++ rest)
    with ((LF :: js "---") ++ (ws ++ [LF] ++ rest)).
  rewrite startsWith_app.
  change (skipn 4 ((LF :: js "---") ++ ws ++ [LF] ++ rest))
    with (ws ++ [LF] ++ rest).
  now apply greedy_space_lf_complete.
Qed.

Lemma lazy_header_sound s fm rest :
  lazy_header s = Some (fm, rest) ->
  exists ws, all_space ws /\ s = fm ++ [LF] ++ js "---" ++ ws ++ [LF] ++ rest.
Proof.
  revert fm. induction s as [|c t IH]; intros fm.
  - simpl. discriminate.
  - change (lazy_header (c :: t))
      with (match closing_marker (c :: t) with
            | Some b => Some ([], b)
            | None => match lazy_header t with
                      | Some (f, b) => Some (c :: f, b)
                      | None => None
                      end
            end).
    destruct (closing_marker (c :: t)) eqn:E.
    + intros [= <- <-]. now apply closing_marker_sound.
    + destruct (lazy_header t) as [[f b]|]; [|discriminate].
      intros [= <- <-]. destruct (IH f eq_refl) as (ws & Hws & ->). eauto.
Qed.

Lemma lazy_header_complete fm ws rest :
  all_space ws ->
  exists fm' rest',
    lazy_header (fm ++ [LF] ++ js "---" ++ ws ++ [LF] ++ rest) = Some (fm', rest').
Proof.
  intros Hws. induction fm as [|c fm IH].
  - destruct (closing_marker_complete ws rest Hws) as (r & E).
    simpl app in *. destruct ws; simpl in *; rewrite E; eauto.
  - change ((c :: fm) ++ [LF] ++ js "---" ++ ws ++ [LF] ++ rest)
      with (c :: (fm ++ [LF] ++ js "---" ++ ws ++ [LF] ++ rest)).
    set (t := fm ++ [LF] ++ js "---" ++ ws ++ [LF] ++ rest) in *.
    change (lazy_header (c :: t))
      with (match closing_marker (c :: t) with
            | Some b => Some ([], b)
            | None => match lazy_header t with
                      | Some (f, b) => Some (c :: f, b)
                      | None => None
                      end
            end).
    destruct (closing_marker (c :: t)); [eauto|].
    destruct IH as (f & b & ->). eauto.
Qed.

Lemma opening_space_sound s fm rest :
  opening_space s = Some (fm, rest) ->
  exists ws1 ws2,
    all_space ws1 /\ all_space ws2
    /\ s = ws1 ++ [LF] ++ fm ++ [LF] ++ js "---" ++ ws2 ++ [LF] ++ rest.
Proof.
  induction s as [|c t IH]; simpl; [discriminate|].
  destruct (is_js_space c) eqn:Hc; [|discriminate].
  destruct (opening_space t) as [[f b]|].
  - intros [= -> ->]. destruct (IH eq_refl) as (ws1 & ws2 & H1 & H2 & ->).
    exists (c :: ws1), ws2. repeat split; [constructor|..]; assumption || reflexivity.
  - destruct (c =? LF) eqn:E; [|discriminate]. apply N.eqb_eq in E. subst c.
    intros Hl. apply lazy_header_sound in Hl as (ws2 & H2 & ->).
    exists [], ws2. repeat split; [constructor | assumption].
Qed.

Lemma opening_space_complete ws1 ws2 fm rest :
  all_space ws1 -> all_space ws2 ->
  exists fm' rest',
    opening_space (ws1 ++ [LF] ++ fm ++ [LF] ++ js "---" ++ ws2 ++ [LF] ++ rest)
    = Some (fm', rest').
Proof.
  intros H1 H2. induction H1 as [|c ws1 Hc Hws IH].
  - destruct (lazy_header_complete fm ws2 rest H2) as (f & b & E).
    simpl in E |- *.
    destruct (opening_space _) as [[f' b']|]; [eauto|].
    rewrite E. eauto.
  - simpl. rewrite Hc. destruct IH as (f & b & E). simpl in E. rewrite E. eauto.
Qed.

(** The matcher finds a marker block, and finds one whenever there is one. *)
Lemma FRONT_MATTER_PATTERN_sound content fm rest :
  FRONT_MATTER_PATTERN_exec content = Some (fm, rest) ->
  marker_block content fm rest.
Proof.
  unfold FRONT_MATTER_PATTERN_exec, marker_block.
  destruct (startsWith (js "---") content) eqn:E; [|discriminate].
  apply startsWith_prefix in E as (r & ->).
  change (skipn 3 (js "---" ++ r)) with r. intros Ho.
  apply opening_space_sound in Ho as (ws1 & ws2 & H1 & H2 & ->). eauto.
Qed.

Lemma FRONT_MATTER_PATTERN_complete content :
  (exists fm rest, marker_block content fm rest) ->
  exists fm rest, FRONT_MATTER_PATTERN_exec content = Some (fm, rest).
Proof.
  intros (fm & rest & ws1 & ws2 & H1 & H2 & ->).
  unfold FRONT_MATTER_PATTERN_exec. rewrite startsWith_app.
  apply (opening_space_complete ws1 ws2 fm rest H1 H2).
Qed.

Lemma FRONT_MATTER_PATTERN_None content :
  FRONT_MATTER_PATTERN_exec content = None <->
  ~ exists fm rest, marker_block content fm rest.
Proof.
  split.
  - intros E Hm. apply FRONT_MATTER_PATTERN_complete in Hm as (f & b & E').
    congruence.
  - intros Hn. destruct (FRONT_MATTER_PATTERN_exec content) as [[f b]|] eqn:E;
      [|reflexivity].
    exfalso. apply Hn. exists f, b. now apply FRONT_MATTER_PATTERN_sound.
Qed.

(** ** parseSkillMd *)

Lemma includes_nil s : includes [] s = true.
Proof. destruct s; reflexivity. Qed.

Lemma includes_label label a b :
  includes label (a ++ source_label (Some label) ++ b) = true.
Proof.
  destruct label as [|c p]; [apply includes_nil|]. apply includes_app.
Qed.

(** The test the parser makes on [name] and [description]. *)
Lemma field_check data key text :
  ToString (js_or (get_prop data key) (JStr [])) = Ok text ->
  nonempty (trim text) = false
  <-> field_missing data key \/ field_blank data key \/ field_falsy data key.
Proof.
  unfold field_missing, field_blank, field_falsy, js_or.
  destruct (truthy (get_prop data key)) eqn:Ht; intros Et.
  - split.
    + intros E. right. left. exists text. split; [assumption|].
      destruct (trim text); [reflexivity | discriminate].
    + intros [[E|E]|[(t & E1 & E2)|E]]; try (rewrite E in Ht; discriminate);
        try discriminate.
      assert (t = text) as -> by congruence. rewrite E2. reflexivity.
  - simpl in Et. injection Et as <-. split; [auto|]. intros _. reflexivity.
Qed.

Lemma Throw_inj {A} (a b : JsError) : @Throw A a = Throw b -> a = b.
Proof. now intros [= ->]. Qed.

(** The header read through [loaded || {}] has the properties of [loaded]. *)
Lemma get_prop_or loaded key :
  get_prop (js_or loaded (JObj [])) key = get_prop loaded key.
Proof.
  unfold js_or. destruct (truthy loaded) eqn:Ht; [reflexivity|].
  destruct loaded; try reflexivity. discriminate.
Qed.

Lemma is_object_or loaded :
  is_object (js_or loaded (JObj [])) = false -> ~ is_mapping loaded.
Proof.
  destruct loaded; simpl; try discriminate; intros _ [].
Qed.

Lemma not_mapping_missing loaded key :
  ~ is_mapping loaded -> field_missing loaded key.
Proof.
  intros Hm. left. destruct loaded; try reflexivity. destruct Hm. exact I.
Qed.

(** ** String conversion *)

Lemma field_converts v :
  converts v = true -> exists text, ToString (js_or v (JStr [])) = Ok text.
Proof.
  unfold converts, js_or. destruct (truthy v).
  - destruct (ToString v); [eauto | discriminate].
  - intros _. simpl. eauto.
Qed.

Lemma Array_map_converts items :
  forallb converts items = true ->
  exists texts,
    Array_map (fun item => res_bind (ToString item) (fun text => Ok (trim text)))
      items = Ok texts.
Proof.
  induction items as [|x r IH]; simpl; [eauto|].
  intros Hc. apply andb_true_iff in Hc as [Hx Hr].
  destruct (IH Hr) as (texts & ->). unfold converts in Hx.
  destruct (ToString x); [simpl; eauto | discriminate].
Qed.

Lemma parse_allowed_tools_converts allowed :
  match allowed with
  | JArr items => forallb converts items
  | _ => true
  end = true ->
  exists tools, parse_allowed_tools allowed = Ok tools.
Proof.
  destruct allowed; simpl; eauto.
  intros Hc. destruct (Array_map_converts _ Hc) as (texts & ->). simpl. eauto.
Qed.

Lemma license_converts lic :
  converts lic = true ->
  exists l,
    (if truthy lic
     then res_bind (ToString lic) (fun text => Ok (Some (trim text)))
     else Ok None) = Ok l.
Proof.
  unfold converts. destruct (truthy lic); [|eauto].
  destruct (ToString lic); [simpl; eauto | discriminate].
Qed.

(** A conversion that fails throws the TypeError of the language. *)
Lemma ToString_throws : forall v e, ToString v = Throw e -> e = conversion_error.
Proof.
  fix IH 1. intros v e. destruct v as [| |[]|n|s|items|props|text entries];
    simpl; try discriminate.
  - match goal with
    | |- res_bind (?f items) _ = _ -> _ => set (elements := f)
    end.
    assert (forall e', elements items = Throw e' -> e' = conversion_error) as Hel.
    { clear e. revert items. fix IHl 1. intros [|x r] e'; [discriminate|].
      pose proof (IH x) as Hx. pose proof (IHl r) as Hr.
      simpl.
      match goal with
      | |- res_bind ?h _ = _ -> _ => destruct h as [text|err] eqn:Eh
      end; simpl.
      - destruct (elements r) as [texts|err]; simpl; [discriminate|].
        intros [= <-]. now apply Hr.
      - intros [= <-]. destruct x; try discriminate; now apply Hx. }
    destruct (elements items) as [texts|err]; simpl; [discriminate|].
    intros [= <-]. now apply Hel.
  - destruct (has_own_property _ _); [|discriminate]. now intros [= <-].
Qed.

Lemma Array_map_throws items e :
  Array_map (fun item => res_bind (ToString item) (fun text => Ok (trim text)))
    items = Throw e ->
  e = conversion_error.
Proof.
  induction items as [|x r IH]; simpl; [discriminate|].
  destruct (ToString x) as [text|err] eqn:Ex; simpl.
  - destruct (Array_map _ r); simpl; [discriminate|]. intros [= <-]. now apply IH.
  - intros [= <-]. eapply ToString_throws. eassumption.
Qed.

Section ParserProperties.
Context {L : Libraries}.

(** X11.  A failure of the parser is a validation error whose message holds
    the supplied label, or the TypeError of a String conversion. *)
Theorem parseSkillMd_error content filePath e :
  parseSkillMd content filePath = Throw e ->
  (err_kind e = SkillValidationError
   /\ forall label, filePath = Some label ->
                    includes label (err_message e) = true)
  \/ e = conversion_error.
Proof.
  unfold parseSkillMd.
  assert (forall a b,
             err_kind (validation_error (a ++ source_label filePath ++ b))
             = SkillValidationError
             /\ forall label, filePath = Some label ->
                  includes label
                    (err_message (validation_error (a ++ source_label filePath ++ b)))
                  = true) as Hmsg.
  { intros a b. split; [reflexivity|]. intros label ->. apply includes_label. }
  destruct (FRONT_MATTER_PATTERN_exec content) as [[fm rest]|].
  2:{ intros E. apply Throw_inj in E. subst e. left. apply (Hmsg []). }
  destruct (yaml_load fm) as [loaded|err].
  2:{ intros E. apply Throw_inj in E. subst e. left. apply Hmsg. }
  set (data := js_or loaded (JObj [])).
  assert (forall (k : jsstring -> Res ParsedSkillMd) v,
             (forall text, k text = Throw e ->
                (err_kind e = SkillValidationError
                 /\ forall label, filePath = Some label ->
                      includes label (err_message e) = true)
                \/ e = conversion_error) ->
             res_bind (ToString v) k = Throw e ->
             (err_kind e = SkillValidationError
              /\ forall label, filePath = Some label ->
                   includes label (err_message e) = true)
             \/ e = conversion_error) as Hbind.
  { intros k v Hk. destruct (ToString v) as [text|err] eqn:Ev; simpl.
    - apply Hk.
    - intros [= <-]. right. eapply ToString_throws. eassumption. }
  destruct data eqn:Ed;
    try (intros E; apply Throw_inj in E; subst e; left; apply Hmsg);
    (apply Hbind; intros nameText; apply Hbind; intros descriptionText;
     (destruct (negb (nonempty (trim nameText)));
        [intros E; apply Throw_inj in E; subst e; left; apply Hmsg|]);
     (destruct (negb (nonempty (trim descriptionText)));
        [intros E; apply Throw_inj in E; subst e; left; apply Hmsg|]);
     match goal with
     | |- res_bind (parse_allowed_tools ?a) _ = _ -> _ =>
         destruct (parse_allowed_tools a) as [tools|err] eqn:Ea
     end; simpl;
     [ match goal with
       | |- res_bind ?l _ = _ -> _ => destruct l as [lic|err] eqn:El
       end; simpl; [discriminate|];
       intros [= <-]; right;
       match type of El with
       | (if ?t then _ else _) = _ => destruct t; [|discriminate]
       end;
       match type of El with
       | res_bind (ToString ?v) _ = _ =>
           destruct (ToString v) eqn:Ev; [discriminate|];
           simpl in El; injection El as <-; eapply ToString_throws; eassumption
       end
     | intros [= <-]; right;
       match type of Ea with
       | parse_allowed_tools ?a = _ => destruct a; simpl in Ea; try discriminate
       end;
       match type of Ea with
       | res_bind ?m _ = _ => destruct m eqn:Em; [discriminate|];
           simpl in Ea; injection Ea as <-; eapply Array_map_throws; eassumption
       end ]).
Qed.

(** What the parser does with a header that loads and whose fields String
    converts: it rejects what is no object, then a [name] without text, then
    a [description] without text, and returns otherwise. *)
Lemma parseSkillMd_loaded content filePath fm rest loaded :
  FRONT_MATTER_PATTERN_exec content = Some (fm, rest) ->
  yaml_load fm = Ok loaded ->
  fields_convert loaded = true ->
  let data := js_or loaded (JObj []) in
  let result := parseSkillMd content filePath in
  let rejected :=
    exists a b,
      result = Throw (validation_error (a ++ source_label filePath ++ b)) in
  (is_object data = false /\ rejected)
  \/ (is_object data = true
      /\ exists nameText descriptionText,
           ToString (js_or (get_prop data (js "name")) (JStr [])) = Ok nameText
           /\ ToString (js_or (get_prop data (js "description")) (JStr []))
              = Ok descriptionText
           /\ ((nonempty (trim nameText) = false /\ rejected)
               \/ (nonempty (trim nameText) = true
                   /\ nonempty (trim descriptionText) = false /\ rejected)
               \/ (nonempty (trim nameText) = true
                   /\ nonempty (trim descriptionText) = true
                   /\ exists parsed, result = Ok parsed))).
Proof.
  intros Eexec Eyaml Hconv data result rejected.
  subst result rejected. unfold parseSkillMd. rewrite Eexec, Eyaml.
  fold data.
  assert (forall key, get_prop loaded key = get_prop data key) as Hg
    by (intros key; symmetry; apply get_prop_or).
  clearbody data.
  unfold fields_convert, allowed_tools_value in Hconv.
  repeat rewrite Hg in Hconv.
  apply andb_true_iff in Hconv as [Hconv Hallowed].
  apply andb_true_iff in Hconv as [Hconv Hlicense].
  apply andb_true_iff in Hconv as [Hname Hdescription].
  apply field_converts in Hname as (nameText & Hname).
  apply field_converts in Hdescription as (descriptionText & Hdescription).
  apply parse_allowed_tools_converts in Hallowed as (tools & Hallowed).
  apply license_converts in Hlicense as (lic & Hlicense).
  destruct (is_object data) eqn:Hobj.
  - right. split; [reflexivity|]. exists nameText, descriptionText.
    split; [assumption|]. split; [assumption|].
    destruct data; try discriminate;
      rewrite Hname, Hdescription; cbn [res_bind];
      (destruct (nonempty (trim nameText)); cbn [negb];
        [|left; split; [reflexivity|]; eexists _, _; reflexivity]);
      right;
      (destruct (nonempty (trim descriptionText)); cbn [negb];
        [|left; split; [reflexivity|]; split; [reflexivity|];
          eexists _, _; reflexivity]);
      right; (split; [reflexivity|]); (split; [reflexivity|]);
      rewrite Hallowed; cbn [res_bind]; rewrite Hlicense; cbn [res_bind];
      eexists; reflexivity.
  - left. split; [reflexivity|].
    destruct data; try discriminate; eexists _, _; reflexivity.
Qed.

(** C8 (amended).  Where String converts the values of the header it is
    applied to, parseSkillMd fails exactly when the marker block is absent
    or malformed, the header does not load, the loaded header is not a
    mapping, or [name] or [description] is missing, blank, or a value taken
    for false (false, zero, NaN, the empty string); every failure is a
    validation error whose message holds the supplied label. *)
Theorem parse_fails_exactly (content : jsstring) (filePath : option jsstring) :
  header_converts content = true ->
  ((exists e, parseSkillMd content filePath = Throw e) <-> parser_failure content)
  /\ forall e, parseSkillMd content filePath = Throw e ->
       err_kind e = SkillValidationError
       /\ forall label, filePath = Some label ->
                        includes label (err_message e) = true.
Proof.
  intros Hconv.
  assert (forall e a b,
             parseSkillMd content filePath
             = Throw (validation_error (a ++ source_label filePath ++ b)) ->
             parseSkillMd content filePath = Throw e ->
             err_kind e = SkillValidationError
             /\ forall label, filePath = Some label ->
                  includes label (err_message e) = true) as Hmsg.
  { intros e a b -> E. apply Throw_inj in E. subst e.
    split; [reflexivity|]. intros label ->. apply includes_label. }
  unfold parser_failure, failure_condition.
  rewrite <- FRONT_MATTER_PATTERN_None.
  unfold header_converts in Hconv.
  destruct (FRONT_MATTER_PATTERN_exec content) as [[fm rest]|] eqn:Eexec.
  2:{ assert (parseSkillMd content filePath
              = Throw (validation_error
                         ([] ++ source_label filePath
                          ++ js " must begin with YAML front matter delimited by '---'.")))
        as Ep by (unfold parseSkillMd; rewrite Eexec; reflexivity).
      split; [split; [auto | eauto]|]. intros e. apply (Hmsg e _ _ Ep). }
  destruct (yaml_load fm) as [loaded|err] eqn:Eyaml.
  2:{ assert (parseSkillMd content filePath
              = Throw (validation_error
                         (js "Unable to parse YAML in " ++ source_label filePath
                          ++ js ": " ++ error_toString err)))
        as Ep by (unfold parseSkillMd; rewrite Eexec, Eyaml; reflexivity).
      split; [|intros e; apply (Hmsg e _ _ Ep)].
      split; [|eauto]. intros _. right. exists fm, rest. split; [reflexivity|].
      left. eauto. }
  pose proof (parseSkillMd_loaded content filePath fm rest loaded
                Eexec Eyaml Hconv) as Hcases.
  cbv zeta in Hcases.
  assert (forall key text,
             ToString (js_or (get_prop (js_or loaded (JObj [])) key) (JStr []))
             = Ok text ->
             nonempty (trim text) = false
             <-> field_missing loaded key \/ field_blank loaded key
                 \/ field_falsy loaded key) as Hcheck.
  { intros key text. rewrite get_prop_or. apply field_check. }
  destruct Hcases
    as [[Hobj (a & b & Ep)]
       |(Hobj & nameText & descriptionText & Hname & Hdescription
         & [[En (a & b & Ep)]
           |[(En & Edn & a & b & Ep)|(En & Edn & parsed & Ep)]])].
  - split; [|intros e; apply (Hmsg e _ _ Ep)].
    split; [|eauto]. intros _. right. exists fm, rest. split; [reflexivity|].
    right. exists loaded. split; [assumption|]. left.
    now apply is_object_or.
  - split; [|intros e; apply (Hmsg e _ _ Ep)].
    split; [|eauto]. intros _. right. exists fm, rest. split; [reflexivity|].
    right. exists loaded. split; [assumption|]. right. left.
    now apply (Hcheck _ _ Hname).
  - split; [|intros e; apply (Hmsg e _ _ Ep)].
    split; [|eauto]. intros _. right. exists fm, rest. split; [reflexivity|].
    right. exists loaded. split; [assumption|]. right. right.
    now apply (Hcheck _ _ Hdescription).
  - split; [|intros e; congruence].
    split; [intros [e He]; congruence|].
    intros [Hno|(fm' & rest' & [= <- <-] & Hcase)]; [discriminate|].
    destruct Hcase as [[e' He']|(v & Ev & Hv)]; [congruence|].
    assert (v = loaded) as -> by congruence.
    exfalso. destruct Hv as [Hm|[Hn|Hd]].
    + apply (not_mapping_missing loaded (js "name")) in Hm.
      assert (nonempty (trim nameText) = false)
        by (apply (Hcheck _ _ Hname); auto).
      congruence.
    + apply (Hcheck _ _ Hname) in Hn. congruence.
    + apply (Hcheck _ _ Hdescription) in Hd. congruence.
Qed.

(** A value that String cannot convert, under [name], makes the parser throw
    the TypeError of the conversion whatever else the header holds. *)
Lemma parseSkillMd_conversion_error content filePath fm rest props e :
  FRONT_MATTER_PATTERN_exec content = Some (fm, rest) ->
  yaml_load fm = Ok (JObj props) ->
  ToString (lookup_prop (js "name") props) = Throw e ->
  parseSkillMd content filePath = Throw conversion_error.
Proof.
  intros Eexec Eyaml Ename. unfold parseSkillMd. rewrite Eexec, Eyaml.
  change (js_or (JObj props) (JObj [])) with (JObj props).
  cbv beta iota zeta. change (get_prop (JObj props) (js "name"))
    with (lookup_prop (js "name") props).
  assert (truthy (lookup_prop (js "name") props) = true) as Ht.
  { destruct (truthy _) eqn:Ht; [reflexivity|].
    destruct (lookup_prop (js "name") props) as [| |[]|n|[|c s]|items|ps|t en];
      simpl in Ename, Ht; discriminate. }
  unfold js_or at 1. rewrite Ht, Ename.
  rewrite (ToString_throws _ _ Ename). reflexivity.
Qed.
End ParserProperties.



(** ** The registry after a load *)

Section LoadedRegistry.
Context {H : Host} {L : Libraries}.
Variable fs : FileSystem.

Lemma registers_retains P reg reg' : registers P reg reg' -> retains reg reg'.
Proof.
  intros Hr. eapply extends_retains, registers_extends. eassumption.
Qed.

(** A directory candidate whose slug or raw name is taken is dropped. *)
Lemma registerDirSkill_duplicate fuel reg dir skillMdPath data parsed :
  fs_readFileSync fs skillMdPath = Ok data ->
  parseSkillMd (utf8_decode_lossy None data) (Some skillMdPath) = Ok parsed ->
  is_Some (skillsBySlug reg !! slugify (name (parsed_metadata parsed)))
  \/ is_Some (skillsByName reg !! name (parsed_metadata parsed)) ->
  registerDirSkill fs fuel reg dir skillMdPath
  = ([EvReadFile skillMdPath], Returned reg).
Proof.
  intros Er Ep Hdup. unfold registerDirSkill, readFileSync, readFileBytesSync.
  rewrite Er. simpl. rewrite Ep. simpl.
  destruct (Map_has (skillsBySlug reg) _) eqn:Hs; [reflexivity|].
  destruct (Map_has (skillsByName reg) _) eqn:Hn; [reflexivity|].
  apply Map_has_false in Hs, Hn.
  destruct Hdup as [[x Hx]|[x Hx]]; congruence.
Qed.

(** An archive candidate whose slug or raw name is taken is dropped. *)
Lemma tryRegisterZipSkill_duplicate reg archive data zip member prefix file
  text parsed :
  fs_readFileSync fs archive = Ok data ->
  JSZip_loadAsync data = Ok zip ->
  locate_skill_md zip = Some (member, prefix) ->
  zip_file zip member = Some file ->
  zip_async file = Ok text ->
  parseSkillMd (utf8_decode_lossy None text) (Some member) = Ok parsed ->
  is_Some (skillsBySlug reg !! slugify (name (parsed_metadata parsed)))
  \/ is_Some (skillsByName reg !! name (parsed_metadata parsed)) ->
  tryRegisterZipSkill fs reg archive
  = ([EvReadFile archive; EvZipOpen; EvZipRead member], Returned reg).
Proof.
  intros Er Ez El Ef Ea Ep Hdup.
  unfold tryRegisterZipSkill, readFileBytesSync.
  rewrite Er. simpl. rewrite Ez. simpl. rewrite El. simpl. rewrite Ef. simpl.
  rewrite Ea. simpl. rewrite Ep. simpl.
  destruct (Map_has (skillsBySlug reg) _) eqn:Hs; [reflexivity|].
  destruct (Map_has (skillsByName reg) _) eqn:Hn; [reflexivity|].
  apply Map_has_false in Hs, Hn.
  destruct Hdup as [[x Hx]|[x Hx]]; congruence.
Qed.

(** C2.  After a load that returns, the registered skills have pairwise
    distinct slugs and pairwise distinct raw names.  Every registration
    attempt ends normally and either leaves the registry as it is or adds one
    skill whose slug and raw name were both unused; a candidate whose slug or
    raw name is already registered is dropped; and whatever was registered
    stays registered, unchanged, through the rest of the scan. *)
Theorem load_unique_slugs_and_names (fuel : nat) (reg0 reg : SkillRegistry)
  (t : list Event) :
  load fs fuel reg0 = (t, Returned reg) ->
  NoDup (List.map slug (skills reg))
  /\ NoDup (List.map (fun s => name (metadata s)) (skills reg))
  /\ (forall n r dir p t' out,
         registerDirSkill fs n r dir p = (t', out) ->
         out = OutOfFuel
         \/ exists r', out = Returned r' /\ retains r r'
                       /\ registers (fun _ => True) r r')
  /\ (forall r archive t' out,
         tryRegisterZipSkill fs r archive = (t', out) ->
         exists r', out = Returned r' /\ retains r r'
                    /\ registers (fun _ => True) r r')
  /\ (forall n r dir p data parsed,
         fs_readFileSync fs p = Ok data ->
         parseSkillMd (utf8_decode_lossy None data) (Some p) = Ok parsed ->
         is_Some (skillsBySlug r !! slugify (name (parsed_metadata parsed)))
         \/ is_Some (skillsByName r !! name (parsed_metadata parsed)) ->
         registerDirSkill fs n r dir p = ([EvReadFile p], Returned r))
  /\ (forall r archive data zip member prefix file text parsed,
         fs_readFileSync fs archive = Ok data ->
         JSZip_loadAsync data = Ok zip ->
         locate_skill_md zip = Some (member, prefix) ->
         zip_file zip member = Some file ->
         zip_async file = Ok text ->
         parseSkillMd (utf8_decode_lossy None text) (Some member) = Ok parsed ->
         is_Some (skillsBySlug r !! slugify (name (parsed_metadata parsed)))
         \/ is_Some (skillsByName r !! name (parsed_metadata parsed)) ->
         tryRegisterZipSkill fs r archive
         = ([EvReadFile archive; EvZipOpen; EvZipRead member], Returned r))
  /\ (forall n r dir t' r',
         scanDirectory fs n r dir = (t', Returned r') -> retains r r').
Proof.
  intros Hload.
  destruct (registry_ok_distinct reg (load_ok fs _ _ _ _ Hload)) as [Hs Hn].
  split; [exact Hs|]. split; [exact Hn|].
  split.
  { intros n r dir p t' out E.
    apply registerDirSkill_registers in E as [->|(r' & -> & Hr)]; [now left|].
    right. exists r'. split; [reflexivity|].
    assert (registers (fun _ => True) r r') as Hr'.
    { destruct Hr as [->|(sk & ? & ? & ->)]; [now left|].
      right. exists sk. auto. }
    split; [eapply registers_retains; eassumption | assumption]. }
  split.
  { intros r archive t' out E.
    apply tryRegisterZipSkill_registers in E as (r' & -> & Hr).
    exists r'. split; [reflexivity|].
    assert (registers (fun _ => True) r r') as Hr'.
    { destruct Hr as [->|(sk & ? & ? & ->)]; [now left|].
      right. exists sk. auto. }
    split; [eapply registers_retains; eassumption | assumption]. }
  split; [intros; eapply registerDirSkill_duplicate; eassumption|].
  split; [intros; eapply tryRegisterZipSkill_duplicate; eassumption|].
  intros n r dir t' r' E.
  eapply extends_retains, scanDirectory_extends. eassumption.
Qed.

Context {HL : HostLaws H}.

(** C7.  slugify yields the words of the trimmed, lower-cased value (its
    maximal runs of letters and digits) joined by single hyphens, or the
    fallback slug when there is no word; so every slug, and the slug of
    every skill a load registers, is non-empty, made of lower-case letters,
    digits and hyphens, and neither starts nor ends with a hyphen. *)
Theorem slugify_normalises (value : jsstring) :
  slugify value = slugify_spec value
  /\ well_formed_slug (slugify value)
  /\ forall fuel reg0 t reg,
       load fs fuel reg0 = (t, Returned reg) ->
       Forall (fun s => well_formed_slug (slug s)) (skills reg).
Proof.
  split; [apply slugify_refines|]. split; [apply slugify_well_formed|].
  intros fuel reg0 t reg Hload.
  pose proof (load_ok fs _ _ _ _ Hload) as Hok.
  apply List.Forall_forall. intros s Hs. unfold skills in Hs.
  apply list_elem_of_In, list_elem_of_fmap in Hs as ([k s'] & -> & Hin).
  apply elem_of_map_to_list in Hin. simpl.
  rewrite (slug_derived _ Hok _ _ Hin). apply slugify_well_formed.
Qed.

End LoadedRegistry.

(** ** The concrete environment at work *)

Lemma demo_lower_unit_ascii c :
  c < 128 -> Demo.lower_unit c = [if is_upper c then c + 32 else c].
Proof.
  intros Hc. unfold Demo.lower_unit.
  destruct (is_upper c); [reflexivity|].
  assert (between 192 222 c = false) as -> by (apply between_false; lia).
  assert ((c =? 304) = false) as -> by (apply N.eqb_neq; lia).
  assert ((c =? 8490) = false) as -> by (apply N.eqb_neq; lia).
  reflexivity.
Qed.

Lemma demo_lower_unit_no_upper c :
  Forall (fun u => is_upper u = false) (Demo.lower_unit c).
Proof.
  unfold Demo.lower_unit.
  destruct (is_upper c) eqn:Eu.
  { repeat constructor. classes. }
  destruct (between 192 222 c && negb (c =? 215)) eqn:El.
  { repeat constructor. classes. }
  destruct (c =? 304); [repeat constructor|].
  destruct (c =? 8490); [repeat constructor|].
  repeat constructor. exact Eu.
Qed.

Lemma demo_host_laws : HostLaws Demo.host.
Proof.
  split.
  - intros s Hs. simpl. unfold Demo.lower.
    induction Hs as [|c s Hc Hs IH]; [reflexivity|].
    simpl. rewrite demo_lower_unit_ascii by assumption. simpl. now rewrite IH.
  - intros s. simpl. unfold Demo.lower.
    induction s as [|c s IH]; simpl; [constructor|].
    apply Forall_app. split; [apply demo_lower_unit_no_upper | exact IH].
Qed.

Lemma no_slash_foo : ~ In SLASH (js "foo").
Proof. intros Hin. vm_compute in Hin. intuition discriminate. Defined.

(** The request of the scenario: [../../etc/passwd] under a valid slug. *)
Lemma fetch_rejects_traversal_witness :
  fetchResource (H := Demo.host) (L := Demo.libs) Demo.disk Demo.empty_registry
    (js "resource://skillz/foo/../../etc/passwd")
  = ([], Returned (makeErrorResource (js "resource://skillz/foo/../../etc/passwd")
                     PATH_TRAVERSAL)).
Proof.
  destruct (fetch_rejects_traversal (H := Demo.host) (L := Demo.libs) Demo.disk
              Demo.empty_registry (js "foo") (js "../../etc/passwd")
              no_slash_foo (or_introl eq_refl)) as [_ Hd].
  apply (Hd (js "foo")); [discriminate | reflexivity].
Defined.

(** C1 as stated fails: with an empty slug segment the remainder [../x] gets
    the format error, and with the slug segment [%] the call throws. *)
Lemma fetch_traversal_counterexample :
  let fetch := fetchResource (H := Demo.host) (L := Demo.libs) Demo.disk
                 Demo.empty_registry in
  let uri1 := js "resource://skillz//../x" in
  let uri2 := js "resource://skillz/%/../x" in
  uri1 = URI_PREFIX ++ [] ++ [SLASH] ++ js "../x"
  /\ uri2 = URI_PREFIX ++ js "%" ++ [SLASH] ++ js "../x"
  /\ includes [DOT; DOT] (js "../x") = true
  /\ fetch uri1 = ([], Returned (makeErrorResource uri1
                                   (js "invalid resource URI format")))
  /\ fetch uri1 <> ([], Returned (makeErrorResource uri1 PATH_TRAVERSAL))
  /\ fetch uri2 = ([], Raised uri_malformed)
  /\ fetch uri2 <> ([], Returned (makeErrorResource uri2 PATH_TRAVERSAL)).
Proof.
  repeat split; try reflexivity; vm_compute; discriminate.
Qed.

(** The load of the scenario: the skill of the directory [a] and the skill
    of the archive, and neither the directory [c], which declares the slug
    [foo] again, nor the directory nested in [a]. *)
Lemma demo_loaded : Demo.loaded = (Demo.loaded.1, Returned Demo.expected).
Proof. vm_compute. reflexivity. Qed.

Lemma load_unique_slugs_and_names_witness :
  NoDup (List.map slug (skills Demo.expected))
  /\ NoDup (List.map (fun s => name (metadata s)) (skills Demo.expected)).
Proof.
  destruct (load_unique_slugs_and_names (H := Demo.host) (L := Demo.libs)
              Demo.disk 10 Demo.empty_registry Demo.expected Demo.loaded.1
              demo_loaded) as (Hs & Hn & _).
  split; assumption.
Defined.

(** C4 (the failing input).  The file [logo.png] of the skill [foo] holds
    the octets FF D8 FF, which are not UTF-8; the specification asks for
    base64 ([/9j/]), the code answers utf-8 with three replacement
    characters. *)
Theorem fetch_invalid_utf8_as_text :
  fs_readFileSync Demo.disk (js "/r/a/logo.png") = Ok [255; 216; 255]
  /\ utf8_valid [255; 216; 255] = false
  /\ encodeBase64 [255; 216; 255] = js "/9j/"
  /\ fetchResource (H := Demo.host) (L := Demo.libs) Demo.disk Demo.expected
       (js "resource://skillz/foo/logo.png")
     = ([EvExists (js "/r/a/logo.png"); EvStat (js "/r/a/logo.png");
         EvReadFile (js "/r/a/logo.png")],
        Returned (mkResource (js "resource://skillz/foo/logo.png")
                    (js "foo/logo.png") (Some (js "image/png"))
                    [REPLACEMENT; REPLACEMENT; REPLACEMENT] (js "utf-8"))).
Proof. repeat split; vm_compute; reflexivity. Qed.



(** The slug of a name with capitals, punctuation and outer white space. *)
Lemma slugify_normalises_witness :
  slugify (H := Demo.host) (js "  Hello,  World!! ") = js "hello-world"
  /\ well_formed_slug (js "hello-world")
  /\ Forall (fun s => well_formed_slug (slug s)) (skills Demo.expected).
Proof.
  destruct (slugify_normalises (H := Demo.host) (L := Demo.libs)
              (HL := demo_host_laws) Demo.disk (js "  Hello,  World!! "))
    as (Hs & Hw & Hl).
  assert (slugify (H := Demo.host) (js "  Hello,  World!! ") = js "hello-world")
    as E by (vm_compute; reflexivity).
  rewrite E in Hw.
  split; [exact E|]. split; [exact Hw|].
  exact (Hl 10%nat Demo.empty_registry _ _ demo_loaded).
Defined.

Lemma slugify_idempotent_witness :
  slugify (H := Demo.host) (slugify (H := Demo.host) (js "  Hello,  World!! "))
  = slugify (H := Demo.host) (js "  Hello,  World!! ")
  /\ slugify (H := Demo.host) FALLBACK_SLUG = FALLBACK_SLUG.
Proof.
  exact (slugify_idempotent (H := Demo.host) (HL := demo_host_laws)
           (js "  Hello,  World!! ")).
Defined.

(** A well-formed document parses, so it is none of the failures. *)
Lemma parse_fails_exactly_witness :
  header_converts (L := Demo.libs) (Demo.skill_md "Foo" "does foo") = true
  /\ (exists p, parseSkillMd (L := Demo.libs) (Demo.skill_md "Foo" "does foo")
                  (Some (js "/r/a/SKILL.md")) = Ok p)
  /\ ~ parser_failure (L := Demo.libs) (Demo.skill_md "Foo" "does foo").
Proof.
  assert (header_converts (L := Demo.libs) (Demo.skill_md "Foo" "does foo") = true)
    as Hconv by (vm_compute; reflexivity).
  destruct (parse_fails_exactly (L := Demo.libs) (Demo.skill_md "Foo" "does foo")
              (Some (js "/r/a/SKILL.md")) Hconv) as [[_ Hfail] _].
  split; [exact Hconv|].
  split; [eexists; vm_compute; reflexivity|].
  intros Hf. destruct (Hfail Hf) as [e He]. vm_compute in He. discriminate.
Defined.

(** The header [name: {toString: 1}] is rejected with a TypeError, which is
    no validation error. *)
Lemma parse_conversion_example :
  parseSkillMd (L := Demo.libs) (Demo.skill_md "{toString: 1}" "odd")
    (Some (js "SKILL.md"))
  = Throw conversion_error.
Proof. vm_compute. reflexivity. Qed.

(** C8 as stated fails: the header [name: 0] is a mapping whose [name] is
    present and is not blank, and the document is rejected all the same. *)
Lemma parse_counterexample :
  let content := Demo.skill_md "0" "zero" in
  parseSkillMd (L := Demo.libs) content (Some (js "SKILL.md"))
  = Throw (validation_error (js "Front matter in SKILL.md is missing 'name'."))
  /\ ~ stated_failure (L := Demo.libs) content.
Proof.
  split; [vm_compute; reflexivity|].
  unfold stated_failure, failure_condition.
  assert (FRONT_MATTER_PATTERN_exec (Demo.skill_md "0" "zero")
          = Some (Demo.header "0" "zero", js "Body")) as Eexec
    by (vm_compute; reflexivity).
  intros [Hno|(fm & rest & Ex & Hcase)].
  - apply Hno. eexists _, _. apply FRONT_MATTER_PATTERN_sound. exact Eexec.
  - rewrite Eexec in Ex. injection Ex as <- <-.
    destruct Hcase as [[e He]|(v & Hv & Hbad)].
    + vm_compute in He. discriminate.
    + assert (v = JObj [(js "name", JNum (NumInt 0 eq_refl));
                        (js "description", JStr (js "zero"))]) as ->.
      { vm_compute in Hv. injection Hv as <-. reflexivity. }
      destruct Hbad as [Hm|[[[Hm|Hm]|(t & Ht & Hb)]|[[Hm|Hm]|(t & Ht & Hb)]]];
        try (vm_compute in Hm; discriminate);
        try (vm_compute in Ht; injection Ht as <-; vm_compute in Hb;
             discriminate).
      apply Hm. exact I.
Qed.

Lemma demo_archive_registered :
  tryRegisterZipSkill (H := Demo.host) (L := Demo.libs) Demo.disk
    Demo.empty_registry (js "/r/t.zip")
  = ([EvReadFile (js "/r/t.zip"); EvZipOpen; EvZipRead (js "top/SKILL.md")],
     Returned (register Demo.empty_registry Demo.skill_bar)).
Proof. vm_compute. reflexivity. Qed.

(** The archive of the scenario is registered from its directory [top]. *)
Lemma archive_registration_witness :
  exists reg',
    Returned (register Demo.empty_registry Demo.skill_bar) = Returned reg'
    /\ (reg' = Demo.empty_registry
        \/ exists data zip skill prefix,
             fs_readFileSync Demo.disk (js "/r/t.zip") = Ok data
             /\ JSZip_loadAsync (Libraries := Demo.libs) data = Ok zip
             /\ skill_md_location zip prefix
             /\ zipRootPrefix skill = Some prefix
             /\ fresh_in (H := Demo.host) Demo.empty_registry skill
             /\ reg' = register Demo.empty_registry skill)
    /\ (forall data zip,
           fs_readFileSync Demo.disk (js "/r/t.zip") = Ok data ->
           JSZip_loadAsync (Libraries := Demo.libs) data = Ok zip ->
           (forall prefix, ~ skill_md_location zip prefix) ->
           reg' = Demo.empty_registry).
Proof.
  exact (archive_registration (H := Demo.host) (L := Demo.libs) Demo.disk
           Demo.empty_registry (js "/r/t.zip") _ _ demo_archive_registered).
Defined.

(** C9 as stated fails: the archive holds [README.txt] at its root, so no
    directory is common to all its entries, and SKILL.md is not at its root;
    it is registered all the same, from its only directory [top]. *)
Lemma archive_counterexample :
  fs_readFileSync Demo.disk (js "/r/t.zip") = Ok [80; 75; 3; 4]
  /\ JSZip_loadAsync (Libraries := Demo.libs) [80; 75; 3; 4] = Ok Demo.archive
  /\ tryRegisterZipSkill (H := Demo.host) (L := Demo.libs) Demo.disk
       Demo.empty_registry (js "/r/t.zip")
     = ([EvReadFile (js "/r/t.zip"); EvZipOpen; EvZipRead (js "top/SKILL.md")],
        Returned (register Demo.empty_registry Demo.skill_bar))
  /\ skillsBySlug (register Demo.empty_registry Demo.skill_bar) !! js "bar"
     = Some Demo.skill_bar
  /\ zipRootPrefix Demo.skill_bar = Some (js "top/")
  /\ ~ In SKILL_MARKDOWN (zip_file_names Demo.archive)
  /\ forall topDir, ~ common_top_level_dir Demo.archive topDir.
Proof.
  split; [vm_compute; reflexivity|]. split; [vm_compute; reflexivity|].
  split; [exact demo_archive_registered|].
  split; [vm_compute; reflexivity|]. split; [reflexivity|].
  split.
  - intros Hin. vm_compute in Hin. intuition discriminate.
  - intros topDir Hc.
    assert (In (js "README.txt") (List.map fst Demo.archive)) as Hin
      by (vm_compute; auto).
    apply Hc, startsWith_prefix in Hin as (r & Hr).
    assert (In SLASH (js "README.txt")) as Hs
      by (rewrite Hr, !in_app_iff; simpl; tauto).
    vm_compute in Hs. intuition discriminate.
Qed.

(** * Further properties *)

(** ** What a successful parse returns *)

Lemma trimStart_head s :
  match trimStart s with
  | [] => True
  | c :: _ => is_js_space c = false
  end.
Proof.
  induction s as [|c t IH]; simpl; [exact I|].
  destruct (is_js_space c) eqn:Hc; [exact IH | exact Hc].
Qed.

Lemma trimStart_idempotent s : trimStart (trimStart s) = trimStart s.
Proof.
  pose proof (trimStart_head s) as Hh.
  destruct (trimStart s) as [|c r]; [reflexivity|].
  simpl. rewrite Hh. reflexivity.
Qed.

Lemma trimEnd_cons c t :
  trimEnd (c :: t)
  = match trimEnd t with
    | [] => if is_js_space c then [] else [c]
    | t' => c :: t'
    end.
Proof. reflexivity. Qed.

Lemma trimEnd_idempotent s : trimEnd (trimEnd s) = trimEnd s.
Proof.
  induction s as [|c t IH]; [reflexivity|].
  rewrite trimEnd_cons. destruct (trimEnd t) as [|d r] eqn:Et.
  - destruct (is_js_space c) eqn:Hc; [reflexivity|].
    simpl. rewrite Hc. reflexivity.
  - rewrite trimEnd_cons, IH. reflexivity.
Qed.

Lemma trimEnd_head c t :
  is_js_space c = false -> exists r, trimEnd (c :: t) = c :: r.
Proof.
  intros Hc. rewrite trimEnd_cons. destruct (trimEnd t); rewrite ?Hc; eauto.
Qed.

(** [trim] leaves no white space at either end. *)
Lemma trim_idempotent s : trim (trim s) = trim s.
Proof.
  unfold trim. pose proof (trimStart_head s) as Hh.
  destruct (trimStart s) as [|c r]; [reflexivity|].
  destruct (trimEnd_head c r Hh) as (r' & E). rewrite E.
  simpl trimStart. rewrite Hh, <- E. apply trimEnd_idempotent.
Qed.

Lemma collect_extra_unknown data key value :
  In (key, value) (collect_extra data) ->
  In (key, value) (Object_entries data) /\ ~ In key known_keys.
Proof.
  unfold collect_extra. rewrite filter_In. intros [Hin Hk].
  split; [assumption|]. intros Hkn.
  apply andb_true_iff in Hk as [Hk _]. apply negb_true_iff in Hk.
  assert (existsb (jsstring_eqb key) known_keys = true) as Hex.
  { apply existsb_exists. exists key. split; [assumption|].
    apply jsstring_eqb_refl. }
  congruence.
Qed.

Lemma parse_allowed_tools_trimmed allowed tools :
  parse_allowed_tools allowed = Ok tools ->
  Forall (fun tool => tool <> [] /\ trim tool = tool) tools.
Proof.
  assert (forall texts,
             Forall (fun t => trim t = t) texts ->
             Forall (fun tool => tool <> [] /\ trim tool = tool)
               (List.filter nonempty texts)) as Hfilter.
  { intros texts Ht. apply List.Forall_forall. intros t Hin.
    apply filter_In in Hin as [Hin Hne].
    rewrite List.Forall_forall in Ht. split; [|now apply Ht].
    destruct t; [discriminate | discriminate]. }
  destruct allowed; simpl; try (intros [= <-]; constructor).
  - intros [= <-]. apply Hfilter. apply List.Forall_forall. intros t Hin.
    apply in_map_iff in Hin as (w & <- & _). apply trim_idempotent.
  - destruct (Array_map _ items) as [texts|err] eqn:Em; simpl; [|discriminate].
    intros [= <-]. apply Hfilter. clear Hfilter.
    revert texts Em. induction items as [|x r IH]; simpl; intros texts.
    + intros [= <-]. constructor.
    + destruct (ToString x) as [text|err]; simpl; [|discriminate].
      destruct (Array_map _ r) as [ts|err]; simpl; [|discriminate].
      intros [= <-]. constructor; [apply trim_idempotent | now apply IH].
Qed.

Section ParseSuccess.
Context {L : Libraries}.

(** The header behind a successful parse: it loads as a mapping, and the
    record holds the trimmed texts of its [name] and [description]. *)
Lemma parseSkillMd_Ok content filePath parsed :
  parseSkillMd content filePath = Ok parsed ->
  exists frontMatter body props nameText descriptionText allowedTools lic,
    FRONT_MATTER_PATTERN_exec content = Some (frontMatter, body)
    /\ yaml_load frontMatter = Ok (JObj props)
    /\ ToString (lookup_prop (js "name") props) = Ok nameText
    /\ ToString (lookup_prop (js "description") props) = Ok descriptionText
    /\ trim nameText <> [] /\ trim descriptionText <> []
    /\ parse_allowed_tools (allowed_tools_value (JObj props)) = Ok allowedTools
    /\ (if truthy (lookup_prop (js "license") props)
        then res_bind (ToString (lookup_prop (js "license") props))
               (fun text => Ok (Some (trim text)))
        else Ok None) = Ok lic
    /\ parsed
       = mkParsed
           (mkMetadata (trim nameText) (trim descriptionText) lic allowedTools
              (collect_extra (JObj props)))
           (trimStart body).
Proof.
  unfold parseSkillMd.
  destruct (FRONT_MATTER_PATTERN_exec content) as [[fm body]|]; [|discriminate].
  destruct (yaml_load fm) as [loaded|err] eqn:Eyaml; [|discriminate].
  assert (forall v text,
             ToString (js_or v (JStr [])) = Ok text -> trim text <> [] ->
             ToString v = Ok text) as Hor.
  { intros v text. unfold js_or. destruct (truthy v); [auto|].
    simpl. intros [= <-] Hne. now destruct Hne. }
  destruct (js_or loaded (JObj [])) as [| |b|n|s|items|props|text entries] eqn:Ed;
    try discriminate.
  unfold js_or in Ed. destruct (truthy loaded) eqn:Ht.
  2:{ injection Ed as <-. vm_compute. discriminate. }
  subst loaded.
    change (get_prop (JObj props)) with (fun key => lookup_prop key props).
    cbv beta.
    destruct (ToString (js_or (lookup_prop (js "name") props) (JStr [])))
      as [nameText|err] eqn:En; [|discriminate].
    destruct (ToString (js_or (lookup_prop (js "description") props) (JStr [])))
      as [descriptionText|err] eqn:Edn; [|discriminate].
    cbn [res_bind].
    destruct (nonempty (trim nameText)) eqn:Hn; [|discriminate].
    destruct (nonempty (trim descriptionText)) eqn:Hd; [|discriminate].
    cbn [negb].
    match goal with
    | |- res_bind (parse_allowed_tools ?a) _ = _ -> _ =>
        change a with (allowed_tools_value (JObj props));
        destruct (parse_allowed_tools (allowed_tools_value (JObj props)))
          as [tools|err] eqn:Ea; [|discriminate]
    end.
    cbn [res_bind].
    match goal with
    | |- res_bind ?l _ = _ -> _ => destruct l as [lic|err] eqn:El; [|discriminate]
    end.
    cbn [res_bind]. intros [= <-].
    assert (trim nameText <> []) as Hn' by (destruct (trim nameText); easy).
    assert (trim descriptionText <> []) as Hd'
      by (destruct (trim descriptionText); easy).
    exists fm, body, props, nameText, descriptionText, tools, lic.
    split; [reflexivity|]. split; [assumption|].
    split; [now apply Hor|]. split; [now apply Hor|].
    repeat split; assumption.
Qed.

(** X2.  The record of a successful parse: the name and the description are
    not empty and carry no white space at either end, nor does the license
    or any allowed tool; no allowed tool is empty; the extra fields are
    entries of the header under other keys than the five the parser reads;
    the body starts with no white space. *)
Theorem parse_success_fields content filePath parsed :
  parseSkillMd content filePath = Ok parsed ->
  let m := parsed_metadata parsed in
  (name m <> [] /\ trim (name m) = name m)
  /\ (description m <> [] /\ trim (description m) = description m)
  /\ (forall l, license m = Some l -> trim l = l)
  /\ Forall (fun tool => tool <> [] /\ trim tool = tool) (allowedTools m)
  /\ (forall key value, In (key, value) (extra m) -> ~ In key known_keys)
  /\ trimStart (parsed_body parsed) = parsed_body parsed.
Proof.
  intros Hp.
  destruct (parseSkillMd_Ok _ _ _ Hp)
    as (fm & body & props & nameText & descriptionText & tools & lic
        & _ & _ & _ & _ & Hn & Hd & Ha & Hl & ->).
  cbn [parsed_metadata parsed_body name description license allowedTools
       extra].
  repeat split; try assumption; try apply trim_idempotent.
  - intros l ->. destruct (truthy _); [|discriminate].
    destruct (ToString _) as [text|err]; [|discriminate].
    simpl in Hl. injection Hl as <-. apply trim_idempotent.
  - eapply parse_allowed_tools_trimmed. eassumption.
  - intros key value Hin. now apply collect_extra_unknown in Hin.
  - apply trimStart_idempotent.
Qed.

End ParseSuccess.

Lemma parse_success_fields_witness :
  exists parsed,
    parseSkillMd (L := Demo.libs) (Demo.skill_md "Foo" "does foo")
      (Some (js "/r/a/SKILL.md")) = Ok parsed
    /\ name (parsed_metadata parsed) = js "Foo"
    /\ trim (name (parsed_metadata parsed)) = name (parsed_metadata parsed).
Proof.
  eexists. split; [vm_compute; reflexivity|]. split; [reflexivity|].
  refine (proj2 (proj1 (parse_success_fields (L := Demo.libs)
                          (Demo.skill_md "Foo" "does foo")
                          (Some (js "/r/a/SKILL.md")) _ _))).
  vm_compute. reflexivity.
Defined.

(** ** Percent escapes *)

Lemma hex_value_digit n : n < 16 -> hex_value (hex_digit n) = Some n.
Proof.
  intros Hn. unfold hex_value, hex_digit, is_digit.
  destruct (n <? 10) eqn:E.
  - apply N.ltb_lt in E.
    assert (between 48 57 (48 + n) = true) as -> by (apply between_spec; lia).
    f_equal. lia.
  - apply N.ltb_ge in E.
    assert (between 48 57 (55 + n) = false) as -> by (apply between_false; lia).
    assert (between 65 70 (55 + n) = true) as -> by (apply between_spec; lia).
    f_equal. lia.
Qed.

Lemma parse_percent_octet b :
  b < 256 -> parse_hex_octet (hex_digit (b / 16)) (hex_digit (b mod 16)) = Some b.
Proof.
  intros Hb. unfold parse_hex_octet.
  rewrite !hex_value_digit.
  - f_equal. pose proof (N.div_mod b 16). lia.
  - apply N.mod_lt. discriminate.
  - apply N.Div0.div_lt_upper_bound. lia.
Qed.

Lemma hex_digit_class n :
  n < 16 -> is_alnum (hex_digit n) = true.
Proof.
  intros Hn. unfold hex_digit. destruct (n <? 10) eqn:E.
  - apply N.ltb_lt in E. unfold is_alnum, is_digit.
    assert (between 48 57 (48 + n) = true) as -> by (apply between_spec; lia).
    apply orb_true_r.
  - apply N.ltb_ge in E. unfold is_alnum, is_upper.
    assert (between 65 90 (55 + n) = true) as -> by (apply between_spec; lia).
    rewrite orb_true_r. reflexivity.
Qed.

(** Decoding one escape in the two states of the decoder. *)
Lemma uri_decode_escape_start b r :
  b < 256 ->
  uri_decode None (percent_octet b ++ r) =
  match utf8_lead b with
  | LeadUnit u => option_map (cons u) (uri_decode None r)
  | LeadState s' => uri_decode (Some s') r
  | LeadInvalid => None
  end.
Proof.
  intros Hb. unfold percent_octet. simpl app.
  change (uri_decode None (PERCENT :: hex_digit (b / 16) :: hex_digit (b mod 16) :: r))
    with (match parse_hex_octet (hex_digit (b / 16)) (hex_digit (b mod 16)) with
          | None => None
          | Some b' =>
              match utf8_lead b' with
              | LeadUnit u => option_map (cons u) (uri_decode None r)
              | LeadState s' => uri_decode (Some s') r
              | LeadInvalid => None
              end
          end).
  now rewrite parse_percent_octet.
Qed.

Lemma uri_decode_escape_next u b r :
  b < 256 ->
  uri_decode (Some u) (percent_octet b ++ r) =
  if between (u_lower u) (u_upper u) b then
    let cp := u_cp u * 64 + (b - 128) in
    match u_needed u with
    | S (S n) => uri_decode (Some (mkUtf8 cp (S n) 128 191)) r
    | _ => option_map (app (utf16_encode cp)) (uri_decode None r)
    end
  else None.
Proof.
  intros Hb. unfold percent_octet. simpl app.
  change (uri_decode (Some u)
            (PERCENT :: hex_digit (b / 16) :: hex_digit (b mod 16) :: r))
    with (match parse_hex_octet (hex_digit (b / 16)) (hex_digit (b mod 16)) with
          | None => None
          | Some b' =>
              if between (u_lower u) (u_upper u) b' then
                let cp := u_cp u * 64 + (b' - 128) in
                match u_needed u with
                | S (S n) => uri_decode (Some (mkUtf8 cp (S n) 128 191)) r
                | _ => option_map (app (utf16_encode cp)) (uri_decode None r)
                end
              else None
          end).
  now rewrite parse_percent_octet.
Qed.

(** Settle the comparisons of the goal by arithmetic. *)
Ltac settle_tests :=
  repeat match goal with
         | |- context [between ?a ?b ?c] =>
             first [ replace (between a b c) with true
                       by (symmetry; apply between_spec; lia)
                   | replace (between a b c) with false
                       by (symmetry; apply between_false; lia) ]
         | |- context [?a <=? ?b] =>
             first [ replace (a <=? b) with true by (symmetry; apply N.leb_le; lia)
                   | replace (a <=? b) with false by (symmetry; apply N.leb_gt; lia) ]
         | |- context [?a <? ?b] =>
             first [ replace (a <? b) with true by (symmetry; apply N.ltb_lt; lia)
                   | replace (a <? b) with false by (symmetry; apply N.ltb_ge; lia) ]
         | |- context [?a =? ?b] =>
             first [ replace (a =? b) with true by (symmetry; apply N.eqb_eq; lia)
                   | replace (a =? b) with false by (symmetry; apply N.eqb_neq; lia) ]
         end.

Lemma option_map_app_unit {A} (c : A) o :
  option_map (cons c) o = option_map (app [c]) o.
Proof. destruct o; reflexivity. Qed.

Lemma percent_octets_cons b l :
  percent_octets (b :: l) = percent_octet b ++ percent_octets l.
Proof. reflexivity. Qed.

Lemma percent_octets_nil : percent_octets [] = [].
Proof. reflexivity. Qed.

(** The escapes of a scalar value decode to its code units. *)
Lemma uri_decode_code_point cp r :
  scalar_value cp ->
  uri_decode None (percent_octets (utf8_encode cp) ++ r)
  = option_map (app (utf16_encode cp)) (uri_decode None r).
Proof.
  intros [Hmax Hsur].
  pose proof (N.div_mod cp 64 ltac:(discriminate)) as D1.
  pose proof (N.mod_lt cp 64 ltac:(discriminate)) as M1.
  pose proof (N.div_mod (cp / 64) 64 ltac:(discriminate)) as D2.
  pose proof (N.mod_lt (cp / 64) 64 ltac:(discriminate)) as M2.
  pose proof (N.div_mod (cp / 64 / 64) 64 ltac:(discriminate)) as D3.
  pose proof (N.mod_lt (cp / 64 / 64) 64 ltac:(discriminate)) as M3.
  unfold utf8_encode.
  replace (cp / 4096) with (cp / 64 / 64)
    by (rewrite N.Div0.div_div; reflexivity).
  replace (cp / 262144) with (cp / 64 / 64 / 64)
    by (rewrite !N.Div0.div_div; reflexivity).
  set (q1 := cp / 64) in *. set (r1 := cp mod 64) in *.
  set (q2 := q1 / 64) in *. set (r2 := q1 mod 64) in *.
  set (q3 := q2 / 64) in *. set (r3 := q2 mod 64) in *.
  clearbody q1 r1 q2 r2 q3 r3.
  destruct (cp <? 128) eqn:E1.
  { apply N.ltb_lt in E1.
    rewrite !percent_octets_cons, percent_octets_nil, app_nil_r.
    rewrite uri_decode_escape_start by lia.
    unfold utf8_lead, utf16_encode. settle_tests.
    apply option_map_app_unit. }
  apply N.ltb_ge in E1.
  destruct (cp <? 2048) eqn:E2.
  { apply N.ltb_lt in E2.
    rewrite !percent_octets_cons, percent_octets_nil, app_nil_r, <- !app_assoc.
    rewrite uri_decode_escape_start by lia.
    unfold utf8_lead. settle_tests.
    rewrite uri_decode_escape_next by lia.
    cbn [u_lower u_upper u_cp u_needed]. settle_tests. cbv zeta.
    replace ((192 + q1 - 192) * 64 + (128 + r1 - 128)) with cp by lia.
    reflexivity. }
  apply N.ltb_ge in E2.
  destruct (cp <? 65536) eqn:E3.
  { apply N.ltb_lt in E3.
    rewrite !percent_octets_cons, percent_octets_nil, app_nil_r, <- !app_assoc.
    rewrite uri_decode_escape_start by lia.
    unfold utf8_lead. settle_tests.
    rewrite uri_decode_escape_next by lia.
    cbn [u_lower u_upper u_cp u_needed].
    assert (between (if 224 + q2 =? 224 then 160 else 128)
                    (if 224 + q2 =? 237 then 159 else 191) (128 + r2) = true)
      as ->.
    { apply between_spec.
      destruct (224 + q2 =? 224) eqn:Ea; [apply N.eqb_eq in Ea|];
        destruct (224 + q2 =? 237) eqn:Eb; try apply N.eqb_eq in Eb; lia. }
    cbv zeta.
    rewrite uri_decode_escape_next by lia.
    cbn [u_lower u_upper u_cp u_needed]. settle_tests. cbv zeta.
    replace (((224 + q2 - 224) * 64 + (128 + r2 - 128)) * 64 + (128 + r1 - 128))
      with cp by lia.
    reflexivity. }
  apply N.ltb_ge in E3.
  rewrite !percent_octets_cons, percent_octets_nil, app_nil_r, <- !app_assoc.
  rewrite uri_decode_escape_start by lia.
  unfold utf8_lead. settle_tests.
  rewrite uri_decode_escape_next by lia.
  cbn [u_lower u_upper u_cp u_needed].
  assert (between (if 240 + q3 =? 240 then 144 else 128)
                  (if 240 + q3 =? 244 then 143 else 191) (128 + r3) = true)
    as ->.
  { apply between_spec.
    destruct (240 + q3 =? 240) eqn:Ea; [apply N.eqb_eq in Ea|];
      destruct (240 + q3 =? 244) eqn:Eb; try apply N.eqb_eq in Eb; lia. }
  cbv zeta.
  rewrite uri_decode_escape_next by lia.
  cbn [u_lower u_upper u_cp u_needed]. settle_tests. cbv zeta.
  rewrite uri_decode_escape_next by lia.
  cbn [u_lower u_upper u_cp u_needed]. settle_tests. cbv zeta.
  replace ((((240 + q3 - 240) * 64 + (128 + r3 - 128)) * 64 + (128 + r2 - 128))
           * 64 + (128 + r1 - 128)) with cp by lia.
  reflexivity.
Qed.


Lemma hex_digit_not_slash n : hex_digit n <> SLASH.
Proof.
  unfold hex_digit, SLASH. destruct (n <? 10); lia.
Qed.

Lemma percent_octets_no_slash bs : Forall (fun c => c <> SLASH) (percent_octets bs).
Proof.
  induction bs as [|b bs IH]; [constructor|].
  rewrite percent_octets_cons. unfold percent_octet.
  repeat constructor; try apply hex_digit_not_slash; try discriminate.
  exact IH.
Qed.

Lemma surrogate_pair_scalar hi lo :
  is_high_surrogate hi = true -> is_low_surrogate lo = true ->
  scalar_value (utf16_pair hi lo) /\ utf16_encode (utf16_pair hi lo) = [hi; lo].
Proof.
  unfold is_high_surrogate, is_low_surrogate, utf16_pair, scalar_value,
    utf16_encode.
  intros Hh Hl. apply between_spec in Hh, Hl.
  split; [lia|]. settle_tests.
  replace ((hi - 55296) * 1024 + (lo - 56320) + 65536 - 65536)
    with ((lo - 56320) + (hi - 55296) * 1024) by lia.
  rewrite N.div_add by discriminate. rewrite N.Div0.mod_add.
  rewrite N.div_small, N.mod_small by lia.
  f_equal; [lia | f_equal; lia].
Qed.

Lemma unescaped_not_surrogate c :
  uri_unescaped c = true ->
  is_high_surrogate c = false /\ is_low_surrogate c = false /\ c < 128.
Proof.
  unfold uri_unescaped, is_high_surrogate, is_low_surrogate. intros Hc.
  assert (c < 128) as Hlt by classes.
  repeat split; try assumption; apply between_false; lia.
Qed.

(** encodeURIComponent accepts every string whose surrogates are paired,
    writes no slash, and decodeURIComponent gives the string back. *)
Lemma uri_encode_decode s :
  well_formed_utf16 s = true ->
  exists e,
    uri_encode s = Some e
    /\ uri_decode None e = Some s
    /\ Forall (fun c => c <> SLASH) e
    /\ (s <> [] -> e <> []).
Proof.
  remember (List.length s) as n eqn:Hn.
  assert (List.length s <= n)%nat as Hlen by lia. clear Hn.
  revert s Hlen. induction n as [|n IH]; intros s Hlen Hwf.
  { destruct s; [|simpl in Hlen; lia].
    exists []. repeat split; auto. }
  destruct s as [|c t].
  { exists []. repeat split; auto. }
  simpl in Hlen.
  destruct (uri_unescaped c) eqn:Hu.
  - destruct (unescaped_not_surrogate c Hu) as (Hh & Hl & Hasc).
    simpl in Hwf. rewrite Hh, Hl in Hwf. simpl in Hwf.
    apply andb_true_iff in Hwf as [_ Hwf].
    destruct (IH t ltac:(lia) Hwf) as (e & He & Hd & Hs & _).
    exists (c :: e). simpl. rewrite Hu, He. split; [reflexivity|].
    rewrite (unescaped_not_percent c Hu), Hd. split; [reflexivity|].
    split; [|discriminate].
    constructor; [|assumption]. now apply unescaped_not_slash.
  - simpl in Hwf. simpl uri_encode. rewrite Hu.
    destruct (is_high_surrogate c) eqn:Hh.
    + destruct t as [|d t']; [discriminate|].
      apply andb_true_iff in Hwf as [Hl Hwf]. rewrite Hl.
      simpl in Hlen.
      destruct (IH t' ltac:(lia) Hwf) as (e & He & Hd & Hs & _).
      destruct (surrogate_pair_scalar c d Hh Hl) as [Hsc Hpair].
      rewrite He. eexists. split; [reflexivity|].
      rewrite uri_decode_code_point by assumption.
      rewrite Hd, Hpair. split; [reflexivity|].
      split.
      * apply Forall_app. split; [apply percent_octets_no_slash | assumption].
      * intros _ E. apply app_eq_nil in E as [E _].
        unfold utf8_encode in E.
        repeat match type of E with
               | context [if ?b then _ else _] => destruct b
               end; discriminate.
    + apply andb_true_iff in Hwf as [Hc Hwf].
      apply andb_true_iff in Hc as [Hl Hc].
      apply negb_true_iff in Hl. apply N.ltb_lt in Hc. rewrite Hl.
      destruct (IH t ltac:(lia) Hwf) as (e & He & Hd & Hs & _).
      assert (scalar_value c) as Hsc.
      { unfold scalar_value. unfold is_high_surrogate, is_low_surrogate in *.
        apply between_false in Hh, Hl. lia. }
      rewrite He. eexists. split; [reflexivity|].
      rewrite uri_decode_code_point by assumption.
      rewrite Hd. unfold utf16_encode. settle_tests.
      split; [reflexivity|]. split.
      * apply Forall_app. split; [apply percent_octets_no_slash | assumption].
      * intros _ E. apply app_eq_nil in E as [E _].
        unfold utf8_encode in E.
        repeat match type of E with
               | context [if ?b then _ else _] => destruct b
               end; discriminate.
Qed.

Lemma unescape_slashes_nonnil e : e <> [] -> unescape_slashes e <> [].
Proof.
  destruct e as [|c t]; [congruence|]. intros _.
  unfold unescape_slashes.
  change (replace_escaped_slashes 0 (c :: t))
    with (if startsWith (js "%2F") (c :: t)
          then SLASH :: replace_escaped_slashes 2 t
          else c :: replace_escaped_slashes 0 t).
  destruct (startsWith _ _); discriminate.
Qed.

(** X1.  The URI built for any well-formed slug and path is read back with
    exactly that slug; the path comes back as it was written into the URI,
    percent-encoded with its slashes restored. *)
Theorem build_parse_slug_exact (skill : Skill) (p : jsstring) :
  slug skill <> [] -> p <> [] ->
  well_formed_utf16 (slug skill) = true -> well_formed_utf16 p = true ->
  exists uri e,
    uri_encode p = Some e
    /\ buildResourceUri skill p = Ok uri
    /\ parseResourceUri uri = Ok (Some (slug skill, unescape_slashes e)).
Proof.
  intros Hs Hp Hws Hwp.
  destruct (uri_encode_decode _ Hws) as (es & Hes & Hds & Hns & Hnes).
  destruct (uri_encode_decode _ Hwp) as (e & He & _ & _ & Hne).
  exists (URI_PREFIX ++ es ++ [SLASH] ++ unescape_slashes e), e.
  split; [assumption|]. split.
  - unfold buildResourceUri, encodeURIComponent. rewrite Hes, He. reflexivity.
  - unfold parseResourceUri.
    rewrite startsWith_app, slice_from_app. cbn [negb].
    rewrite split_remainder_segments.
    + pose proof (Hnes Hs) as H1.
      pose proof (unescape_slashes_nonnil e (Hne Hp)) as H2.
      destruct es as [|c s]; [congruence|].
      destruct (unescape_slashes e) as [|d r]; [congruence|].
      unfold decodeURIComponent. rewrite Hds. reflexivity.
    + intros Hin. rewrite List.Forall_forall in Hns. now apply (Hns _ Hin).
Qed.

Lemma build_parse_slug_exact_witness :
  exists uri e,
    uri_encode (js "my file.txt") = Some e
    /\ buildResourceUri Demo.skill_foo (js "my file.txt") = Ok uri
    /\ parseResourceUri uri = Ok (Some (js "foo", unescape_slashes e)).
Proof.
  apply (build_parse_slug_exact Demo.skill_foo (js "my file.txt"));
    (discriminate || (vm_compute; reflexivity)).
Defined.

(** ** Looking skills up *)

Section Lookup.
Context {H : Host} {L : Libraries}.
Variable fs : FileSystem.

Lemma skills_lookup reg s :
  In s (skills reg) <-> exists k, skillsBySlug reg !! k = Some s.
Proof.
  unfold skills. rewrite <- list_elem_of_In, list_elem_of_fmap. split.
  - intros ([k s'] & -> & Hin). apply elem_of_map_to_list in Hin. eauto.
  - intros (k & Hk). exists (k, s). split; [reflexivity|].
    now apply elem_of_map_to_list.
Qed.

(** X3.  After a load, [get] finds every listed skill under its slug and
    nothing else: it returns a skill exactly for the slugs of the listed
    skills, throws a SkillError for every other key, and [has] tells the
    two cases apart. *)
Theorem loaded_skills_found fuel reg0 t reg :
  load fs fuel reg0 = (t, Returned reg) ->
  (forall s, In s (skills reg) ->
             registry_get reg (slug s) = Ok s /\ registry_has reg (slug s) = true)
  /\ (forall key s, registry_get reg key = Ok s ->
                    In s (skills reg) /\ slug s = key)
  /\ (forall key, registry_has reg key = false <->
                  exists e, registry_get reg key = Throw e
                            /\ err_kind e = SkillError).
Proof.
  intros Hload. apply load_ok in Hload as [K1 _ _ _ _].
  unfold registry_get, registry_has, Map_has. split; [|split].
  - intros s Hin. apply skills_lookup in Hin as (k & Hk).
    rewrite <- (K1 _ _ Hk) in Hk. rewrite Hk. split; reflexivity.
  - intros key s Hget.
    destruct (skillsBySlug reg !! key) as [s'|] eqn:Hk; [|discriminate].
    injection Hget as <-. split; [apply skills_lookup; eauto | eauto].
  - intros key. split.
    + destruct (skillsBySlug reg !! key); [discriminate|]. eauto.
    + intros (e & He & _). destruct (skillsBySlug reg !! key); [discriminate|].
      reflexivity.
Qed.

End Lookup.

Lemma loaded_skills_found_witness :
  registry_get Demo.expected (js "foo") = Ok Demo.skill_foo
  /\ registry_has Demo.expected (js "nope") = false.
Proof.
  pose proof (loaded_skills_found (H := Demo.host) (L := Demo.libs) Demo.disk
                10 Demo.empty_registry _ Demo.expected demo_loaded)
    as (Hfound & _ & Hhas).
  split.
  - apply (Hfound Demo.skill_foo). vm_compute. auto.
  - vm_compute. reflexivity.
Defined.

(** ** The files of a directory *)

Section Files.
Context {H : Host} {L : Libraries}.
Variable fs : FileSystem.

Lemma isFile_true p t :
  isFile fs p = (t, Returned true) -> regular_file fs p.
Proof.
  unfold isFile, regular_file. destruct (fs_statSync fs p) as [[]|e]; simpl;
    try discriminate. reflexivity.
Qed.

(** A walk adds to the files it was given, and only regular files that are
    not excluded. *)
Lemma traverse_adds fuel :
  forall exclude currentPath files t out,
    traverse fs fuel exclude currentPath files = (t, Returned out) ->
    exists added,
      out = files ++ added
      /\ Forall (fun p => regular_file fs p /\ exclude p = false) added.
Proof.
  induction fuel as [|n IH]; intros exclude cur files t out E; [discriminate|].
  simpl in E. apply bind_returned in E as (t0 & entries & t1 & _ & E & _).
  eapply (for_of_preorder
            (fun a b => exists added,
                 b = a ++ added
                 /\ Forall (fun p => regular_file fs p /\ exclude p = false)
                      added)); [exact E|..].
  - intros a. exists []. split; [now rewrite app_nil_r | constructor].
  - intros a b c (x & -> & Hx) (y & -> & Hy). exists (x ++ y).
    split; [now rewrite app_assoc | now apply Forall_app].
  - intros entry a t' b _ Es. cbv beta zeta in Es.
    destruct (exclude (path_join cur entry)) eqn:Hex.
    + injection Es as _ <-. exists []. split; [now rewrite app_nil_r | constructor].
    + apply bind_returned in Es as (t2 & d & t3 & _ & Es & _).
      destruct d; [eapply IH; eassumption|].
      apply bind_returned in Es as (t4 & f & t5 & Ef & Es & _).
      injection Es as _ <-. destruct f.
      * exists [path_join cur entry]. split; [reflexivity|].
        constructor; [|constructor]. split; [|assumption].
        eapply isFile_true. eassumption.
      * exists []. split; [now rewrite app_nil_r | constructor].
Qed.

Lemma collected_resources_files fuel directory t files :
  collectResources fs fuel directory = (t, Returned files) ->
  Forall (regular_file fs) files.
Proof.
  unfold collectResources, getAllFiles. intros E.
  apply traverse_adds in E as (added & -> & Ha). simpl.
  eapply List.Forall_impl; [|exact Ha]. simpl. now intros p [Hf _].
Qed.

(** X4.  The files collected for a skill directory are regular files, and
    the SKILL.md of the directory itself is not among them. *)
Theorem collected_resources_are_files fuel directory t files :
  collectResources fs fuel directory = (t, Returned files) ->
  Forall (fun p => regular_file fs p
                   /\ p <> path_join directory SKILL_MARKDOWN) files.
Proof.
  unfold collectResources, getAllFiles. intros E.
  apply traverse_adds in E as (added & -> & Ha). simpl.
  eapply List.Forall_impl; [|exact Ha]. simpl. intros p [Hf Hex].
  split; [assumption|]. intros ->. rewrite jsstring_eqb_refl in Hex.
  discriminate.
Qed.

End Files.

Lemma collected_resources_are_files_witness :
  Forall (fun p => regular_file Demo.disk p /\ p <> js "/r/a/SKILL.md")
    [js "/r/a/my file.txt"; js "/r/a/logo.png"; js "/r/a/sub/SKILL.md"].
Proof.
  refine (collected_resources_are_files (H := Demo.host) Demo.disk 5 (js "/r/a")
            _ _ _).
  vm_compute. reflexivity.
Defined.

(** ** What the scan records of a skill *)

Section Scanned.
Context {H : Host} {L : Libraries}.
Variable fs : FileSystem.

Lemma parsed_name content filePath parsed :
  parseSkillMd content filePath = Ok parsed ->
  name (parsed_metadata parsed) <> []
  /\ trim (name (parsed_metadata parsed)) = name (parsed_metadata parsed)
  /\ description (parsed_metadata parsed) <> [].
Proof.
  intros Hp.
  destruct (parseSkillMd_Ok _ _ _ Hp)
    as (fm & body & props & nameText & descriptionText & tools & lic
        & _ & _ & _ & _ & Hn & Hd & _ & _ & ->).
  simpl. auto using trim_idempotent.
Qed.

Lemma registerDirSkill_scanned fuel reg dir skillMdPath t reg' :
  registerDirSkill fs fuel reg dir skillMdPath = (t, Returned reg') ->
  registers (scanned_skill fs) reg reg'.
Proof.
  unfold registerDirSkill, readFileSync, readFileBytesSync, registers.
  destruct (fs_readFileSync fs skillMdPath) as [data|e]; simpl;
    [|intros [= <- <-]; eauto].
  destruct (parseSkillMd _ _) as [parsed|e] eqn:Ep; simpl;
    [|intros [= <- <-]; eauto].
  destruct (Map_has (skillsBySlug reg) _) eqn:Hs; simpl;
    [intros [= <- <-]; eauto|].
  destruct (Map_has (skillsByName reg) _) eqn:Hn; simpl;
    [intros [= <- <-]; eauto|].
  destruct (collectResources fs fuel dir) as [tc [res|e|]] eqn:Ec; simpl;
    intros [= <- <-]; eauto.
  right. eexists. split; [|split; [|reflexivity]].
  - repeat split; simpl; auto using Map_has_false.
  - apply parsed_name in Ep as (H1 & H2 & H3).
    apply collected_resources_files in Ec.
    repeat split; simpl; auto.
Qed.

Lemma tryRegisterZipSkill_scanned reg archive t reg' :
  tryRegisterZipSkill fs reg archive = (t, Returned reg') ->
  registers (scanned_skill fs) reg reg'.
Proof.
  unfold tryRegisterZipSkill, readFileBytesSync, registers.
  destruct (fs_readFileSync fs archive) as [data|e]; simpl;
    [|intros [= <- <-]; eauto].
  destruct (JSZip_loadAsync data) as [zip|e]; simpl; [|intros [= <- <-]; eauto].
  destruct (locate_skill_md zip) as [[member prefix]|]; simpl;
    [|intros [= <- <-]; eauto].
  destruct (zip_file zip member) as [file|]; simpl; [|intros [= <- <-]; eauto].
  destruct (zip_async file) as [text|e]; simpl; [|intros [= <- <-]; eauto].
  destruct (parseSkillMd _ _) as [parsed|e] eqn:Ep; simpl;
    [|intros [= <- <-]; eauto].
  destruct (Map_has (skillsBySlug reg) _) eqn:Hs; simpl;
    [intros [= <- <-]; eauto|].
  destruct (Map_has (skillsByName reg) _) eqn:Hn; simpl;
    intros [= <- <-]; [eauto|].
  right. eexists. split; [|split; [|reflexivity]].
  - repeat split; simpl; auto using Map_has_false.
  - apply parsed_name in Ep as (H1 & H2 & H3).
    repeat split; simpl; auto. right. eauto 6.
Qed.

Lemma scanDirectory_scanned fuel :
  forall reg dir t reg',
    scanDirectory fs fuel reg dir = (t, Returned reg') ->
    extends (scanned_skill fs) reg reg'.
Proof.
  induction fuel as [|n IH]; intros reg dir t reg' E; [discriminate|].
  simpl in E.
  apply bind_returned in E as (t0 & is_skill & t1 & _ & E & _).
  destruct is_skill.
  - apply registers_extends. eapply registerDirSkill_scanned. eassumption.
  - apply bind_returned in E as (t2 & listing & t3 & _ & E & _).
    destruct listing as [entries|]; [|injection E as _ <-; constructor].
    apply bind_returned in E as (t4 & reg1 & t5 & E1 & E2 & _).
    eapply extends_trans.
    + unfold scan_subdirectories in E1.
      eapply (for_of_preorder (extends (scanned_skill fs))); [exact E1|..].
      * constructor.
      * apply extends_trans.
      * intros entry s t' s' _ Es.
        apply bind_returned in Es as (t6 & d & t7 & _ & Es & _).
        destruct d; [eapply IH; eassumption|].
        injection Es as _ <-. constructor.
    + unfold scan_archives in E2.
      eapply (for_of_preorder (extends (scanned_skill fs))); [exact E2|..].
      * constructor.
      * apply extends_trans.
      * intros entry s t' s' _ Es.
        apply bind_returned in Es as (t6 & f & t7 & _ & Es & _).
        destruct (f && isZipFile (path_join dir entry)).
        -- apply registers_extends. eapply tryRegisterZipSkill_scanned.
           eassumption.
        -- injection Es as _ <-. constructor.
Qed.

(** X5.  Every skill of a loaded registry has a name and a description that
    are not empty, the name without white space around it, and is either
    backed by a directory, its recorded resources all regular files, or
    backed by an archive that is also its instructions path, with a root
    prefix and no recorded resource. *)
Theorem loaded_skills_scanned fuel reg0 t reg :
  load fs fuel reg0 = (t, Returned reg) ->
  forall s, In s (skills reg) -> scanned_skill fs s.
Proof.
  unfold load. intros E s Hin.
  apply bind_returned in E as (t0 & e & t1 & _ & E & _).
  apply bind_returned in E as (t2 & ok & t3 & _ & E & _).
  destruct (negb ok); [discriminate|].
  apply scanDirectory_scanned in E.
  apply skills_lookup in Hin as (k & Hk).
  destruct (extends_new _ _ _ _ _ E Hk) as [Hold|Hs]; [|assumption].
  simpl in Hold. rewrite lookup_empty in Hold. discriminate.
Qed.

End Scanned.

Lemma loaded_skills_scanned_witness :
  In Demo.skill_foo (skills Demo.expected)
  /\ scanned_skill Demo.disk Demo.skill_foo.
Proof.
  assert (In Demo.skill_foo (skills Demo.expected)) as Hin
    by (vm_compute; auto).
  split; [exact Hin|].
  exact (loaded_skills_scanned (H := Demo.host) (L := Demo.libs) Demo.disk 10
           Demo.empty_registry _ Demo.expected demo_loaded Demo.skill_foo Hin).
Defined.

(** ** Serving a file *)

Lemma alnum_unescaped c : is_alnum c = true -> uri_unescaped c = true.
Proof. unfold uri_unescaped. now intros ->. Qed.

Lemma slug_unit_unescaped c : is_slug_unit c = true -> uri_unescaped c = true.
Proof.
  intros Hc. destruct (slug_unit_cases c Hc) as [Ha| ->];
    [now apply alnum_unescaped | reflexivity].
Qed.

Section Serve.
Context {H : Host} {HL : HostLaws H} {L : Libraries}.
Variable fs : FileSystem.

(** X6.  A regular file of a directory-backed skill of a loaded registry,
    under a relative path of unreserved characters and slashes that passes
    the traversal checks, is served under the URI built for it: the fetch
    examines and reads that one file and returns its text, its name and
    its type. *)
Theorem fetch_serves_plain_file fuel reg0 t reg s p data :
  load fs fuel reg0 = (t, Returned reg) ->
  In s (skills reg) ->
  zipPath s = None ->
  p <> [] ->
  Forall (fun c => uri_unescaped c = true \/ c = SLASH) p ->
  includes [DOT; DOT] p = false ->
  startsWith [SLASH] p = false ->
  let q := path_join (directory s) p in
  startsWith (path_resolve (directory s)) (path_resolve q) = true ->
  fs_existsSync fs q = true ->
  fs_statSync fs q = Ok IsFile ->
  fs_readFileSync fs q = Ok data ->
  exists uri,
    buildResourceUri s p = Ok uri
    /\ fetchResource fs reg uri
       = ([EvExists q; EvStat q; EvReadFile q],
          Returned (mkResource uri (getResourceName s p) (detectMimeType p)
                      (utf8_decode_lossy None data) (js "utf-8"))).
Proof.
  intros Hload Hin Hzip Hp Hplain Hdots Hslash q Hinside Hexists Hstat Hread.
  apply load_ok in Hload as [K1 _ _ _ K5].
  apply skills_lookup in Hin as (k & Hk).
  pose proof (K1 _ _ Hk) as Hkey. pose proof (K5 _ _ Hk) as Hslug.
  rewrite <- Hkey in Hk.
  assert (well_formed_slug (slug s)) as [Hne Hunits _ _]
    by (rewrite Hslug; apply slugify_well_formed).
  assert (Forall (fun c => uri_unescaped c = true) (slug s)) as Hsafe.
  { eapply List.Forall_impl; [|exact Hunits]. apply slug_unit_unescaped. }
  destruct (build_parse_plain s p Hne Hp Hsafe Hplain) as (uri & Hbuild & Hparse).
  exists uri. split; [assumption|].
  rewrite (fetchResource_parse fs reg uri _ _ Hparse).
  unfold fetch_located. rewrite Hdots, Hslash. cbn [orb].
  unfold registry_get. rewrite Hk.
  unfold read_resource, zip_backed. rewrite Hzip. cbv zeta. fold q.
  rewrite Hinside. cbn [negb].
  unfold existsSync, isFile, readFileBytesSync. rewrite Hexists, Hstat, Hread.
  reflexivity.
Qed.

End Serve.

Lemma fetch_serves_plain_file_witness :
  exists uri,
    buildResourceUri Demo.skill_foo (js "logo.png") = Ok uri
    /\ fetchResource (H := Demo.host) (L := Demo.libs) Demo.disk Demo.expected uri
       = ([EvExists (js "/r/a/logo.png"); EvStat (js "/r/a/logo.png");
           EvReadFile (js "/r/a/logo.png")],
          Returned (mkResource uri (js "foo/logo.png") (Some (js "image/png"))
                      [65533; 65533; 65533] (js "utf-8"))).
Proof.
  assert (In Demo.skill_foo (skills Demo.expected)) as Hin
    by (vm_compute; auto).
  assert (Forall (fun c => uri_unescaped c = true \/ c = SLASH) (js "logo.png"))
    as Hplain by (repeat constructor).
  exact (fetch_serves_plain_file (H := Demo.host) (HL := demo_host_laws)
           (L := Demo.libs) Demo.disk 10 Demo.empty_registry _ Demo.expected
           Demo.skill_foo (js "logo.png") [255; 216; 255]
           demo_loaded Hin eq_refl ltac:(discriminate) Hplain
           eq_refl eq_refl eq_refl eq_refl eq_refl eq_refl).
Defined.

(** ** The accesses of a fetch *)

Section Accesses.
Context {H : Host} {L : Libraries}.
Variable fs : FileSystem.

Lemma read_resource_accesses uri skill rel :
  Forall (resource_access skill rel) (read_resource fs uri skill rel).1.
Proof.
  unfold read_resource, resource_access.
  destruct (zip_backed skill) as [archive|].
  - unfold readFileBytesSync.
    destruct (fs_readFileSync fs archive) as [data|e]; simpl;
      [|repeat constructor].
    destruct (JSZip_loadAsync data) as [zip|e]; simpl;
      [|constructor; [auto | constructor; [auto | constructor]]].
    destruct (zip_file zip (zip_member_path skill rel)) as [file|]; simpl;
      [|constructor; [auto | constructor; [auto | constructor]]].
    destruct (zip_dir file); simpl;
      [constructor; [auto | constructor; [auto | constructor]]|].
    destruct (zip_async file); simpl;
      (constructor; [auto | constructor; [auto | constructor; [auto | constructor]]]).
  - cbv zeta.
    destruct (startsWith (path_resolve (directory skill))
                (path_resolve (path_join (directory skill) rel))) eqn:Hin;
      simpl; [|constructor].
    unfold isFile, readFileBytesSync.
    destruct (fs_existsSync fs (path_join (directory skill) rel)); simpl;
      [|constructor; [auto | constructor]].
    destruct (fs_statSync fs (path_join (directory skill) rel)) as [[]|e]; simpl;
      try (constructor; [auto | constructor; [auto | constructor]]).
    destruct (fs_readFileSync fs (path_join (directory skill) rel)); simpl;
      (constructor; [auto | constructor; [auto | constructor; [auto | constructor]]]).
Qed.

Lemma fetch_located_accesses reg uri key rel :
  (fetch_located fs reg uri key rel).1 = []
  \/ exists skill,
       skillsBySlug reg !! key = Some skill
       /\ includes [DOT; DOT] rel = false
       /\ startsWith [SLASH] rel = false
       /\ Forall (resource_access skill rel) (fetch_located fs reg uri key rel).1.
Proof.
  unfold fetch_located.
  destruct (includes [DOT; DOT] rel) eqn:Hd; [now left|].
  destruct (startsWith [SLASH] rel) eqn:Hs; [now left|].
  cbn [orb]. unfold registry_get.
  destruct (skillsBySlug reg !! key) as [skill|] eqn:Hk; [|now left].
  right. exists skill. repeat split; try assumption.
  pose proof (read_resource_accesses uri skill rel) as Hr.
  destruct (read_resource fs uri skill rel) as [tr [[er|data]|e|]]; simpl in *;
    rewrite ?app_nil_r; assumption.
Qed.

(** X7.  Whatever the URI, a fetch touches the file system only for a skill
    of the registry and a relative path that holds no [..] and no leading
    slash: it reads the archive of the skill and one member of it, or it
    examines and reads the one path of the skill's directory that the path
    joins to, and only if that resolves to something that starts with the
    resolved directory. *)
Theorem fetch_accesses reg uri :
  (fetchResource fs reg uri).1 = []
  \/ exists skill rel,
       In skill (skills reg)
       /\ includes [DOT; DOT] rel = false
       /\ startsWith [SLASH] rel = false
       /\ Forall (resource_access skill rel) (fetchResource fs reg uri).1.
Proof.
  unfold fetchResource.
  destruct (negb (startsWith URI_PREFIX uri)); [now left|].
  destruct (split_remainder _) as [[rawSlug rel]|]; [|now left].
  destruct (decodeURIComponent rawSlug) as [key|e]; [|now left].
  simpl.
  destruct (fetch_located_accesses reg uri key rel)
    as [Hnil|(skill & Hk & Hd & Hs & Hacc)].
  - left. destruct (fetch_located fs reg uri key rel) as [tf out].
    simpl in *. now subst.
  - right. exists skill, rel. split; [apply skills_lookup; eauto|].
    repeat split; try assumption.
    destruct (fetch_located fs reg uri key rel) as [tf out]. exact Hacc.
Qed.

End Accesses.

(** ** A scan that fails *)

Lemma for_of_raises {A S} (f : A -> S -> IO S) before x after s0 s1 t1 t2 e :
  for_of before f s0 = (t1, Returned s1) ->
  f x s1 = (t2, Raised e) ->
  for_of (before ++ x :: after) f s0 = (t1 ++ t2, Raised e).
Proof.
  revert s0 t1. induction before as [|y before IH]; intros s0 t1 Hb Hx.
  - injection Hb as <- <-. simpl. rewrite Hx. reflexivity.
  - rewrite for_of_cons in Hb.
    apply bind_returned in Hb as (ta & sa & tb & Ea & Eb & ->).
    change ((y :: before) ++ x :: after) with (y :: (before ++ x :: after)).
    rewrite for_of_cons, Ea. simpl. rewrite (IH _ _ Eb Hx).
    now rewrite app_assoc.
Qed.

Section FailingScan.
Context {H : Host} {L : Libraries}.
Variable fs : FileSystem.

(** The first loop of a scan passes over the entries that are examined and
    are no directories. *)
Lemma scan_subdirectories_skips scan dir entries reg :
  Forall (fun x => exists k, fs_statSync fs (path_join dir x) = Ok k
                             /\ k <> IsDirectory) entries ->
  exists t, scan_subdirectories fs scan dir entries reg = (t, Returned reg).
Proof.
  unfold scan_subdirectories. induction 1 as [|x l (k & Hk & Hnd) _ (t & IH)].
  - eexists. reflexivity.
  - rewrite for_of_cons. unfold isDirectory at 1. rewrite Hk. simpl.
    destruct k; try congruence; simpl; rewrite IH; eexists; reflexivity.
Qed.

(** X8.  An entry that cannot be examined ends the scan of its directory
    with the error of the examination, when the entries sorted before it
    are no directories: the first loop calls [isDirectory] on every entry
    outside any [try]. *)
Theorem scan_aborts_on_stat_failure n reg dir entries before entry after e :
  (exists_and_isFile fs (path_join dir SKILL_MARKDOWN)).2 = Returned false ->
  fs_readdirSync fs dir = Ok entries ->
  Array_sort entries = before ++ entry :: after ->
  Forall (fun x => exists k, fs_statSync fs (path_join dir x) = Ok k
                             /\ k <> IsDirectory) before ->
  fs_statSync fs (path_join dir entry) = Throw e ->
  (scanDirectory fs (S n) reg dir).2 = Raised e.
Proof.
  intros Hmd Hdir Hsorted Hbefore Hstat. simpl.
  destruct (exists_and_isFile fs (path_join dir SKILL_MARKDOWN)) as [t0 out].
  simpl in Hmd. subst out. simpl.
  unfold readdirSync. rewrite Hdir. simpl. rewrite Hsorted.
  destruct (scan_subdirectories_skips (scanDirectory fs n) dir before reg Hbefore)
    as (t1 & Hskip).
  unfold scan_subdirectories in *.
  erewrite for_of_raises; [reflexivity | exact Hskip |].
  unfold isDirectory. rewrite Hstat. reflexivity.
Qed.

End FailingScan.

Lemma scan_aborts_on_stat_failure_witness :
  (scanDirectory (H := Demo.host) (L := Demo.libs) Dangling.disk 3
     Demo.empty_registry (js "/d")).2 = Raised Demo.enoent.
Proof.
  refine (scan_aborts_on_stat_failure (H := Demo.host) (L := Demo.libs)
            Dangling.disk 2 Demo.empty_registry (js "/d")
            [js "z.zip"; js "ghost"; js "a.txt"] [js "a.txt"] (js "ghost")
            [js "z.zip"] Demo.enoent eq_refl eq_refl eq_refl _ eq_refl).
  constructor; [|constructor]. exists IsFile. split; [reflexivity | discriminate].
Defined.

(** ** The duplicate checks *)

Section Duplicates.
Context {H : Host}.

(** X9.  In a consistent registry, such as every registry a scan passes
    through, a name that is taken has its slug taken too: the test on the
    names of a registration never fires once the test on the slugs has
    passed. *)
Theorem taken_name_taken_slug reg n :
  registry_ok reg ->
  Map_has (skillsByName reg) n = true ->
  Map_has (skillsBySlug reg) (slugify n) = true.
Proof.
  intros [K1 K2 K3 K4 K5] Hn. apply Map_has_true in Hn as [s Hs].
  apply Map_has_true. exists s.
  pose proof (K3 _ _ Hs) as Hname. pose proof (K4 _ _ Hs) as Hslug.
  rewrite (K5 _ _ Hslug), Hname in Hslug. exact Hslug.
Qed.

End Duplicates.

Lemma taken_name_taken_slug_witness :
  Map_has (skillsBySlug Demo.expected) (slugify (H := Demo.host) (js "Foo")) = true.
Proof.
  apply (taken_name_taken_slug (H := Demo.host) Demo.expected (js "Foo")).
  - eapply (load_ok (H := Demo.host) (L := Demo.libs) Demo.disk).
    exact demo_loaded.
  - vm_compute. reflexivity.
Defined.

(** ** The listing of an archive *)

Lemma zip_resource_path_listed skill entry_name p :
  zip_resource_path skill entry_name = Some p -> listed_for skill entry_name p.
Proof.
  unfold zip_resource_path, listed_for, zip_member_path.
  assert (forall a b, jsstring_eqb a b = false -> a <> b) as Hne.
  { intros a b E ->. rewrite jsstring_eqb_refl in E. discriminate. }
  destruct (jsstring_eqb entry_name SKILL_MARKDOWN) eqn:E1; [discriminate|].
  destruct (includes MACOSX_FOLDER entry_name) eqn:E2; [discriminate|].
  destruct (endsWith DS_STORE entry_name) eqn:E3; [discriminate|].
  cbn [orb]. cbv zeta.
  apply Hne in E1.
  destruct (zipRootPrefix skill) as [[|c prefix]|].
  - destruct (jsstring_eqb entry_name SKILL_MARKDOWN) eqn:E4; [discriminate|].
    intros [= <-]. repeat split; auto.
  - destruct (startsWith (c :: prefix) entry_name) eqn:Hp.
    + destruct (jsstring_eqb (slice_from _ entry_name) SKILL_MARKDOWN) eqn:E4;
        [discriminate|].
      intros [= <-]. apply Hne in E4. repeat split; auto. left.
      apply startsWith_prefix in Hp as (r & ->).
      simpl. now rewrite slice_from_app.
    + destruct (jsstring_eqb entry_name SKILL_MARKDOWN) eqn:E4; [discriminate|].
      intros [= <-]. repeat split; auto. right. split; [reflexivity|].
      intros prefix' [= <-]. congruence.
  - destruct (jsstring_eqb entry_name SKILL_MARKDOWN) eqn:E4; [discriminate|].
    intros [= <-]. repeat split; auto.
Qed.

Lemma zip_resource_paths_In skill files p :
  In p (zip_resource_paths skill files) ->
  exists entry_name,
    In entry_name files /\ zip_resource_path skill entry_name = Some p.
Proof.
  unfold zip_resource_paths.
  assert (forall l acc,
             In p (fold_left
                     (fun resources entry_name =>
                        match zip_resource_path skill entry_name with
                        | Some relPath => resources ++ [relPath]
                        | None => resources
                        end) l acc) ->
             In p acc
             \/ exists entry_name,
                  In entry_name l /\ zip_resource_path skill entry_name = Some p)
    as Hfold.
  { induction l as [|x l IH]; intros acc; simpl; [auto|].
    intros Hin. apply IH in Hin as [Hin|(y & Hy & E)].
    - destruct (zip_resource_path skill x) as [r|] eqn:Ex; [|auto].
      apply in_app_or in Hin as [Hin|[<-|[]]]; eauto.
    - eauto. }
  intros Hin. apply Hfold in Hin as [[]|(y & Hy & E)].
  exists y. split; [|assumption].
  eapply Permutation_in; [symmetry; apply Array_sort_perm | assumption].
Qed.

Section ListingProperties.
Context {H : Host} {L : Libraries}.
Variable fs : FileSystem.
Variable path_relative : jsstring -> jsstring -> jsstring.

(** X10.  The resource paths listed for a skill are sorted.  For an archive
    each is listed for a file entry of the archive, so none is SKILL.md or
    macOS metadata; for a directory each is the relative path of a regular
    file other than the instructions of the skill. *)
Theorem listed_resource_paths fuel skill t paths :
  getSkillResourcePaths fs path_relative fuel skill = (t, Returned paths) ->
  StronglySorted str_le paths
  /\ match zip_backed skill with
     | Some archive =>
         exists data zip,
           fs_readFileSync fs archive = Ok data
           /\ JSZip_loadAsync data = Ok zip
           /\ forall p, In p paths ->
                exists entry_name,
                  In entry_name (zip_file_names zip)
                  /\ listed_for skill entry_name p
     | None =>
         forall p, In p paths ->
           exists filePath,
             p = path_relative (directory skill) filePath
             /\ regular_file fs filePath
             /\ filePath <> instructionsPath skill
     end.
Proof.
  unfold getSkillResourcePaths.
  destruct (zip_backed skill) as [archive|].
  - unfold readFileBytesSync.
    destruct (fs_readFileSync fs archive) as [data|e]; simpl; [|discriminate].
    destruct (JSZip_loadAsync data) as [zip|e] eqn:Ez; simpl; [|discriminate].
    intros [= _ <-]. split; [apply Array_sort_sorted|].
    exists data, zip. split; [reflexivity|]. split; [assumption|].
    intros p Hin.
    eapply Permutation_in in Hin; [|symmetry; apply Array_sort_perm].
    apply zip_resource_paths_In in Hin as (entry_name & Hentry & Hp).
    exists entry_name. split; [assumption|].
    now apply zip_resource_path_listed.
  - intros E. apply bind_returned in E as (t1 & allFiles & t2 & Ef & Er & _).
    injection Er as _ <-. split; [apply Array_sort_sorted|].
    intros p Hin.
    eapply Permutation_in in Hin; [|symmetry; apply Array_sort_perm].
    apply in_map_iff in Hin as (filePath & <- & Hin).
    exists filePath. split; [reflexivity|].
    unfold getAllFiles in Ef. apply traverse_adds in Ef as (added & -> & Ha).
    simpl in Hin. rewrite List.Forall_forall in Ha.
    destruct (Ha _ Hin) as [Hf Hex]. split; [assumption|].
    intros ->. rewrite jsstring_eqb_refl in Hex. discriminate.
Qed.

End ListingProperties.

Lemma listed_resource_paths_witness :
  StronglySorted str_le [js "README.txt"; js "run.py"]
  /\ exists entry_name,
       In entry_name (zip_file_names Demo.archive)
       /\ listed_for Demo.skill_bar entry_name (js "run.py").
Proof.
  destruct (listed_resource_paths (H := Demo.host) (L := Demo.libs) Demo.disk
              (fun _ p => p) 1 Demo.skill_bar
              [EvReadFile (js "/r/t.zip"); EvZipOpen]
              [js "README.txt"; js "run.py"])
    as [Hsorted Hlisted]; [vm_compute; reflexivity|].
  split; [exact Hsorted|].
  destruct Hlisted as (data & zip & Hdata & Hzip & Hall).
  vm_compute in Hdata. injection Hdata as <-.
  vm_compute in Hzip. injection Hzip as <-.
  apply Hall. right. left. reflexivity.
Defined.

(** ** The errors of the parser *)

Lemma parseSkillMd_error_witness :
  (err_kind (validation_error (js "Front matter in SKILL.md is missing 'name'."))
   = SkillValidationError
   /\ forall label, Some (js "SKILL.md") = Some label ->
        includes label
          (err_message
             (validation_error (js "Front matter in SKILL.md is missing 'name'.")))
        = true)
  \/ validation_error (js "Front matter in SKILL.md is missing 'name'.")
     = conversion_error.
Proof.
  apply (parseSkillMd_error (L := Demo.libs) (Demo.skill_md "0" "zero")
           (Some (js "SKILL.md"))).
  vm_compute. reflexivity.
Defined.
